(** * GenerationHandler: generation-based reclamation, verified against its
    specification.

    Shallow embedding of
    [vespalib/src/vespa/vespalib/util/generationhandler.cpp].

    Hold records live in a heap addressed by index (a [GenerationHold *] is
    an index, [nullptr] is [None]); guards live in a store of their own, so
    that the address comparisons of the assignment operators can be written
    down.  The atomic words are integers with their wrap-around spelled out:
    [_refCount] is a [uint32_t], generations are 64 bits wide.

    Two models of execution are given.  In the first ([step], [history])
    every public operation runs as a whole: it describes the runs in which
    no two calls overlap.  In the second ([reader_step], [writer_step],
    [cstep], [chistory]) [takeGuard] and [incGeneration] are cut at their
    atomic accesses, and the accesses of any number of readers and of one
    writer interleave.  Every access takes effect at once for all threads
    (sequential consistency); weaker memory orderings are not described. *)

From Stdlib Require Import ZArith Lia List Bool Sorted.
From stdpp Require Import base option list sorting.

Local Open Scope Z_scope.

(** ** Machine integers *)

Definition wrap32 (z : Z) : Z := z mod 2 ^ 32.
Definition wrap64 (z : Z) : Z := z mod 2 ^ 64.

Definition is_uint32 (z : Z) : Prop := 0 <= z < 2 ^ 32.

(** Modelled from the spec: [generation_t] and [sgeneration_t] are declared
    in generationhandler.h, which is not part of the sources; the spec says
    comparisons use signed subtraction, tolerant of counter wraparound.
    [static_cast<sgeneration_t>] reinterprets a 64-bit unsigned value as
    two's complement. *)
Definition to_sgeneration (z : Z) : Z :=
  if z <? 2 ^ 63 then z else z - 2 ^ 64.

(** ** Data model *)

Abbreviation ptr := nat (only parsing).
Abbreviation gptr := nat (only parsing).

(** [GenerationHandler::GenerationHold]: the members [_refCount],
    [_generation] and [_next].  The prefix keeps them apart from the
    handler's member [_generation]. *)
Record GenerationHold := mkHold {
  hold_refCount : Z;
  hold_generation : Z;
  hold_next : option ptr
}.

Record Guard := mkGuard { _hold : option ptr }.

Record GenerationHandler := mkHandler {
  _generation : Z;
  _firstUsedGeneration : Z;
  _last : option ptr;
  _first : option ptr;
  _free : option ptr;
  _numHolds : Z
}.

Record world := mkWorld {
  heap : list GenerationHold;
  handler : GenerationHandler;
  guards : list Guard
}.

(** ** The monad of the embedding

    A computation reads the build mode ([true] when [NDEBUG] is defined, so
    that [assert] expands to nothing), threads the world and may stop with
    an error. *)

Inductive error := AssertionFailed | NullPointer | DanglingPointer | OutOfFuel.

Inductive result (A : Type) :=
| Ok (a : A)
| Err (e : error).
Arguments Ok {A} a.
Arguments Err {A} e.

Definition M (A : Type) : Type := bool -> world -> result (A * world).

Definition ret {A} (a : A) : M A := fun _ w => Ok (a, w).

Definition bind {A B} (m : M A) (f : A -> M B) : M B :=
  fun nd w =>
    match m nd w with
    | Ok (a, w') => f a nd w'
    | Err e => Err e
    end.

Definition fail {A} (e : error) : M A := fun _ _ => Err e.

Notation "x <- m ;; k" := (bind m (fun x => k))
  (at level 100, m at next level, right associativity).
Notation "m ;; k" := (bind m (fun _ => k))
  (at level 100, right associativity).

Definition assert_ (b : bool) : M unit :=
  fun nd w => if nd || b then Ok (tt, w) else Err AssertionFailed.

Definition deref (p : option ptr) : M ptr :=
  match p with
  | Some q => ret q
  | None => fail NullPointer
  end.

Definition get_hold (p : ptr) : M GenerationHold :=
  fun _ w =>
    match heap w !! p with
    | Some r => Ok (r, w)
    | None => Err DanglingPointer
    end.

Definition put_hold (p : ptr) (r : GenerationHold) : M unit :=
  fun _ w => Ok (tt, mkWorld (<[p := r]> (heap w)) (handler w) (guards w)).

Definition get_handler : M GenerationHandler := fun _ w => Ok (handler w, w).

Definition put_handler (h : GenerationHandler) : M unit :=
  fun _ w => Ok (tt, mkWorld (heap w) h (guards w)).

Definition get_guard (g : gptr) : M Guard :=
  fun _ w =>
    match guards w !! g with
    | Some x => Ok (x, w)
    | None => Err DanglingPointer
    end.

Definition put_guard (g : gptr) (x : Guard) : M unit :=
  fun _ w => Ok (tt, mkWorld (heap w) (handler w) (<[g := x]> (guards w))).

(** A new guard object gets the next free slot of the store. *)
Definition alloc_guard (x : Guard) : M gptr :=
  fun _ w => Ok (length (guards w), mkWorld (heap w) (handler w) (guards w ++ [x])).

(** ** Atomic operations on a record's word *)

Definition load_refCount (p : ptr) : M Z :=
  r <- get_hold p;; ret (hold_refCount r).

Definition fetch_add (p : ptr) (d : Z) : M Z :=
  r <- get_hold p;;
  put_hold p (mkHold (wrap32 (hold_refCount r + d)) (hold_generation r) (hold_next r));;
  ret (hold_refCount r).

Definition fetch_sub (p : ptr) (d : Z) : M Z :=
  r <- get_hold p;;
  put_hold p (mkHold (wrap32 (hold_refCount r - d)) (hold_generation r) (hold_next r));;
  ret (hold_refCount r).

Definition compare_exchange_strong (p : ptr) (expected desired : Z) : M bool :=
  r <- get_hold p;;
  if hold_refCount r =? expected
  then put_hold p (mkHold desired (hold_generation r) (hold_next r));; ret true
  else ret false.

Definition load_generation (p : ptr) : M Z :=
  r <- get_hold p;; ret (hold_generation r).

Definition store_generation (p : ptr) (g : Z) : M unit :=
  r <- get_hold p;; put_hold p (mkHold (hold_refCount r) g (hold_next r)).

Definition load_next (p : ptr) : M (option ptr) :=
  r <- get_hold p;; ret (hold_next r).

Definition store_next (p : ptr) (n : option ptr) : M unit :=
  r <- get_hold p;; put_hold p (mkHold (hold_refCount r) (hold_generation r) n).

(** ** GenerationHold *)

(** Modelled from the spec: [valid] is declared in generationhandler.h;
    bit 0 of the word is the validity flag, 0 meaning valid. *)
Definition valid (refCount : Z) : bool := Z.land refCount 1 =? 0.

(** [new GenerationHold]: the constructor sets the word to 1 (invalid, no
    reader), the generation to 0 and the link to null. *)
Definition new_GenerationHold : M ptr :=
  fun _ w =>
    Ok (length (heap w),
        mkWorld (heap w ++ [mkHold 1 0 None]) (handler w) (guards w)).

Definition setValid (this : ptr) : M unit :=
  refs <- load_refCount this;;
  assert_ (negb (valid refs));;
  fetch_sub this 1;;
  ret tt.

Definition setInvalid (this : ptr) : M bool :=
  refs <- load_refCount this;;
  assert_ (valid refs);;
  if negb (refs =? 0) then ret false
  else compare_exchange_strong this refs 1.

Definition release (this : ptr) : M unit :=
  fetch_sub this 2;; ret tt.

Definition acquire (this : ptr) : M (option ptr) :=
  old <- fetch_add this 2;;
  if valid old then ret (Some this)
  else release this;; ret None.

Definition copy (self : option ptr) : M (option ptr) :=
  match self with
  | None => ret None
  | Some p =>
      oldRefCount <- fetch_add p 2;;
      assert_ (valid oldRefCount);;
      ret (Some p)
  end.

Definition getRefCount (this : ptr) : M Z :=
  refs <- load_refCount this;; ret (refs / 2).

(** ** Guard *)

(** [Guard::Guard()] *)
Definition Guard_default : M gptr := alloc_guard (mkGuard None).

(** [Guard::Guard(GenerationHold *hold)] *)
Definition Guard_from_hold (hold : option ptr) : M gptr :=
  p <- deref hold;;
  h <- acquire p;;
  alloc_guard (mkGuard h).

(** Modelled from the spec: [Guard::cleanup] is defined in
    generationhandler.h; destroying or reassigning a guard releases the
    currently held pin via [release], if any, and leaves the guard empty. *)
Definition Guard_cleanup (this : gptr) : M unit :=
  x <- get_guard this;;
  match _hold x with
  | Some p => release p;; put_guard this (mkGuard None)
  | None => ret tt
  end.

(** Modelled from the spec: [Guard::valid] is defined in
    generationhandler.h; it tells a successfully acquired pin from a failed
    acquisition attempt, which leaves the guard without a record. *)
Definition Guard_valid (this : gptr) : M bool :=
  x <- get_guard this;; ret (bool_decide (_hold x <> None)).

(** [Guard::~Guard()] *)
Definition Guard_dtor (this : gptr) : M unit := Guard_cleanup this.

(** [Guard::Guard(const Guard &rhs)] *)
Definition Guard_copy_ctor (rhs : gptr) : M gptr :=
  x <- get_guard rhs;;
  h <- copy (_hold x);;
  alloc_guard (mkGuard h).

(** [Guard::Guard(Guard &&rhs)] *)
Definition Guard_move_ctor (rhs : gptr) : M gptr :=
  x <- get_guard rhs;;
  this <- alloc_guard (mkGuard (_hold x));;
  put_guard rhs (mkGuard None);;
  ret this.

(** [Guard::operator=(const Guard &rhs)] *)
Definition Guard_copy_assign (this rhs : gptr) : M unit :=
  if negb (rhs =? this)%nat then
    Guard_cleanup this;;
    x <- get_guard rhs;;
    h <- copy (_hold x);;
    put_guard this (mkGuard h)
  else ret tt.

(** [Guard::operator=(Guard &&rhs)] *)
Definition Guard_move_assign (this rhs : gptr) : M unit :=
  if negb (rhs =? this)%nat then
    Guard_cleanup this;;
    x <- get_guard rhs;;
    put_guard this (mkGuard (_hold x));;
    put_guard rhs (mkGuard None)
  else ret tt.

(** ** GenerationHandler *)

(** Modelled from the spec: the accessors [getCurrentGeneration],
    [getNextGeneration], [set_generation] and [getFirstUsedGeneration] are
    defined in generationhandler.h; they read and write the handler's
    counters, the next generation being the current one plus one in
    [generation_t]. *)
Definition getCurrentGeneration : M Z :=
  h <- get_handler;; ret (_generation h).

Definition getNextGeneration : M Z :=
  g <- getCurrentGeneration;; ret (wrap64 (g + 1)).

Definition set_generation (g : Z) : M unit :=
  h <- get_handler;;
  put_handler (mkHandler g (_firstUsedGeneration h) (_last h) (_first h)
                 (_free h) (_numHolds h)).

Definition getFirstUsedGeneration : M Z :=
  h <- get_handler;; ret (_firstUsedGeneration h).

Definition store_firstUsedGeneration (g : Z) : M unit :=
  h <- get_handler;;
  put_handler (mkHandler (_generation h) g (_last h) (_first h) (_free h)
                 (_numHolds h)).

Definition load_last : M (option ptr) := h <- get_handler;; ret (_last h).

Definition store_last (p : option ptr) : M unit :=
  h <- get_handler;;
  put_handler (mkHandler (_generation h) (_firstUsedGeneration h) p (_first h)
                 (_free h) (_numHolds h)).

Definition load_first : M (option ptr) := h <- get_handler;; ret (_first h).

Definition store_first (p : option ptr) : M unit :=
  h <- get_handler;;
  put_handler (mkHandler (_generation h) (_firstUsedGeneration h) (_last h) p
                 (_free h) (_numHolds h)).

Definition load_free : M (option ptr) := h <- get_handler;; ret (_free h).

Definition store_free (p : option ptr) : M unit :=
  h <- get_handler;;
  put_handler (mkHandler (_generation h) (_firstUsedGeneration h) (_last h)
                 (_first h) p (_numHolds h)).

Definition inc_numHolds : M unit :=
  h <- get_handler;;
  put_handler (mkHandler (_generation h) (_firstUsedGeneration h) (_last h)
                 (_first h) (_free h) (wrap32 (_numHolds h + 1))).

(** The loop of [updateFirstUsedGeneration].  The source loops without a
    bound; [fuel] counts the iterations that remain. *)
Fixpoint sweep (fuel : nat) : M unit :=
  match fuel with
  | O => fail OutOfFuel
  | S fuel' =>
      first <- load_first;;
      last <- load_last;;
      if bool_decide (first = last) then ret tt
      else
        p <- deref first;;
        ok <- setInvalid p;;
        if negb ok then ret tt
        else
          let toFree := p in
          next <- load_next toFree;;
          assert_ (bool_decide (next <> None));;
          store_first next;;
          free <- load_free;;
          store_next toFree free;;
          store_free (Some toFree);;
          sweep fuel'
  end.

(** [GenerationHandler::updateFirstUsedGeneration].  Every iteration but the
    last turns a word from 0 into 1, so one iteration more than there are
    hold records is enough ([sweep_total]). *)
Definition updateFirstUsedGeneration : M unit :=
  (fun nd w => sweep (S (length (heap w))) nd w);;
  first <- load_first;;
  p <- deref first;;
  g <- load_generation p;;
  store_firstUsedGeneration g.

(** [GenerationHandler::GenerationHandler()], run on the world [no_world]. *)
Definition no_world : world :=
  mkWorld [] (mkHandler 0 0 None None None 0) [].

Definition GenerationHandler_ctor : M unit :=
  put_handler (mkHandler 0 0 None None None 0);;
  p <- new_GenerationHold;;
  store_first (Some p);;
  store_last (Some p);;
  inc_numHolds;;
  g <- getCurrentGeneration;;
  store_generation p g;;
  setValid p.

(** The retry loop of [takeGuard]: [fuel] bounds the number of retries.
    The temporary [Guard(_last.load())] is move-assigned to [guard] and
    destroyed. *)
Fixpoint takeGuard_retry (fuel : nat) (guard : gptr) : M unit :=
  v <- Guard_valid guard;;
  if v then ret tt
  else
    match fuel with
    | O => fail OutOfFuel
    | S fuel' =>
        last <- load_last;;
        tmp <- Guard_from_hold last;;
        Guard_move_assign guard tmp;;
        Guard_dtor tmp;;
        takeGuard_retry fuel' guard
    end.

(** [GenerationHandler::takeGuard] *)
Definition takeGuard (fuel : nat) : M gptr :=
  last <- load_last;;
  guard <- Guard_from_hold last;;
  takeGuard_retry fuel guard;;
  ret guard.

(** [GenerationHandler::incGeneration] *)
Definition incGeneration : M unit :=
  ngen <- getNextGeneration;;
  olast <- load_last;;
  last <- deref olast;;
  refs <- getRefCount last;;
  if refs =? 0 then
    set_generation ngen;;
    store_generation last ngen;;
    updateFirstUsedGeneration
  else
    free <- load_free;;
    nhold <- match free with
             | None => p <- new_GenerationHold;; inc_numHolds;; ret p
             | Some p => next <- load_next p;; store_free next;; ret p
             end;;
    store_generation nhold ngen;;
    store_next nhold None;;
    setValid nhold;;
    store_next last (Some nhold);;
    set_generation ngen;;
    store_last (Some nhold);;
    updateFirstUsedGeneration.

(** The walk of [getGenerationRefCount(generation_t)] over the chain.  The
    source follows [_next] until it is null; [fuel] bounds the number of
    records visited. *)
Fixpoint find_hold (fuel : nat) (hold : option ptr) (gen : Z) : M Z :=
  match hold with
  | None => ret 0
  | Some p =>
      match fuel with
      | O => fail OutOfFuel
      | S fuel' =>
          g <- load_generation p;;
          if g =? gen then getRefCount p
          else next <- load_next p;; find_hold fuel' next gen
      end
  end.

(** [GenerationHandler::getGenerationRefCount(generation_t gen)].  The walk
    may visit as many records as the heap holds: a longer walk would be
    caught in a cycle. *)
Definition getGenerationRefCount (gen : Z) : M Z :=
  cur <- getCurrentGeneration;;
  if to_sgeneration (wrap64 (gen - cur)) >? 0 then ret 0
  else
    fug <- getFirstUsedGeneration;;
    if to_sgeneration (wrap64 (fug - gen)) >? 0 then ret 0
    else
      first <- load_first;;
      (fun nd w => find_hold (length (heap w)) first gen nd w).

(** ** Interleavings of whole operations

    What readers and the writer can do to one handler: take a guard
    ([takeGuard], the new guard gets a new slot), destroy the guard in a
    slot (the slot stays behind, empty), copy- or move-construct a new guard
    from the one in a slot, copy- or move-assign one slot to another, and
    advance the generation ([incGeneration]). *)

Inductive op :=
| TakeGuard
| DropGuard (g : gptr)
| CopyGuard (g : gptr)
| MoveGuard (g : gptr)
| AssignGuard (g rhs : gptr)
| MoveAssignGuard (g rhs : gptr)
| Advance.

#[global] Instance op_eq_dec : EqDecision op.
Proof. solve_decision. Defined.

Definition is_advance (o : op) : nat :=
  match o with Advance => 1%nat | _ => 0%nat end.

(** An operation that names a guard which was never created is skipped. *)
Definition has_guard (g : gptr) : M bool :=
  fun _ w => Ok (bool_decide (g < length (guards w))%nat, w).

Definition when_guard (g : gptr) (m : M unit) : M unit :=
  b <- has_guard g;; if b then m else ret tt.

Definition step (fuel : nat) (o : op) : M unit :=
  match o with
  | TakeGuard => takeGuard fuel;; ret tt
  | DropGuard g => when_guard g (Guard_dtor g)
  | CopyGuard g => when_guard g (Guard_copy_ctor g;; ret tt)
  | MoveGuard g => when_guard g (Guard_move_ctor g;; ret tt)
  | AssignGuard g rhs => when_guard g (when_guard rhs (Guard_copy_assign g rhs))
  | MoveAssignGuard g rhs => when_guard g (when_guard rhs (Guard_move_assign g rhs))
  | Advance => incGeneration
  end.

Fixpoint run (fuel : nat) (ops : list op) : M unit :=
  match ops with
  | [] => ret tt
  | o :: ops' => step fuel o;; run fuel ops'
  end.

(** The world right after the constructor. *)
Definition fresh : world :=
  mkWorld [mkHold 0 0 None] (mkHandler 0 0 (Some 0%nat) (Some 0%nat) None 1) [].

(** All the worlds an interleaving goes through, the starting one first; it
    ends where an operation fails. *)
Fixpoint history (fuel : nat) (nd : bool) (ops : list op) (w : world) : list world :=
  w :: match ops with
       | [] => []
       | o :: ops' =>
           match step fuel o nd w with
           | Ok (_, w') => history fuel nd ops' w'
           | Err _ => []
           end
       end.

(** ** Observations *)

Definition word (w : world) (p : ptr) : Z :=
  match heap w !! p with Some r => hold_refCount r | None => 0 end.

Definition tag (w : world) (p : ptr) : Z :=
  match heap w !! p with Some r => hold_generation r | None => 0 end.

Definition generation (w : world) : Z := _generation (handler w).
Definition first_used_generation (w : world) : Z := _firstUsedGeneration (handler w).

Definition set_heap (hp : list GenerationHold) (w : world) : world :=
  mkWorld hp (handler w) (guards w).

Definition set_guards (gs : list Guard) (w : world) : world :=
  mkWorld (heap w) (handler w) gs.

Definition set_word (z : Z) (r : GenerationHold) : GenerationHold :=
  mkHold z (hold_generation r) (hold_next r).


(** ** The chain of hold records *)

(** [chain hp from c to]: following [_next] from the pointer [from] visits
    exactly the records [c], in this order, and arrives at the pointer
    [to]. *)
Fixpoint chain (hp : list GenerationHold) (from : option ptr) (c : list ptr)
    (to : option ptr) : Prop :=
  match c with
  | [] => from = to
  | p :: c' => from = Some p /\ exists r, hp !! p = Some r /\ chain hp (hold_next r) c' to
  end.

(** The records reachable from [from], found by following [_next]. *)
Fixpoint walk (fuel : nat) (hp : list GenerationHold) (from : option ptr) : list ptr :=
  match fuel, from with
  | S fuel', Some p =>
      p :: match hp !! p with
           | Some r => walk fuel' hp (hold_next r)
           | None => []
           end
  | _, _ => []
  end.

(** The live hold records: those reachable from [_first]. *)
Definition live_chain (w : world) : list ptr :=
  walk (length (heap w)) (heap w) (_first (handler w)).

(** ** The retirement sweep, in the words of the specification

    Starting from [first], while [first != last]: try to mark [first]
    invalid, which succeeds when its word is 0; on success move it to the
    freelist and advance [first] to its [next]; on failure stop.  [c] lists
    the records from [first] up to, but not including, [last]. *)
Definition retire (p : ptr) (w : world) : world :=
  match heap w !! p with
  | Some r =>
      let h := handler w in
      mkWorld (<[p := mkHold 1 (hold_generation r) (_free h)]> (heap w))
        (mkHandler (_generation h) (_firstUsedGeneration h) (_last h)
           (hold_next r) (Some p) (_numHolds h))
        (guards w)
  | None => w
  end.

Fixpoint sweep_spec (c : list ptr) (w : world) : world :=
  match c with
  | [] => w
  | p :: c' => if word w p =? 0 then sweep_spec c' (retire p w) else w
  end.

(** The records the sweep retires: the longest prefix of [c] whose words
    are all 0. *)
Fixpoint retired (w : world) (c : list ptr) : list ptr :=
  match c with
  | [] => []
  | p :: c' => if word w p =? 0 then p :: retired w c' else []
  end.

(** Step 5 of [advance]: the watermark becomes the tag of [first]. *)
Definition set_watermark (w : world) : world :=
  let h := handler w in
  match _first h with
  | Some q =>
      mkWorld (heap w)
        (mkHandler (_generation h) (tag w q) (_last h) (_first h) (_free h)
           (_numHolds h))
        (guards w)
  | None => w
  end.

(** What the sweep needs of the chain: [c] leads from [_first] to [_last],
    which is the record [l]; no record occurs twice; and, where assertions
    are compiled in, the words of [c] are valid. *)
Record sweepable (nd : bool) (w : world) (c : list ptr) (l : ptr) : Prop := {
  sw_last : _last (handler w) = Some l;
  sw_chain : chain (heap w) (_first (handler w)) c (Some l);
  sw_nodup : NoDup (c ++ [l]);
  sw_last_in : is_Some (heap w !! l);
  sw_valid : forall p, p ∈ c -> nd || valid (word w p) = true
}.

(** What is left of [c] once the sweep has stopped. *)
Fixpoint kept (w : world) (c : list ptr) : list ptr :=
  match c with
  | [] => []
  | p :: c' => if word w p =? 0 then kept w c' else c
  end.

(** ** The reference count of a generation, in the words of the
    specification *)

(** [a - b] computed in [generation_t] and read as a signed number. *)
Definition sdiff (a b : Z) : Z := to_sgeneration (wrap64 (a - b)).

(** The live-reader count of the first live record whose tag is [gen], 0
    when there is none. *)
Definition chain_ref_count (w : world) (gen : Z) : Z :=
  match List.find (fun p => tag w p =? gen) (live_chain w) with
  | Some p => word w p / 2
  | None => 0
  end.

Definition generation_ref_count (w : world) (gen : Z) : Z :=
  if sdiff gen (generation w) >? 0 then 0
  else if sdiff (first_used_generation w) gen >? 0 then 0
  else chain_ref_count w gen.

(** ** Well-formed worlds

    [c ++ [l]] is the live chain from [_first] to [_last], [fl] the
    freelist; every hold record is on exactly one of them; live records have
    valid words, free records invalid ones. *)
Record wf_at (w : world) (c : list ptr) (l : ptr) (fl : list ptr) : Prop := {
  wf_last : _last (handler w) = Some l;
  wf_live : chain (heap w) (_first (handler w)) (c ++ [l]) None;
  wf_free : chain (heap w) (_free (handler w)) fl None;
  wf_nodup : NoDup (c ++ l :: fl);
  wf_cover : forall p, (p < length (heap w))%nat -> p ∈ c ++ l :: fl;
  wf_valid : forall p, p ∈ c ++ [l] -> valid (word w p) = true;
  wf_invalid : forall p, p ∈ fl -> valid (word w p) = false
}.

Definition well_formed (w : world) : Prop := exists c l fl, wf_at w c l fl.

(** The live-reader count of the last hold record. *)
Definition last_ref_count (w : world) : Z :=
  match _last (handler w) with
  | Some l => word w l / 2
  | None => 0
  end.

(** The tags grow strictly along the live chain and the last one is the
    current generation. *)
Definition older (w : world) (p q : ptr) : Prop := tag w p < tag w q.

Record sorted_at (w : world) (c : list ptr) (l : ptr) : Prop := {
  srt_sorted : StronglySorted (older w) (c ++ [l]);
  srt_last : tag w l = generation w;
  srt_range : 0 <= generation w
}.

(** The invariant of the chain: it is well formed, its tags are sorted and
    the watermark is the tag of the first live record. *)
Definition chain_inv (w : world) : Prop :=
  exists c l fl,
    wf_at w c l fl /\ sorted_at w c l /\ first_used_generation w = tag w (hd l c).

(** Two worlds of the same shape: same handler, same number of hold
    records, and record by record the same tag, the same link and the same
    validity.  Guard operations only move between such worlds. *)
Record same_shape (w w' : world) : Prop := {
  shape_handler : handler w' = handler w;
  shape_length : length (heap w') = length (heap w);
  shape_tag : forall p, tag w' p = tag w p;
  shape_valid : forall p, valid (word w' p) = valid (word w p);
  shape_next : forall p, hold_next <$> heap w' !! p = hold_next <$> heap w !! p
}.

Definition shape_preserving {A} (m : M A) : Prop :=
  forall nd w a w', m nd w = Ok (a, w') -> same_shape w w'.

(** The number of [Advance] steps of an interleaving. *)
Fixpoint advances (ops : list op) : nat :=
  match ops with
  | [] => O
  | Advance :: ops' => S (advances ops')
  | _ :: ops' => advances ops'
  end.

(** The world [incGeneration] hands to the sweep when it morphs the last
    record [l], whose contents are [r]. *)
Definition morph (l : ptr) (r : GenerationHold) (w : world) : world :=
  let h := handler w in
  let ngen := wrap64 (_generation h + 1) in
  mkWorld (<[l := mkHold (hold_refCount r) ngen (hold_next r)]> (heap w))
    (mkHandler ngen (_firstUsedGeneration h) (_last h) (_first h) (_free h)
       (_numHolds h))
    (guards w).

(** The world it hands to the sweep when it links a newly allocated
    record behind [l]. *)
Definition link_new (l : ptr) (r : GenerationHold) (w : world) : world :=
  let h := handler w in
  let ngen := wrap64 (_generation h + 1) in
  let n := length (heap w) in
  mkWorld (<[l := mkHold (hold_refCount r) (hold_generation r) (Some n)]>
             (heap w ++ [mkHold 0 ngen None]))
    (mkHandler ngen (_firstUsedGeneration h) (Some n) (_first h) None
       (wrap32 (_numHolds h + 1)))
    (guards w).

(** The world it hands to the sweep when it takes the record [f], whose
    contents are [rf], from the freelist and links it behind [l]. *)
Definition link_free (l : ptr) (r : GenerationHold) (f : ptr) (rf : GenerationHold)
    (w : world) : world :=
  let h := handler w in
  let ngen := wrap64 (_generation h + 1) in
  mkWorld (<[l := mkHold (hold_refCount r) (hold_generation r) (Some f)]>
             (<[f := mkHold (wrap32 (hold_refCount rf - 1)) ngen None]> (heap w)))
    (mkHandler ngen (_firstUsedGeneration h) (Some f) (_first h) (hold_next rf)
       (_numHolds h))
    (guards w).

(** The three ways [incGeneration] prepares the chain before it sweeps:
    from the world [w] with live chain [c ++ [l]] and freelist [fl] to the
    world [w1] with live chain [c1 ++ [l1]] and freelist [fl1]. *)
Inductive advance_case (w : world) (c : list ptr) (l : ptr) (fl : list ptr) :
    world -> list ptr -> ptr -> list ptr -> Prop :=
| adv_morph r :
    heap w !! l = Some r ->
    hold_refCount r / 2 = 0 ->
    advance_case w c l fl (morph l r w) c l fl
| adv_new r :
    heap w !! l = Some r ->
    hold_refCount r / 2 <> 0 ->
    fl = [] ->
    advance_case w c l fl (link_new l r w) (c ++ [l]) (length (heap w)) []
| adv_free r f rf fl' :
    heap w !! l = Some r ->
    hold_refCount r / 2 <> 0 ->
    fl = f :: fl' ->
    heap w !! f = Some rf ->
    advance_case w c l fl (link_free l r f rf w) (c ++ [l]) f fl'.

(** ** The claims about interleavings, as properties of a sequence of
    operations run on a fresh handler *)

(** The watermark never goes down along the interleaving. *)
Definition watermark_monotone (fuel : nat) (nd : bool) (ops : list op) : Prop :=
  forall i j wi wj,
    (i <= j)%nat ->
    history fuel nd ops fresh !! i = Some wi ->
    history fuel nd ops fresh !! j = Some wj ->
    first_used_generation wi <= first_used_generation wj.

(** The world after [k] calls of [incGeneration] on a fresh handler with no
    guard around. *)
Definition advanced (k : Z) : world :=
  mkWorld [mkHold 0 (wrap64 k) None]
    (mkHandler (wrap64 k) (wrap64 k) (Some 0%nat) (Some 0%nat) None 1) [].

(** ** Guards and reference counts *)

(** The number of guards in the store [gs] that pin the record [p]. *)
Definition npins (gs : list Guard) (p : ptr) : nat :=
  length (filter (fun x => _hold x = Some p) gs).

Definition pins (w : world) (p : ptr) : nat := npins (guards w) p.

(** What one guard contributes to the count of [p]. *)
Definition pin_weight (x : Guard) (p : ptr) : nat :=
  if decide (_hold x = Some p) then 1%nat else 0%nat.

(** The number of guards that pin some record. *)
Definition live_guards (w : world) : nat :=
  length (filter (fun x => _hold x <> None) (guards w)).

(** The word of a valid record is twice the number of guards that pin it;
    an invalid record has the word 1 and no guard; every guard pins a record
    of the heap. *)
Record count_inv (w : world) : Prop := {
  cnt_valid : forall p r, heap w !! p = Some r -> valid (hold_refCount r) = true ->
    hold_refCount r = 2 * Z.of_nat (pins w p) /\ 2 * Z.of_nat (pins w p) < 2 ^ 32;
  cnt_invalid : forall p r, heap w !! p = Some r -> valid (hold_refCount r) = false ->
    hold_refCount r = 1 /\ pins w p = 0%nat;
  cnt_heap : forall g p, guards w !! g = Some (mkGuard (Some p)) ->
    (p < length (heap w))%nat
}.

(** A guard in the slot [g] takes a pin on the record [p], whose contents
    are [r]. *)
Definition pin_at (g : gptr) (p : ptr) (r : GenerationHold) (w : world) : world :=
  mkWorld (<[p := set_word (wrap32 (hold_refCount r + 2)) r]> (heap w)) (handler w)
    (<[g := mkGuard (Some p)]> (guards w)).

(** The guard in the slot [g] gives up its pin on the record [p]. *)
Definition unpin (g : gptr) (p : ptr) (r : GenerationHold) (w : world) : world :=
  mkWorld (<[p := set_word (wrap32 (hold_refCount r - 2)) r]> (heap w)) (handler w)
    (<[g := mkGuard None]> (guards w)).

(** Along the run [ops] of whole operations, each one finished before the
    next begins: a guard [g] that pins the record [p] from step [i] to step
    [j] keeps the watermark at step [j] at or below the generation [p] had
    at step [i].  For calls that overlap see [pinned_above_watermark]. *)
Definition sequential_pin_kept (fuel : nat) (nd : bool) (ops : list op) : Prop :=
  forall i j g p wi wj,
    (i <= j)%nat ->
    history fuel nd ops fresh !! i = Some wi ->
    history fuel nd ops fresh !! j = Some wj ->
    (forall k wk, (i <= k <= j)%nat -> history fuel nd ops fresh !! k = Some wk ->
                  guards wk !! g = Some (mkGuard (Some p))) ->
    first_used_generation wj <= tag wi p.

(** Fewer than 2^31 guards are alive in every world the interleaving [ops]
    goes through from [w]: no reference count can wrap around. *)
Definition guards_bounded (fuel : nat) (nd : bool) (ops : list op) (w : world) : Prop :=
  forall k wk, history fuel nd ops w !! k = Some wk -> Z.of_nat (live_guards wk) < 2 ^ 31.

(** The world after [k] calls of [takeGuard] on a fresh handler. *)
Definition taken (k : nat) : world :=
  mkWorld [mkHold (wrap32 (2 * Z.of_nat k)) 0 None] (handler fresh)
    (repeat (mkGuard (Some 0%nat)) k).

(** ** Scenario B

    The world of scenario B before its second [advance]: the guard taken at
    generation 0 has been dropped, so record 0 has the word 0; record 1
    carries generation 1 and the word [z]; [gs] is the guard store. *)
Definition scenario_B_world (z : Z) (gs : list Guard) : world :=
  mkWorld [mkHold 0 0 (Some 1%nat); mkHold z 1 None]
    (mkHandler 1 0 (Some 1%nat) (Some 0%nat) None 2) gs.

(** The number of hold records whose word is 0: the measure that bounds the
    sweep. *)
Definition zero_count (hp : list GenerationHold) : nat :=
  length (filter (fun r => hold_refCount r = 0) hp).

(** ** The rest of the handler

    [GenerationHandler::getGenerationRefCount(void)]: the sum of the
    live-reader counts along the chain, accumulated in a [uint64_t]. *)
Fixpoint sum_holds (fuel : nat) (hold : option ptr) (ret_ : Z) : M Z :=
  match hold with
  | None => ret ret_
  | Some p =>
      match fuel with
      | O => fail OutOfFuel
      | S fuel' =>
          refs <- getRefCount p;;
          next <- load_next p;;
          sum_holds fuel' next (wrap64 (ret_ + refs))
      end
  end.

Definition getGenerationRefCount_all : M Z :=
  first <- load_first;;
  (fun nd w => sum_holds (length (heap w)) first 0 nd w).

(** [delete p], with [deleted] the records given back so far: the
    destructor [~GenerationHold] asserts that the record has no reader left,
    then the record is gone.  Touching a record that has been deleted is an
    error. *)
Definition check_alive (deleted : list ptr) (p : ptr) : M unit :=
  if bool_decide (p ∈ deleted) then fail DanglingPointer else ret tt.

Definition delete_hold (deleted : list ptr) (p : ptr) : M (list ptr) :=
  check_alive deleted p;;
  refs <- getRefCount p;;
  assert_ (refs =? 0);;
  ret (p :: deleted).

Definition dec_numHolds : M unit :=
  h <- get_handler;;
  put_handler (mkHandler (_generation h) (_firstUsedGeneration h) (_last h)
                 (_first h) (_free h) (wrap32 (_numHolds h - 1))).

(** The loop of the destructor over the freelist. *)
Fixpoint free_all (fuel : nat) (deleted : list ptr) : M (list ptr) :=
  free <- load_free;;
  match free with
  | None => ret deleted
  | Some toFree =>
      match fuel with
      | O => fail OutOfFuel
      | S fuel' =>
          check_alive deleted toFree;;
          next <- load_next toFree;;
          store_free next;;
          dec_numHolds;;
          deleted' <- delete_hold deleted toFree;;
          free_all fuel' deleted'
      end
  end.

(** [GenerationHandler::~GenerationHandler()]; it returns the records it has
    deleted.  Every turn of the loop deletes a record that was not deleted
    before, so it cannot take more turns than there are records. *)
Definition GenerationHandler_dtor : M (list ptr) :=
  updateFirstUsedGeneration;;
  first <- load_first;;
  last <- load_last;;
  assert_ (bool_decide (first = last));;
  deleted <- (fun nd w => free_all (S (length (heap w))) [] nd w);;
  h <- get_handler;;
  assert_ (_numHolds h =? 1);;
  p <- deref first;;
  delete_hold deleted p.

(** [_numHolds] is the number of hold records, in its 32-bit type. *)
Definition holds_counted (w : world) : Prop :=
  _numHolds (handler w) = wrap32 (Z.of_nat (length (heap w))).

(** The records on the freelist: those reachable from [_free]. *)
Definition free_list (w : world) : list ptr :=
  walk (length (heap w)) (heap w) (_free (handler w)).

(** The sum of [f] over the records of [c]. *)
Fixpoint sum_over (f : ptr -> nat) (c : list ptr) : nat :=
  match c with
  | [] => 0%nat
  | p :: c' => (f p + sum_over f c')%nat
  end.

(** No generation tag is negative. *)
Definition tags_nonneg (w : world) : Prop := forall p, 0 <= tag w p.

(** Every word of the heap is a [uint32_t] value. *)
Definition words_uint32 (w : world) : Prop :=
  forall p r, heap w !! p = Some r -> is_uint32 (hold_refCount r).

(** A computation that leaves every word a [uint32_t] value. *)
Definition keeps_words {A} (m : M A) : Prop :=
  forall nd w a w', m nd w = Ok (a, w') -> words_uint32 w -> words_uint32 w'.

(** ** Interleavings of atomic accesses

    [takeGuard] and [incGeneration] are not atomic: readers run
    concurrently with the one writer, and what the other threads see of a
    call are its accesses to the shared locations, one at a time.  Below, a
    call is cut into steps.  Each step is one access to a location that
    another thread reads or writes (the word of a hold record, [_last]) or
    that the claims observe (a generation tag, the watermark), together with
    the statements before it that touch only what the running thread alone
    uses ([_first], [_free], [_next], [_numHolds], [_generation] and the
    thread's local variables).  Steps of different threads interleave in any
    order; every access takes effect at once, as under sequentially
    consistent memory. *)

(** A reader inside [takeGuard]: about to load [_last] (line 162, and line
    171 after a failed attempt); has loaded it into [hold] and is about to
    [fetch_add] (line 41); has seen an invalid word and is about to
    [release] (line 44); has returned its guard. *)
Inductive taker :=
| TStart
| TLoaded (hold : option ptr)
| TFailed (hold : ptr)
| TDone.

#[global] Instance taker_eq_dec : EqDecision taker.
Proof. solve_decision. Defined.

Definition reader_step (t : taker) : M taker :=
  match t with
  | TStart => last <- load_last;; ret (TLoaded last)
  | TLoaded hold =>
      p <- deref hold;;
      old <- fetch_add p 2;;
      if valid old then alloc_guard (mkGuard (Some p));; ret TDone
      else ret (TFailed p)
  | TFailed p => release p;; ret TStart
  | TDone => ret TDone
  end.

(** The writer inside [incGeneration], with its local variables: not in a
    call; past the test of line 186 and about to morph (lines 191-192) or to
    get a record (lines 197-205); about to [setValid] it (line 206); about
    to link and publish it (lines 207-209); inside
    [updateFirstUsedGeneration] at the head of the loop (line 117), about to
    compare-and-swap the word it has read (line 31), about to store the
    watermark (line 128). *)
Inductive writer :=
| WIdle
| WMorph (ngen : Z) (last : ptr)
| WLink (ngen : Z) (last : ptr)
| WSetValid (ngen : Z) (last nhold : ptr)
| WPublish (ngen : Z) (last nhold : ptr)
| WSweep
| WCas (toFree : ptr) (refs : Z)
| WStore.

Definition writer_step (pc : writer) : M writer :=
  match pc with
  | WIdle =>
      ngen <- getNextGeneration;;
      olast <- load_last;;
      last <- deref olast;;
      refs <- getRefCount last;;
      ret (if refs =? 0 then WMorph ngen last else WLink ngen last)
  | WMorph ngen last =>
      set_generation ngen;;
      store_generation last ngen;;
      ret WSweep
  | WLink ngen last =>
      free <- load_free;;
      nhold <- match free with
               | None => p <- new_GenerationHold;; inc_numHolds;; ret p
               | Some p => next <- load_next p;; store_free next;; ret p
               end;;
      store_generation nhold ngen;;
      store_next nhold None;;
      ret (WSetValid ngen last nhold)
  | WSetValid ngen last nhold =>
      setValid nhold;;
      ret (WPublish ngen last nhold)
  | WPublish ngen last nhold =>
      store_next last (Some nhold);;
      set_generation ngen;;
      store_last (Some nhold);;
      ret WSweep
  | WSweep =>
      first <- load_first;;
      last <- load_last;;
      if bool_decide (first = last) then ret WStore
      else
        p <- deref first;;
        refs <- load_refCount p;;
        assert_ (valid refs);;
        if negb (refs =? 0) then ret WStore else ret (WCas p refs)
  | WCas toFree refs =>
      ok <- compare_exchange_strong toFree refs 1;;
      if negb ok then ret WStore
      else
        next <- load_next toFree;;
        assert_ (bool_decide (next <> None));;
        store_first next;;
        free <- load_free;;
        store_next toFree free;;
        store_free (Some toFree);;
        ret WSweep
  | WStore =>
      first <- load_first;;
      p <- deref first;;
      g <- load_generation p;;
      store_firstUsedGeneration g;;
      ret WIdle
  end.

(** The shared world, the readers that are inside [takeGuard] and the
    writer. *)
Record cstate := mkC {
  shared : world;
  takers : list taker;
  writer_pc : writer
}.

(** What can happen next: a reader calls [takeGuard]; the reader [t] takes
    its next step; the guard in the slot [g] is destroyed ([release] is one
    [fetch_sub]); the writer takes its next step, which starts a call of
    [incGeneration] when it is in none. *)
Inductive cop :=
| CCall
| CReader (t : nat)
| CDrop (g : gptr)
| CWriter.

#[global] Instance cop_eq_dec : EqDecision cop.
Proof. solve_decision. Defined.

Definition cstep (o : cop) (nd : bool) (s : cstate) : result cstate :=
  match o with
  | CCall => Ok (mkC (shared s) (takers s ++ [TStart]) (writer_pc s))
  | CReader t =>
      match takers s !! t with
      | None => Ok s
      | Some x =>
          match reader_step x nd (shared s) with
          | Ok (x', w') => Ok (mkC w' (<[t := x']> (takers s)) (writer_pc s))
          | Err e => Err e
          end
      end
  | CDrop g =>
      match when_guard g (Guard_dtor g) nd (shared s) with
      | Ok (_, w') => Ok (mkC w' (takers s) (writer_pc s))
      | Err e => Err e
      end
  | CWriter =>
      match writer_step (writer_pc s) nd (shared s) with
      | Ok (pc', w') => Ok (mkC w' (takers s) pc')
      | Err e => Err e
      end
  end.

(** All the states an interleaving goes through, the starting one first; it
    ends where a step fails. *)
Fixpoint chistory (nd : bool) (ops : list cop) (s : cstate) : list cstate :=
  s :: match ops with
       | [] => []
       | o :: ops' =>
           match cstep o nd s with
           | Ok s' => chistory nd ops' s'
           | Err _ => []
           end
       end.

(** Right after the constructor: no reader, the writer in no call. *)
Definition cfresh : cstate := mkC fresh [] WIdle.

(** The writer's steps run one after the other, with no step of a reader in
    between. *)
Fixpoint writer_run (n : nat) (pc : writer) : M writer :=
  match n with
  | O => ret pc
  | S n' => pc' <- writer_step pc;; writer_run n' pc'
  end.

(** ** No premature reclamation, over interleavings of atomic accesses *)

(** The claim as it is stated: a guard [g] that pins the record [p] from
    step [i] to step [j] keeps the watermark at step [j] at or below the
    generation [p] had at step [i]. *)
Definition pinned_generation_kept (nd : bool) (ops : list cop) : Prop :=
  forall i j g p si sj,
    (i <= j)%nat ->
    chistory nd ops cfresh !! i = Some si ->
    chistory nd ops cfresh !! j = Some sj ->
    (forall k sk, (i <= k <= j)%nat -> chistory nd ops cfresh !! k = Some sk ->
                  guards (shared sk) !! g = Some (mkGuard (Some p))) ->
    first_used_generation (shared sj) <= tag (shared si) p.

(** The claim as the code has it: at every step, the watermark is at or
    below the generation tag that a pinned record carries at that step. *)
Definition pinned_above_watermark (nd : bool) (ops : list cop) : Prop :=
  forall k s g p,
    chistory nd ops cfresh !! k = Some s ->
    guards (shared s) !! g = Some (mkGuard (Some p)) ->
    first_used_generation (shared s) <= tag (shared s) p.

(** The readers that have added 2 to the word of an invalid record and not
    yet taken it back. *)
Definition failing (t : taker) : Prop :=
  match t with TFailed _ => True | _ => False end.

#[global] Instance failing_dec t : Decision (failing t).
Proof. destruct t; simpl; apply _. Defined.

Definition nfailed (ts : list taker) (p : ptr) : nat :=
  length (filter (fun t => t = TFailed p) ts).

Definition fail_weight (t : taker) (p : ptr) : nat :=
  if decide (t = TFailed p) then 1%nat else 0%nat.

Definition nfailing (ts : list taker) : nat := length (filter failing ts).

Definition failing_weight (t : taker) : nat := if decide (failing t) then 1%nat else 0%nat.

Definition live_weight (x : Guard) : nat :=
  if decide (_hold x <> None) then 1%nat else 0%nat.

Definition nlive (gs : list Guard) : nat := length (filter (fun x => _hold x <> None) gs).

(** Who has a share in the word of [p]: the guards that pin it and the
    readers whose failed attempt is still to be rolled back. *)
Definition holders (s : cstate) (p : ptr) : nat :=
  (pins (shared s) p + nfailed (takers s) p)%nat.

Definition inflight (s : cstate) : nat :=
  (live_guards (shared s) + length (filter failing (takers s)))%nat.

(** Fewer than 2^31 guards are alive or half taken in every state the
    interleaving [ops] goes through from [s]: no reference count wraps. *)
Definition cbounded (nd : bool) (ops : list cop) (s : cstate) : Prop :=
  forall k sk, chistory nd ops s !! k = Some sk -> Z.of_nat (inflight sk) < 2 ^ 31.

(** The step [o] from the state [s] begins a call of [incGeneration]: the
    writer steps from [WIdle]. *)
Definition begins (o : cop) (s : cstate) : nat :=
  match o, writer_pc s with
  | CWriter, WIdle => 1%nat
  | _, _ => 0%nat
  end.

(** The number of calls of [incGeneration] that the interleaving [ops]
    begins from the state [s]. *)
Fixpoint writer_begins (nd : bool) (ops : list cop) (s : cstate) : nat :=
  match ops with
  | [] => O
  | o :: ops' =>
      (begins o s +
       match cstep o nd s with
       | Ok s' => writer_begins nd ops' s'
       | Err _ => O
       end)%nat
  end.

(** *** The invariant of the interleavings

    [c ++ [l]] is the live chain and [fl] the freelist, as in [wf_at]; [d]
    holds the record the writer has taken for the next generation and not
    yet published, if there is one. *)
Record cwf (w : world) (c : list ptr) (l : ptr) (d fl : list ptr) : Prop := {
  cwf_last : _last (handler w) = Some l;
  cwf_live : chain (heap w) (_first (handler w)) (c ++ [l]) None;
  cwf_free : chain (heap w) (_free (handler w)) fl None;
  cwf_nodup : NoDup ((c ++ [l]) ++ d ++ fl);
  cwf_cover : forall p, (p < length (heap w))%nat -> p ∈ (c ++ [l]) ++ d ++ fl;
  cwf_detached : forall n, n ∈ d -> exists r, heap w !! n = Some r /\ hold_next r = None;
  cwf_valid : forall p, p ∈ c ++ [l] -> valid (word w p) = true;
  cwf_invalid : forall p, p ∈ fl -> valid (word w p) = false
}.

(** The tags grow along the live chain, the last one is the current
    generation and the watermark is at or below the first one. *)
Record ctags (w : world) (c : list ptr) (l : ptr) : Prop := {
  ct_sorted : StronglySorted (older w) (c ++ [l]);
  ct_last : tag w l = generation w;
  ct_fug : first_used_generation w <= tag w (hd l c);
  ct_nonneg : 0 <= generation w
}.

(** What the writer's local variables hold at each of its steps. *)
Definition pc_inv (w : world) (pc : writer) (c : list ptr) (l : ptr) (d : list ptr) : Prop :=
  match pc with
  | WIdle | WSweep | WStore => d = []
  | WMorph ngen last | WLink ngen last =>
      d = [] /\ last = l /\ ngen = generation w + 1
  | WSetValid ngen last nhold =>
      d = [nhold] /\ last = l /\ ngen = generation w + 1 /\
      tag w nhold = ngen /\ valid (word w nhold) = false
  | WPublish ngen last nhold =>
      d = [nhold] /\ last = l /\ ngen = generation w + 1 /\
      tag w nhold = ngen /\ valid (word w nhold) = true
  | WCas toFree refs => d = [] /\ refs = 0 /\ head c = Some toFree
  end.

(** The word of a record is twice the number of its holders, plus 1 when it
    is invalid; guards pin valid records only; readers hold pointers to
    records of the heap. *)
Record ccount (s : cstate) : Prop := {
  cc_word : forall p r, heap (shared s) !! p = Some r ->
    hold_refCount r =
    2 * Z.of_nat (holders s p) + (if valid (hold_refCount r) then 0 else 1);
  cc_pin : forall g p, guards (shared s) !! g = Some (mkGuard (Some p)) ->
    (p < length (heap (shared s)))%nat /\ valid (word (shared s) p) = true;
  cc_loaded : forall t o, takers s !! t = Some (TLoaded o) ->
    exists p, o = Some p /\ (p < length (heap (shared s)))%nat;
  cc_failed : forall t p, takers s !! t = Some (TFailed p) ->
    (p < length (heap (shared s)))%nat;
  cc_bound : Z.of_nat (inflight s) < 2 ^ 31
}.

Definition cinv_at (s : cstate) (c : list ptr) (l : ptr) (d fl : list ptr) : Prop :=
  cwf (shared s) c l d fl /\ ctags (shared s) c l /\
  pc_inv (shared s) (writer_pc s) c l d /\ ccount s.

Definition cinv (s : cstate) : Prop := exists c l d fl, cinv_at s c l d fl.

(** The generation the counter has or is about to get. *)
Definition pending (s : cstate) : Z :=
  generation (shared s) +
  match writer_pc s with
  | WMorph _ _ | WLink _ _ | WSetValid _ _ _ | WPublish _ _ _ => 1
  | _ => 0
  end.

(** *** Long interleavings *)

(** [n] calls of [takeGuard], one after the other, by the readers [k],
    [k + 1], ... *)
Fixpoint takes (k n : nat) : list cop :=
  match n with
  | O => []
  | S n' => CCall :: CReader k :: CReader k :: takes (S k) n'
  end.

(** The state after [k] calls of [takeGuard] on a fresh handler. *)
Definition ctaken (k : nat) : cstate := mkC (taken k) (repeat TDone k) WIdle.

(** [n] times the four steps one call of [incGeneration] takes when no
    guard is around. *)
Fixpoint writer_calls (n : nat) : list cop :=
  match n with
  | O => []
  | S n' => CWriter :: CWriter :: CWriter :: CWriter :: writer_calls n'
  end.

(** The state after [k] such calls on a fresh handler. *)
Definition cadvanced (k : Z) : cstate := mkC (advanced k) [] WIdle.

(** What the tag of the record [p] can be in [s'], when it is pinned from
    [s] to [s']: what it is in [s], or 1 more when the writer is, in [s],
    about to morph [p]. *)
Definition tag_step (s s' : cstate) (p : ptr) : Prop :=
  tag (shared s') p = tag (shared s) p \/
  exists ngen, writer_pc s = WMorph ngen p /\ tag (shared s') p = tag (shared s) p + 1.

(** While the guard [g] pins the record [p], from step [i] to step [j],
    the tag of [p] stays what it was at step [i], unless the writer was, at
    step [i], past its test of the count of [p] and about to morph it: the
    tag at step [j] then is the one of step [i], or that plus 1. *)
Definition pinned_tag_kept (nd : bool) (ops : list cop) : Prop :=
  forall i j g p si sj,
    (i <= j)%nat ->
    chistory nd ops cfresh !! i = Some si ->
    chistory nd ops cfresh !! j = Some sj ->
    (forall k sk, (i <= k <= j)%nat -> chistory nd ops cfresh !! k = Some sk ->
                  guards (shared sk) !! g = Some (mkGuard (Some p))) ->
    tag_step si sj p.
(** ** Basic facts about the monad and the words *)

Lemma world_eta w : mkWorld (heap w) (handler w) (guards w) = w.
Proof. by destruct w. Qed.

Lemma hold_eta r : mkHold (hold_refCount r) (hold_generation r) (hold_next r) = r.
Proof. by destruct r. Qed.

Lemma valid_spec z : valid z = true <-> z mod 2 = 0.
Proof.
  unfold valid. change 1 with (Z.ones 1). rewrite Z.land_ones by lia.
  change (2 ^ 1) with 2. apply Z.eqb_eq.
Qed.

Lemma valid_testbit z : valid z = negb (Z.testbit z 0).
Proof.
  unfold valid. change 1 with (Z.ones 1). rewrite Z.land_ones by lia.
  change (2 ^ 1) with 2. rewrite Z.bit0_odd, <- Z.negb_even, negb_involutive.
  rewrite Zeven_mod. done.
Qed.

Lemma wrap32_parity z : wrap32 z mod 2 = z mod 2.
Proof.
  unfold wrap32. change (2 ^ 32) with (2 * 2 ^ 31).
  rewrite Z.rem_mul_r by lia.
  rewrite (Z.mul_comm 2), Z.mod_add by lia. apply Z.mod_mod. lia.
Qed.

Lemma valid_wrap32 z : valid (wrap32 z) = valid z.
Proof.
  apply eq_true_iff_eq. rewrite !valid_spec, wrap32_parity. done.
Qed.

Lemma valid_add2 z : valid (wrap32 (z + 2)) = valid z.
Proof.
  rewrite valid_wrap32. apply eq_true_iff_eq. rewrite !valid_spec.
  replace (z + 2) with (z + 1 * 2) by lia. by rewrite Z.mod_add by lia.
Qed.

Lemma valid_sub2 z : valid (wrap32 (z - 2)) = valid z.
Proof.
  rewrite valid_wrap32. apply eq_true_iff_eq. rewrite !valid_spec.
  replace (z - 2) with (z + (-1) * 2) by lia. by rewrite Z.mod_add by lia.
Qed.

Lemma valid_sub1 z : valid (wrap32 (z - 1)) = negb (valid z).
Proof.
  rewrite valid_wrap32.
  pose proof (Z.div_mod z 2 ltac:(lia)) as E1.
  pose proof (Z.div_mod (z - 1) 2 ltac:(lia)) as E2.
  pose proof (Z.mod_pos_bound z 2 ltac:(lia)).
  pose proof (Z.mod_pos_bound (z - 1) 2 ltac:(lia)).
  destruct (valid z) eqn:E; simpl.
  - apply valid_spec in E. apply not_true_is_false. rewrite valid_spec. lia.
  - apply valid_spec. apply not_true_iff_false in E. rewrite valid_spec in E. lia.
Qed.

Lemma wrap32_add_sub z : is_uint32 z -> wrap32 (wrap32 (z + 2) - 2) = z.
Proof.
  unfold wrap32, is_uint32. intros Hz.
  rewrite Zminus_mod_idemp_l. replace (z + 2 - 2) with z by lia.
  apply Z.mod_small. done.
Qed.


(** ** The hold record's operations, one at a time *)

Section hold_ops.
Context (nd : bool) (w : world) (p : ptr) (r : GenerationHold).
Hypothesis Hp : heap w !! p = Some r.

Lemma get_hold_ok : get_hold p nd w = Ok (r, w).
Proof using Hp. unfold get_hold. by rewrite Hp. Qed.

Lemma load_refCount_ok : load_refCount p nd w = Ok (hold_refCount r, w).
Proof using Hp. unfold load_refCount, bind. by rewrite get_hold_ok. Qed.

Lemma load_generation_ok : load_generation p nd w = Ok (hold_generation r, w).
Proof using Hp. unfold load_generation, bind. by rewrite get_hold_ok. Qed.

Lemma load_next_ok : load_next p nd w = Ok (hold_next r, w).
Proof using Hp. unfold load_next, bind. by rewrite get_hold_ok. Qed.

Lemma fetch_add_ok d :
  fetch_add p d nd w =
  Ok (hold_refCount r,
      set_heap (<[p := set_word (wrap32 (hold_refCount r + d)) r]> (heap w)) w).
Proof using Hp. unfold fetch_add, bind. by rewrite get_hold_ok. Qed.

Lemma fetch_sub_ok d :
  fetch_sub p d nd w =
  Ok (hold_refCount r,
      set_heap (<[p := set_word (wrap32 (hold_refCount r - d)) r]> (heap w)) w).
Proof using Hp. unfold fetch_sub, bind. by rewrite get_hold_ok. Qed.

Lemma getRefCount_ok : getRefCount p nd w = Ok (hold_refCount r / 2, w).
Proof using Hp. unfold getRefCount, bind. by rewrite load_refCount_ok. Qed.

Lemma release_ok :
  release p nd w =
  Ok (tt, set_heap (<[p := set_word (wrap32 (hold_refCount r - 2)) r]> (heap w)) w).
Proof using Hp. unfold release, bind. by rewrite fetch_sub_ok. Qed.

Lemma setInvalid_ok :
  setInvalid p nd w =
  if nd || valid (hold_refCount r) then
    if hold_refCount r =? 0
    then Ok (true, set_heap (<[p := set_word 1 r]> (heap w)) w)
    else Ok (false, w)
  else Err AssertionFailed.
Proof using Hp.
  unfold setInvalid, bind. rewrite load_refCount_ok. unfold assert_.
  destruct (nd || valid (hold_refCount r)); [|done].
  destruct (hold_refCount r =? 0) eqn:E; simpl; [|done].
  unfold compare_exchange_strong, bind. rewrite get_hold_ok.
  by rewrite Z.eqb_refl.
Qed.

Lemma acquire_ok :
  is_uint32 (hold_refCount r) ->
  acquire p nd w =
  if valid (hold_refCount r)
  then Ok (Some p,
           set_heap (<[p := set_word (wrap32 (hold_refCount r + 2)) r]> (heap w)) w)
  else Ok (None, w).
Proof using Hp.
  intros Hr. unfold acquire, bind. rewrite fetch_add_ok.
  destruct (valid (hold_refCount r)); [done|].
  unfold release, bind, fetch_sub, bind, get_hold, put_hold, set_heap; simpl.
  rewrite list_lookup_insert_eq by (by eapply lookup_lt_Some).
  simpl. rewrite wrap32_add_sub by done.
  rewrite list_insert_insert_eq. unfold ret. do 2 f_equal.
  rewrite hold_eta, list_insert_id by done. apply world_eta.
Qed.

Lemma copy_ok :
  copy (Some p) nd w =
  if nd || valid (hold_refCount r)
  then Ok (Some p,
           set_heap (<[p := set_word (wrap32 (hold_refCount r + 2)) r]> (heap w)) w)
  else Err AssertionFailed.
Proof using Hp.
  unfold copy, bind. rewrite fetch_add_ok. unfold assert_.
  by destruct (nd || valid (hold_refCount r)).
Qed.
End hold_ops.

(** C6 (acquire arithmetic).  On a record whose word [z] is a [uint32_t]
    value, [acquire] adds 2 to the word and decides from the validity bit of
    the value before the addition; bit 0 is the same before and after, so a
    valid word stays valid; on an invalid word the 2 is subtracted again,
    [nullptr] is returned and the world, the word included, is exactly what
    it was. *)
Theorem acquire_arithmetic nd w p r :
  heap w !! p = Some r ->
  is_uint32 (hold_refCount r) ->
  let z := hold_refCount r in
  fetch_add p 2 nd w = Ok (z, set_heap (<[p := set_word (wrap32 (z + 2)) r]> (heap w)) w) /\
  Z.testbit (wrap32 (z + 2)) 0 = Z.testbit z 0 /\
  (valid z = true ->
     valid (wrap32 (z + 2)) = true /\
     acquire p nd w = Ok (Some p, set_heap (<[p := set_word (wrap32 (z + 2)) r]> (heap w)) w)) /\
  (valid z = false -> acquire p nd w = Ok (None, w)).
Proof.
  intros Hp Hr z. split; [by apply fetch_add_ok|]. split.
  - pose proof (valid_add2 z) as H. rewrite !valid_testbit in H.
    by destruct (Z.testbit (wrap32 (z + 2)) 0), (Z.testbit z 0).
  - rewrite (acquire_ok nd w p r Hp Hr). fold z. split; intros Hv; rewrite Hv; [|done].
    by rewrite valid_add2.
Qed.

Lemma acquire_arithmetic_witness :
  let w := mkWorld [mkHold 3 7 None] (mkHandler 8 7 (Some 0%nat) (Some 0%nat) None 1) [] in
  acquire 0 false w = Ok (None, w).
Proof.
  intros w.
  apply (acquire_arithmetic false w 0%nat (mkHold 3 7 None)); [done| |done].
  unfold is_uint32; simpl; lia.
Defined.

(** C5 (setInvalid), as the code has it.  On a valid word that shows a
    reader, [setInvalid] returns false and leaves the world as it is.  On an
    already invalid word the [assert(valid(refs))] fails; only when the
    assertions are compiled out does the call return false, leaving the
    world as it is.  It returns true exactly when the word read is 0, and
    then the word has become 1 and nothing else has changed. *)
Theorem setInvalid_behaviour nd w p r :
  heap w !! p = Some r ->
  let z := hold_refCount r in
  (valid z = true -> z <> 0 -> setInvalid p nd w = Ok (false, w)) /\
  (valid z = false ->
     setInvalid p nd w = if nd then Ok (false, w) else Err AssertionFailed) /\
  (forall w', setInvalid p nd w = Ok (true, w') <->
     z = 0 /\ w' = set_heap (<[p := set_word 1 r]> (heap w)) w).
Proof.
  intros Hp z. rewrite (setInvalid_ok nd w p r Hp). fold z.
  split; [|split].
  - intros -> Hz. rewrite orb_true_r. by apply Z.eqb_neq in Hz as ->.
  - intros Hv. rewrite Hv, orb_false_r. destruct nd; [|done].
    destruct (z =? 0) eqn:E; [|done]. apply Z.eqb_eq in E. by rewrite E in Hv.
  - intros w'. split.
    + destruct (nd || valid z); [|done].
      destruct (z =? 0) eqn:E; [|done]. apply Z.eqb_eq in E.
      intros [= <-]. done.
    + intros [Hz ->]. rewrite Hz. simpl. by rewrite orb_true_r.
Qed.

Lemma setInvalid_behaviour_witness :
  let w := mkWorld [mkHold 4 0 None] (mkHandler 0 0 (Some 0%nat) (Some 0%nat) None 1) [] in
  setInvalid 0 false w = Ok (false, w).
Proof.
  intros w.
  by apply (setInvalid_behaviour false w 0%nat (mkHold 4 0 None)).
Defined.

(** C5 as stated fails: on an already invalid word (here 1) the call does
    not return false, its assertion fails. *)
Lemma setInvalid_invalid_word_asserts :
  let w := mkWorld [mkHold 1 0 None] (mkHandler 0 0 (Some 0%nat) (Some 0%nat) None 1) [] in
  valid (word w 0) = false /\
  setInvalid 0 false w = Err AssertionFailed /\
  setInvalid 0 false w <> Ok (false, w).
Proof. by vm_compute. Qed.

(** ** The constructor *)

Lemma GenerationHandler_ctor_fresh nd :
  GenerationHandler_ctor nd no_world = Ok (tt, fresh).
Proof. by destruct nd. Qed.

(** ** Guards *)

Lemma Guard_default_ok nd w :
  Guard_default nd w = Ok (length (guards w), set_guards (guards w ++ [mkGuard None]) w).
Proof. done. Qed.

Lemma get_guard_ok nd w g x : guards w !! g = Some x -> get_guard g nd w = Ok (x, w).
Proof. intros H. unfold get_guard. by rewrite H. Qed.

Lemma Guard_cleanup_empty nd w g :
  guards w !! g = Some (mkGuard None) -> Guard_cleanup g nd w = Ok (tt, w).
Proof. intros H. unfold Guard_cleanup, bind. by rewrite (get_guard_ok _ _ _ _ H). Qed.

Lemma Guard_cleanup_pin nd w g p r :
  guards w !! g = Some (mkGuard (Some p)) ->
  heap w !! p = Some r ->
  Guard_cleanup g nd w =
  Ok (tt, mkWorld (<[p := set_word (wrap32 (hold_refCount r - 2)) r]> (heap w))
            (handler w) (<[g := mkGuard None]> (guards w))).
Proof.
  intros Hg Hp. unfold Guard_cleanup, bind. rewrite (get_guard_ok _ _ _ _ Hg). simpl.
  unfold bind. by rewrite (release_ok _ _ _ _ Hp).
Qed.

(** C9, as the code has it.  [GenerationHold::copy] of a null record returns
    null and touches nothing.  Copy construction from an empty guard makes a
    new empty guard and changes no hold record.  Copy assignment from an
    empty guard leaves the target empty; it changes nothing when the target
    was empty already, and otherwise the one word it changes is that of the
    record the target pinned, which loses the target's pin. *)
Theorem copy_of_empty_guard nd w rhs :
  guards w !! rhs = Some (mkGuard None) ->
  copy None nd w = Ok (None, w) /\
  Guard_copy_ctor rhs nd w =
    Ok (length (guards w), set_guards (guards w ++ [mkGuard None]) w) /\
  (forall this,
     guards w !! this = Some (mkGuard None) ->
     Guard_copy_assign this rhs nd w = Ok (tt, w)) /\
  (forall this p r,
     guards w !! this = Some (mkGuard (Some p)) ->
     heap w !! p = Some r ->
     Guard_copy_assign this rhs nd w =
     Ok (tt, mkWorld (<[p := set_word (wrap32 (hold_refCount r - 2)) r]> (heap w))
               (handler w) (<[this := mkGuard None]> (guards w)))).
Proof.
  intros Hrhs. split; [done|]. split; [|split].
  - unfold Guard_copy_ctor, bind. by rewrite (get_guard_ok _ _ _ _ Hrhs).
  - intros this Hthis. unfold Guard_copy_assign.
    destruct (negb (rhs =? this)%nat); [|done].
    unfold bind. rewrite (Guard_cleanup_empty _ _ _ Hthis).
    rewrite (get_guard_ok _ _ _ _ Hrhs). simpl.
    unfold put_guard. rewrite list_insert_id by done. by rewrite world_eta.
  - intros this p r Hthis Hp. unfold Guard_copy_assign.
    destruct (rhs =? this)%nat eqn:E.
    { apply Nat.eqb_eq in E. congruence. }
    apply Nat.eqb_neq in E. simpl.
    unfold bind. rewrite (Guard_cleanup_pin _ _ _ _ _ Hthis Hp).
    unfold get_guard; simpl. rewrite list_lookup_insert_ne by done.
    rewrite Hrhs. simpl. unfold put_guard; simpl.
    by rewrite list_insert_insert_eq.
Qed.

Lemma copy_of_empty_guard_witness :
  Guard_copy_ctor 0 false (set_guards [mkGuard None] fresh) =
  Ok (1%nat, set_guards [mkGuard None; mkGuard None] fresh).
Proof. by apply (copy_of_empty_guard false (set_guards [mkGuard None] fresh) 0%nat). Defined.

(** C9 as stated fails for copy assignment: after [TakeGuard] and a move of
    that guard, guard 0 is empty (moved-from) and guard 1 pins record 0,
    whose word is 2; assigning the empty guard to guard 1 takes the word
    to 0. *)
Lemma copy_assign_from_empty_releases_pin :
  let w := mkWorld [mkHold 2 0 None] (handler fresh) [mkGuard None; mkGuard (Some 0%nat)] in
  history 1 false [TakeGuard; MoveGuard 0] fresh !! 2%nat = Some w /\
  guards w !! 0%nat = Some (mkGuard None) /\
  word w 0 = 2 /\
  exists w', Guard_copy_assign 1 0 false w = Ok (tt, w') /\
             guards w' !! 1%nat = Some (mkGuard None) /\
             word w' 0 = 0.
Proof. repeat split. eexists. by vm_compute. Qed.

(** C10 (self-assignment).  Copy assignment and move assignment of a guard
    to itself return without doing anything: the world after is the world
    before, so the guard pins what it pinned and no word has changed. *)
Theorem guard_self_assignment nd w g :
  Guard_copy_assign g g nd w = Ok (tt, w) /\
  Guard_move_assign g g nd w = Ok (tt, w).
Proof.
  unfold Guard_copy_assign, Guard_move_assign. by rewrite Nat.eqb_refl.
Qed.

(** ** Chains *)

Lemma chain_insert_notin hp a c b p r :
  p ∉ c -> chain hp a c b -> chain (<[p := r]> hp) a c b.
Proof.
  revert a. induction c as [|q c IH]; intros a Hp; simpl; [done|].
  apply not_elem_of_cons in Hp as [Hne Hp].
  intros [-> (rq & Hq & Hc)]. split; [done|].
  exists rq. split; [by rewrite list_lookup_insert_ne|]. by apply IH.
Qed.

Lemma chain_app hp a c1 c2 b :
  chain hp a (c1 ++ c2) b <-> exists m, chain hp a c1 m /\ chain hp m c2 b.
Proof.
  revert a. induction c1 as [|q c1 IH]; intros a; simpl.
  - split; [intros H; by exists a|]. by intros (m & -> & H).
  - split.
    + intros [-> (rq & Hq & Hc)]. apply IH in Hc as (m & H1 & H2).
      exists m. split; [|done]. split; [done|]. by exists rq.
    + intros (m & [-> (rq & Hq & Hc)] & H2). split; [done|].
      exists rq. split; [done|]. apply IH. by exists m.
Qed.

Lemma chain_lt hp a c b p : chain hp a c b -> p ∈ c -> (p < length hp)%nat.
Proof.
  revert a. induction c as [|q c IH]; intros a; simpl.
  - intros _ H. by apply elem_of_nil in H.
  - intros [-> (rq & Hq & Hc)] [->|H]%elem_of_cons.
    + by eapply lookup_lt_Some.
    + by eapply IH.
Qed.

Lemma chain_functional hp a c1 c2 :
  chain hp a c1 None -> chain hp a c2 None -> c1 = c2.
Proof.
  revert a c2. induction c1 as [|q c1 IH]; intros a [|q2 c2]; simpl.
  - done.
  - intros -> [? _]. done.
  - intros [-> _] ?. done.
  - intros [-> (r1 & H1 & Hc1)] [[= <-] (r2 & H2 & Hc2)].
    rewrite H1 in H2. injection H2 as <-. f_equal. by eapply IH.
Qed.

Lemma chain_NoDup hp a c : chain hp a c None -> NoDup c.
Proof.
  revert a. induction c as [|q c IH]; intros a; simpl; [constructor|].
  intros [-> (rq & Hq & Hc)]. constructor; [|by eapply IH].
  intros Hin. apply list_elem_of_split in Hin as (c1 & c2 & ->).
  pose proof Hc as Hc'. apply chain_app in Hc' as (m & _ & Hm).
  pose proof Hm as [-> _].
  assert (Hfull : chain hp (Some q) (q :: c1 ++ q :: c2) None).
  { simpl. split; [done|]. by exists rq. }
  pose proof (chain_functional _ _ _ _ Hfull Hm) as E.
  apply (f_equal length) in E. simpl in E. rewrite length_app in E. simpl in E. lia.
Qed.

Lemma NoDup_bounded_length (c : list nat) (n : nat) :
  NoDup c -> (forall p, p ∈ c -> (p < n)%nat) -> (length c <= n)%nat.
Proof.
  intros Hnd Hlt.
  assert (c ⊆+ seq 0 n) as Hsub.
  { apply NoDup_submseteq; [done|]. intros p Hp. apply elem_of_seq. specialize (Hlt p Hp). lia. }
  apply submseteq_length in Hsub. by rewrite length_seq in Hsub.
Qed.

Lemma chain_length hp a c : chain hp a c None -> (length c <= length hp)%nat.
Proof.
  intros Hc. apply NoDup_bounded_length; [by eapply chain_NoDup|].
  intros p Hp. by eapply chain_lt.
Qed.

Lemma walk_chain hp a c fuel :
  chain hp a c None -> (length c <= fuel)%nat -> walk fuel hp a = c.
Proof.
  revert a fuel. induction c as [|q c IH]; intros a fuel; simpl.
  - intros -> _. by destruct fuel.
  - intros [-> (rq & Hq & Hc)] Hlen. destruct fuel as [|fuel]; [lia|].
    simpl. rewrite Hq. f_equal. apply IH; [done|lia].
Qed.

Lemma live_chain_eq w c :
  chain (heap w) (_first (handler w)) c None -> live_chain w = c.
Proof. intros Hc. apply walk_chain; [done|]. by eapply chain_length. Qed.

(** ** The retirement sweep *)

Lemma retire_ok w p r :
  heap w !! p = Some r ->
  retire p w =
  mkWorld (<[p := mkHold 1 (hold_generation r) (_free (handler w))]> (heap w))
    (mkHandler (_generation (handler w)) (_firstUsedGeneration (handler w))
       (_last (handler w)) (hold_next r) (Some p) (_numHolds (handler w)))
    (guards w).
Proof. intros H. unfold retire. by rewrite H. Qed.

Lemma word_retire_ne w p q : p <> q -> word (retire p w) q = word w q.
Proof.
  intros H. unfold retire. destruct (heap w !! p) eqn:E; [|done].
  unfold word; simpl. by rewrite list_lookup_insert_ne.
Qed.

Lemma sweepable_retire nd w p c l :
  sweepable nd w (p :: c) l -> sweepable nd (retire p w) c l.
Proof.
  intros [Hl Hc Hnd Hin Hv]. simpl in Hc. destruct Hc as [Hf (r & Hp & Hc)].
  simpl in Hnd. apply NoDup_cons in Hnd as [Hp_notin Hnd].
  rewrite (retire_ok _ _ _ Hp).
  split; simpl.
  - done.
  - apply chain_insert_notin; [|done]. intros ?. apply Hp_notin. apply elem_of_app. by left.
  - done.
  - rewrite list_lookup_insert_ne; [done|].
    intros ->. apply Hp_notin. apply elem_of_app. right. by apply list_elem_of_singleton.
  - intros q Hq. specialize (Hv q ltac:(by right)).
    unfold word in *; simpl. rewrite list_lookup_insert_ne; [done|].
    intros ->. apply Hp_notin. apply elem_of_app. by left.
Qed.

Lemma sweep_ok nd c : forall fuel w l,
  (length c < fuel)%nat ->
  sweepable nd w c l ->
  sweep fuel nd w = Ok (tt, sweep_spec c w).
Proof.
  induction c as [|p c IH]; intros fuel w l Hfuel Hsw.
  - destruct fuel as [|fuel]; [simpl in Hfuel; lia|].
    destruct Hsw as [Hl Hc _ _ _]. simpl in Hc.
    simpl. unfold bind at 1. simpl. unfold bind at 1. simpl.
    rewrite Hc, Hl. by rewrite bool_decide_eq_true_2.
  - destruct fuel as [|fuel]; [simpl in Hfuel; lia|].
    pose proof (sweepable_retire _ _ _ _ _ Hsw) as Hsw'.
    destruct Hsw as [Hl Hc Hnd Hin Hv]. simpl in Hc. destruct Hc as [Hf (r & Hp & Hc)].
    assert (p <> l) as Hpl.
    { intros ->. simpl in Hnd. apply NoDup_cons in Hnd as [Hn _]. apply Hn.
      apply elem_of_app. right. by apply list_elem_of_singleton. }
    specialize (Hv p ltac:(by left)). unfold word in Hv. rewrite Hp in Hv.
    simpl sweep. unfold bind at 1. simpl. unfold bind at 1. simpl.
    rewrite Hf, Hl. rewrite bool_decide_eq_false_2 by congruence.
    unfold bind at 1. simpl. unfold bind at 1.
    rewrite (setInvalid_ok _ _ _ _ Hp), Hv.
    simpl sweep_spec. unfold word at 1. rewrite Hp.
    destruct (hold_refCount r =? 0) eqn:Ez; simpl; [|done].
    unfold bind at 1. unfold load_next, bind at 1, get_hold; simpl.
    rewrite list_lookup_insert_eq by (by eapply lookup_lt_Some). simpl.
    assert (hold_next r <> None) as Hnext.
    { destruct c; simpl in Hc; [congruence|]. destruct Hc as [-> _]. done. }
    unfold bind at 1, assert_. rewrite bool_decide_eq_true_2, orb_true_r by done.
    unfold bind at 1. simpl. unfold bind at 1. simpl.
    unfold bind at 1. unfold store_next, bind at 1, get_hold. simpl.
    rewrite list_lookup_insert_eq by (by eapply lookup_lt_Some). simpl.
    unfold bind at 1. simpl.
    rewrite list_insert_insert_eq.
    rewrite <- (IH fuel (retire p w) l); [|simpl in Hfuel; lia|done].
    by rewrite (retire_ok _ _ _ Hp).
Qed.

Lemma retired_kept w c : c = retired w c ++ kept w c.
Proof.
  induction c as [|p c IH]; simpl; [done|].
  destruct (word w p =? 0); simpl; [by f_equal|done].
Qed.

Lemma retired_words w c p : p ∈ retired w c -> word w p = 0.
Proof.
  induction c as [|q c IH]; simpl; [by intros ?%elem_of_nil|].
  destruct (word w q =? 0) eqn:E; [|by intros ?%elem_of_nil].
  intros [->|H]%elem_of_cons; [by apply Z.eqb_eq|by apply IH].
Qed.

Lemma kept_head w c q s : kept w c = q :: s -> word w q <> 0.
Proof.
  induction c as [|p c IH]; simpl; [done|].
  destruct (word w p =? 0) eqn:E; [done|].
  intros [= -> _]. by apply Z.eqb_neq.
Qed.

Lemma retired_ext w w' c :
  (forall p, p ∈ c -> word w' p = word w p) -> retired w' c = retired w c.
Proof.
  induction c as [|p c IH]; intros H; simpl; [done|].
  rewrite (H p) by (by left). rewrite IH; [done|]. intros q Hq. apply H. by right.
Qed.

Lemma kept_ext w w' c :
  (forall p, p ∈ c -> word w' p = word w p) -> kept w' c = kept w c.
Proof.
  induction c as [|p c IH]; intros H; simpl; [done|].
  rewrite (H p) by (by left). rewrite IH; [done|]. intros q Hq. apply H. by right.
Qed.

Lemma chain_ext hp hp' a c b :
  (forall p, p ∈ c -> hp' !! p = hp !! p) -> chain hp a c b -> chain hp' a c b.
Proof.
  revert a. induction c as [|q c IH]; intros a H; simpl; [done|].
  intros [-> (rq & Hq & Hc)]. split; [done|]. exists rq. split.
  - rewrite H; [done|by left].
  - apply IH; [|done]. intros p Hp. apply H. by right.
Qed.

(** The world the sweep ends in. *)
Record swept (w w' : world) (c : list ptr) (l : ptr) : Prop := {
  swept_first : _first (handler w') = head (kept w c ++ [l]);
  swept_last : _last (handler w') = _last (handler w);
  swept_generation : _generation (handler w') = _generation (handler w);
  swept_fug : _firstUsedGeneration (handler w') = _firstUsedGeneration (handler w);
  swept_numHolds : _numHolds (handler w') = _numHolds (handler w);
  swept_guards : guards w' = guards w;
  swept_length : length (heap w') = length (heap w);
  swept_other : forall p, p ∉ retired w c -> heap w' !! p = heap w !! p;
  swept_retired : forall p, p ∈ retired w c -> word w' p = 1 /\ tag w' p = tag w p;
  swept_free : chain (heap w') (_free (handler w')) (rev (retired w c)) (_free (handler w))
}.

Lemma sweep_spec_swept nd c : forall w l,
  sweepable nd w c l -> swept w (sweep_spec c w) c l.
Proof.
  induction c as [|p c IH]; intros w l Hsw.
  - destruct Hsw as [Hl Hc _ _ _]. simpl in Hc. simpl.
    split; simpl; try done. by intros p ?%elem_of_nil.
  - pose proof (sweepable_retire _ _ _ _ _ Hsw) as Hsw'.
    destruct Hsw as [Hl Hc Hnd Hin Hv]. simpl in Hc. destruct Hc as [Hf (r & Hp & Hc)].
    simpl in Hnd. apply NoDup_cons in Hnd as [Hp_notin Hnd].
    assert (p ∉ c) as Hpc by (intros ?; apply Hp_notin, elem_of_app; by left).
    simpl. destruct (word w p =? 0) eqn:Ez.
    2:{ split; simpl; rewrite ?Ez; simpl; try done. by intros q ?%elem_of_nil. }
    specialize (IH _ _ Hsw').
    assert (Hwords : forall q, q ∈ c -> word (retire p w) q = word w q).
    { intros q Hq. apply word_retire_ne. by intros ->. }
    assert (p ∉ retired w c) as HpR.
    { intros H. apply Hpc. rewrite (retired_kept w c). apply elem_of_app. by left. }
    destruct IH as [I1 I2 I3 I4 I5 I6 I7 I8 I9 I10].
    pose proof (retired_ext w (retire p w) c Hwords) as ER.
    pose proof (kept_ext w (retire p w) c Hwords) as EK.
    rewrite EK in I1. rewrite ER in I8, I9, I10. clear ER EK.
    pose proof (retire_ok _ _ _ Hp) as Hret.
    assert (Hheap : heap (retire p w) =
                    <[p := mkHold 1 (hold_generation r) (_free (handler w))]> (heap w))
      by (by rewrite Hret).
    assert (Hfree : _free (handler (retire p w)) = Some p) by (by rewrite Hret).
    assert (Hh : handler (retire p w) =
                 mkHandler (_generation (handler w)) (_firstUsedGeneration (handler w))
                   (_last (handler w)) (hold_next r) (Some p) (_numHolds (handler w)))
      by (by rewrite Hret).
    assert (Hg : guards (retire p w) = guards w) by (by rewrite Hret).
    clear Hret.
    rewrite Hheap in I7, I8. rewrite Hfree in I10. rewrite Hh in I2, I3, I4, I5.
    rewrite Hg in I6. simpl in *.
    split; simpl; rewrite ?Ez; simpl; try done.
    + by rewrite I7, length_insert.
    + intros q Hq. apply not_elem_of_cons in Hq as [Hqp Hq].
      rewrite I8 by done. by rewrite list_lookup_insert_ne.
    + intros q [->|Hq]%elem_of_cons.
      * unfold word, tag. rewrite I8 by done.
        rewrite list_lookup_insert_eq by (by eapply lookup_lt_Some). simpl.
        by rewrite Hp.
      * destruct (I9 q Hq) as [-> ->]. split; [done|].
        unfold tag. rewrite Hheap. rewrite list_lookup_insert_ne; [done|].
        by intros ->.
    + apply chain_app. exists (Some p). split; [done|]. simpl. split; [done|].
      eexists. split.
      { rewrite I8 by done.
        by rewrite list_lookup_insert_eq by (by eapply lookup_lt_Some). }
      reflexivity.
Qed.

Lemma sweepable_length nd w c l : sweepable nd w c l -> (length c < length (heap w))%nat.
Proof.
  intros [Hl Hc Hnd [r Hin] Hv].
  assert (length (c ++ [l]) <= length (heap w))%nat as H.
  { apply NoDup_bounded_length; [done|]. intros p [Hp|Hp]%elem_of_app.
    - by eapply chain_lt.
    - apply list_elem_of_singleton in Hp as ->. by eapply lookup_lt_Some. }
  rewrite length_app in H. simpl in H. lia.
Qed.

Lemma kept_subset w c p : p ∈ kept w c -> p ∈ c.
Proof.
  intros H. rewrite (retired_kept w c). apply elem_of_app. by right.
Qed.

Lemma swept_first_in nd w w' c l :
  sweepable nd w c l -> swept w w' c l ->
  exists q, _first (handler w') = Some q /\ q ∈ kept w c ++ [l] /\
            heap w' !! q = heap w !! q /\ is_Some (heap w !! q).
Proof.
  intros Hsw Hs. pose proof Hsw as [Hl Hc Hnd Hin Hv].
  destruct (kept w c ++ [l]) as [|q s] eqn:E.
  { by destruct (kept w c). }
  exists q. rewrite (swept_first _ _ _ _ Hs), E. split; [done|]. split; [by left|].
  assert (q ∈ kept w c ++ [l]) as Hq by (rewrite E; by left).
  assert (q ∉ retired w c) as HqR.
  { intros HR. rewrite (retired_kept w c), <- (assoc_L (++)) in Hnd.
    apply NoDup_app in Hnd as (_ & Hdis & _). by apply (Hdis q). }
  split; [by apply (swept_other _ _ _ _ Hs)|].
  apply elem_of_app in Hq as [Hq|Hq].
  - apply lookup_lt_is_Some. eapply chain_lt; [done|]. by eapply kept_subset.
  - by apply list_elem_of_singleton in Hq as ->.
Qed.

Lemma updateFirstUsedGeneration_ok nd w c l :
  sweepable nd w c l ->
  updateFirstUsedGeneration nd w = Ok (tt, set_watermark (sweep_spec c w)).
Proof.
  intros Hsw. unfold updateFirstUsedGeneration. unfold bind at 1.
  rewrite (sweep_ok nd c _ w l); [|pose proof (sweepable_length _ _ _ _ Hsw); lia|done].
  pose proof (sweep_spec_swept _ _ _ _ Hsw) as Hs.
  destruct (swept_first_in _ _ _ _ _ Hsw Hs) as (q & Hq & _ & Heq & [r Hr]).
  unfold bind at 1. simpl. rewrite Hq. simpl.
  rewrite <- Heq in Hr.
  unfold bind at 1. simpl.
  unfold bind at 1. rewrite (load_generation_ok _ _ _ _ Hr).
  unfold set_watermark, store_firstUsedGeneration, bind, get_handler, put_handler.
  rewrite Hq. unfold tag. rewrite Hr. reflexivity.
Qed.

Lemma set_watermark_heap w : heap (set_watermark w) = heap w.
Proof. unfold set_watermark. by destruct (_first (handler w)). Qed.

Lemma set_watermark_guards w : guards (set_watermark w) = guards w.
Proof. unfold set_watermark. by destruct (_first (handler w)). Qed.

Lemma set_watermark_handler w q :
  _first (handler w) = Some q ->
  handler (set_watermark w) =
  mkHandler (_generation (handler w)) (tag w q) (_last (handler w))
    (_first (handler w)) (_free (handler w)) (_numHolds (handler w)).
Proof.
  intros H. unfold set_watermark. destruct (_first (handler w)); [|done].
  by injection H as ->.
Qed.

Lemma word_set_watermark w p : word (set_watermark w) p = word w p.
Proof. unfold word. by rewrite set_watermark_heap. Qed.

Lemma tag_set_watermark w p : tag (set_watermark w) p = tag w p.
Proof. unfold tag. by rewrite set_watermark_heap. Qed.

(** C2 (retirement sweep).  On a chain [c ++ [l]] from [first] to [last],
    [updateFirstUsedGeneration] returns, and the world it leaves is the one
    the specification's sweep describes.  The records it retires are the
    longest prefix [retired w c] of the records before [last] whose words
    are 0: each of them now has the word 1 and they sit on the freelist,
    last retired first.  [first] is the record [q] right after them, which
    is [last] or a record on which marking failed; nothing beyond the
    retired records has been touched, and the watermark is the tag of
    [q]. *)
Theorem retirement_sweep nd w c l :
  sweepable nd w c l ->
  exists w' q rest,
    updateFirstUsedGeneration nd w = Ok (tt, w') /\
    w' = set_watermark (sweep_spec c w) /\
    c ++ [l] = retired w c ++ q :: rest /\
    (forall p, p ∈ retired w c -> word w p = 0 /\ word w' p = 1) /\
    (q = l \/ word w q <> 0) /\
    _first (handler w') = Some q /\
    first_used_generation w' = tag w' q /\
    chain (heap w') (_free (handler w')) (rev (retired w c)) (_free (handler w)) /\
    (forall p, p ∉ retired w c -> heap w' !! p = heap w !! p).
Proof.
  intros Hsw.
  pose proof (sweep_spec_swept _ _ _ _ Hsw) as Hs.
  destruct (swept_first_in _ _ _ _ _ Hsw Hs) as (q & Hq & Hqin & Heq & Hsome).
  pose proof (swept_first _ _ _ _ Hs) as Hfirst. rewrite Hq in Hfirst.
  destruct (kept w c ++ [l]) as [|q' rest] eqn:Ek; [done|].
  injection Hfirst as <-.
  exists (set_watermark (sweep_spec c w)), q, rest.
  pose proof (set_watermark_handler _ _ Hq) as Hh.
  split; [by eapply updateFirstUsedGeneration_ok|]. split; [done|].
  split; [by rewrite <- Ek, (assoc_L (++)), <- retired_kept|].
  split.
  { intros p Hp. split; [by eapply retired_words|].
    rewrite word_set_watermark. by apply (swept_retired _ _ _ _ Hs). }
  split.
  { destruct (kept w c) as [|k ks] eqn:E; simpl in Ek.
    - left. congruence.
    - right. injection Ek as <- _. by eapply kept_head. }
  split; [by rewrite Hh|].
  split; [unfold first_used_generation; by rewrite Hh, tag_set_watermark|].
  rewrite set_watermark_heap, Hh. simpl.
  split; [by apply (swept_free _ _ _ _ Hs)|by apply (swept_other _ _ _ _ Hs)].
Qed.

Lemma retirement_sweep_witness :
  let w := mkWorld [mkHold 0 0 (Some 1%nat); mkHold 0 1 None]
             (mkHandler 1 0 (Some 1%nat) (Some 0%nat) None 2) [mkGuard None] in
  exists w', updateFirstUsedGeneration false w = Ok (tt, w') /\
             _first (handler w') = Some 1%nat /\ first_used_generation w' = 1.
Proof.
  intros w.
  destruct (retirement_sweep false w [0%nat] 1%nat) as (w' & q & rest & H1 & H2 & _).
  - split; simpl.
    + done.
    + split; [done|]. eexists. split; [done|]. done.
    + apply (bool_decide_unpack _). by vm_compute.
    + by eexists.
    + intros p ->%list_elem_of_singleton. done.
  - exists w'. split; [done|]. rewrite H2. by vm_compute.
Defined.

(** ** The sweep always returns *)

Lemma zero_count_insert hp p r r' :
  hp !! p = Some r -> hold_refCount r = 0 -> hold_refCount r' <> 0 ->
  (zero_count (<[p := r']> hp) + 1 = zero_count hp)%nat.
Proof.
  unfold zero_count. revert p. induction hp as [|a hp IH]; intros p Hp Hr Hr'; [done|].
  destruct p as [|p]; simpl in *.
  - injection Hp as ->. rewrite !filter_cons.
    rewrite decide_False by done. rewrite decide_True by done. simpl. lia.
  - rewrite !filter_cons. specialize (IH p Hp Hr Hr').
    destruct (decide (hold_refCount a = 0)); simpl; lia.
Qed.

Lemma zero_count_length hp : (zero_count hp <= length hp)%nat.
Proof. apply length_filter. Qed.

Lemma sweep_fuel nd : forall fuel w,
  (zero_count (heap w) < fuel)%nat -> sweep fuel nd w <> Err OutOfFuel.
Proof.
  induction fuel as [|fuel IH]; intros w Hlt; [lia|].
  simpl. unfold bind at 1. simpl. unfold bind at 1. simpl.
  destruct (bool_decide (_first (handler w) = _last (handler w))); [done|].
  unfold bind at 1. destruct (_first (handler w)) as [p|]; [|done]. simpl.
  unfold bind at 1. destruct (heap w !! p) as [r|] eqn:Hp.
  2:{ unfold setInvalid, bind, load_refCount, bind, get_hold. by rewrite Hp. }
  rewrite (setInvalid_ok _ _ _ _ Hp).
  destruct (nd || valid (hold_refCount r)); [|done].
  destruct (hold_refCount r =? 0) eqn:Hz; [|done]. apply Z.eqb_eq in Hz.
  simpl. assert (p < length (heap w))%nat as Hplt by (by eapply lookup_lt_Some).
  unfold bind at 1. unfold load_next, bind at 1, get_hold. simpl.
  rewrite list_lookup_insert_eq by done. simpl.
  unfold bind at 1, assert_. destruct (nd || bool_decide (hold_next r <> None)); [|done].
  unfold bind at 1. simpl. unfold bind at 1. simpl.
  unfold bind at 1. unfold store_next, bind at 1, get_hold. simpl.
  rewrite list_lookup_insert_eq by done. simpl.
  unfold bind at 1. simpl. rewrite list_insert_insert_eq.
  apply IH. simpl.
  pose proof (zero_count_insert (heap w) p r
                (mkHold 1 (hold_generation r) (_free (handler w))) Hp Hz) as E.
  simpl in E. specialize (E ltac:(lia)). lia.
Qed.

(** The bound [updateFirstUsedGeneration] gives its loop is never reached. *)
Lemma sweep_total nd w : sweep (S (length (heap w))) nd w <> Err OutOfFuel.
Proof. apply sweep_fuel. pose proof (zero_count_length (heap w)). lia. Qed.

(** ** getGenerationRefCount *)

Lemma find_hold_ok nd w gen c : forall fuel from,
  chain (heap w) from c None ->
  (length c <= fuel)%nat ->
  find_hold fuel from gen nd w =
  Ok (match List.find (fun p => tag w p =? gen) c with
      | Some p => word w p / 2
      | None => 0
      end, w).
Proof.
  induction c as [|p c IH]; intros fuel from; simpl.
  - intros -> _. by destruct fuel.
  - intros [-> (r & Hp & Hc)] Hlen. destruct fuel as [|fuel]; [lia|].
    simpl. unfold bind at 1. rewrite (load_generation_ok _ _ _ _ Hp).
    unfold tag at 1. rewrite Hp.
    destruct (hold_generation r =? gen).
    + rewrite (getRefCount_ok _ _ _ _ Hp). unfold word. by rewrite Hp.
    + unfold bind at 1. rewrite (load_next_ok _ _ _ _ Hp).
      apply IH; [done|lia].
Qed.

(** C7 (reference count of a generation).  When the chain from [first] ends
    at a null link, [getGenerationRefCount gen] returns, leaves the world
    as it is, and its value is 0 when [gen] is newer than the current
    generation or older than the watermark, both decided by the sign of the
    difference computed in the counter's type; otherwise it is the
    live-reader count of the first record of the live chain whose tag is
    [gen], and 0 when no record has that tag. *)
Theorem getGenerationRefCount_spec nd w gen c :
  chain (heap w) (_first (handler w)) c None ->
  getGenerationRefCount gen nd w = Ok (generation_ref_count w gen, w) /\
  (sdiff gen (generation w) > 0 -> generation_ref_count w gen = 0) /\
  (sdiff (first_used_generation w) gen > 0 -> generation_ref_count w gen = 0) /\
  (sdiff gen (generation w) <= 0 -> sdiff (first_used_generation w) gen <= 0 ->
   generation_ref_count w gen =
   match List.find (fun p => tag w p =? gen) c with
   | Some p => word w p / 2
   | None => 0
   end).
Proof.
  intros Hc. unfold generation_ref_count, chain_ref_count.
  rewrite (live_chain_eq _ _ Hc).
  split; [|split; [|split]].
  - unfold getGenerationRefCount, sdiff, generation, first_used_generation.
    unfold bind at 1. simpl.
    destruct (to_sgeneration (wrap64 (gen - _generation (handler w))) >? 0); [done|].
    unfold bind at 1. simpl.
    destruct (to_sgeneration (wrap64 (_firstUsedGeneration (handler w) - gen)) >? 0); [done|].
    unfold bind at 1. simpl.
    apply find_hold_ok; [done|]. by eapply chain_length.
  - intros H. apply Z.gt_lt, Z.gtb_lt in H. by rewrite H.
  - intros H. apply Z.gt_lt, Z.gtb_lt in H. rewrite H.
    by destruct (sdiff gen (generation w) >? 0).
  - intros H1 H2.
    destruct (sdiff gen (generation w) >? 0) eqn:E1; [apply Z.gtb_lt in E1; lia|].
    destruct (sdiff (first_used_generation w) gen >? 0) eqn:E2; [apply Z.gtb_lt in E2; lia|].
    done.
Qed.

Lemma getGenerationRefCount_spec_witness :
  let w := mkWorld [mkHold 1 0 None; mkHold 4 1 (Some 2%nat); mkHold 0 2 None]
             (mkHandler 2 1 (Some 2%nat) (Some 1%nat) (Some 0%nat) 3)
             [mkGuard (Some 1%nat); mkGuard (Some 1%nat)] in
  getGenerationRefCount 1 false w = Ok (2, w).
Proof.
  intros w.
  apply (getGenerationRefCount_spec false w 1 [1%nat; 2%nat]).
  simpl. split; [done|]. eexists. split; [done|]. simpl.
  split; [done|]. eexists. split; [done|]. done.
Defined.

(** ** incGeneration *)

Lemma incGeneration_morph nd w l r c :
  _last (handler w) = Some l ->
  heap w !! l = Some r ->
  hold_refCount r / 2 = 0 ->
  sweepable nd (morph l r w) c l ->
  incGeneration nd w = Ok (tt, set_watermark (sweep_spec c (morph l r w))).
Proof.
  intros Hl Hr Hz Hsw. unfold incGeneration.
  unfold bind at 1. simpl. unfold bind at 1. simpl. rewrite Hl.
  unfold bind at 1. simpl.
  unfold bind at 1. rewrite (getRefCount_ok _ _ _ _ Hr), Hz. simpl.
  unfold bind at 1. simpl. unfold bind at 1.
  unfold store_generation, bind at 1, get_hold. simpl. rewrite Hr. simpl.
  by rewrite <- (updateFirstUsedGeneration_ok _ _ _ _ Hsw).
Qed.

Lemma incGeneration_link_new nd w l r c :
  _last (handler w) = Some l ->
  _free (handler w) = None ->
  heap w !! l = Some r ->
  hold_refCount r / 2 <> 0 ->
  sweepable nd (link_new l r w) c (length (heap w)) ->
  incGeneration nd w = Ok (tt, set_watermark (sweep_spec c (link_new l r w))).
Proof.
  intros Hl Hf Hr Hz Hsw. unfold incGeneration.
  unfold bind at 1. simpl. unfold bind at 1. simpl. rewrite Hl.
  unfold bind at 1. simpl.
  unfold bind at 1. rewrite (getRefCount_ok _ _ _ _ Hr).
  apply Z.eqb_neq in Hz. rewrite Hz.
  unfold bind at 1. simpl. rewrite Hf.
  unfold bind at 1. simpl.
  unfold bind at 1.
  unfold store_generation, bind at 1, get_hold. simpl.
  rewrite lookup_app_r, Nat.sub_diag by done. simpl.
  unfold bind at 1.
  unfold store_next, bind at 1, get_hold. simpl.
  rewrite list_lookup_insert_eq by (rewrite length_app; simpl; lia). simpl.
  unfold bind at 1.
  unfold setValid, bind at 1, load_refCount, bind at 1, get_hold. simpl.
  rewrite list_insert_insert_eq.
  rewrite list_lookup_insert_eq by (rewrite length_app; simpl; lia). simpl.
  unfold bind at 1, assert_. rewrite orb_true_r.
  unfold bind at 1, fetch_sub, bind at 1, get_hold. simpl.
  rewrite list_lookup_insert_eq by (rewrite length_app; simpl; lia). simpl.
  rewrite list_insert_insert_eq.
  unfold bind at 1, store_next, bind at 1, get_hold. simpl.
  assert (l < length (heap w))%nat as Hlt by (by eapply lookup_lt_Some).
  rewrite list_lookup_insert_ne by lia.
  rewrite lookup_app_l, Hr by done. simpl.
  unfold bind at 1. simpl. unfold bind at 1. simpl.
  rewrite <- (updateFirstUsedGeneration_ok _ _ _ _ Hsw).
  unfold link_new. rewrite Hf. do 3 f_equal.
  rewrite insert_app_r_alt, Nat.sub_diag by done. done.
Qed.

Lemma incGeneration_link_free nd w l r f rf c :
  _last (handler w) = Some l ->
  _free (handler w) = Some f ->
  heap w !! l = Some r ->
  heap w !! f = Some rf ->
  l <> f ->
  hold_refCount r / 2 <> 0 ->
  nd || negb (valid (hold_refCount rf)) = true ->
  sweepable nd (link_free l r f rf w) c f ->
  incGeneration nd w = Ok (tt, set_watermark (sweep_spec c (link_free l r f rf w))).
Proof.
  intros Hl Hf Hr Hrf Hne Hz Hv Hsw. unfold incGeneration.
  assert (f < length (heap w))%nat as Hflt by (by eapply lookup_lt_Some).
  unfold bind at 1. simpl. unfold bind at 1. simpl. rewrite Hl.
  unfold bind at 1. simpl.
  unfold bind at 1. rewrite (getRefCount_ok _ _ _ _ Hr).
  apply Z.eqb_neq in Hz. rewrite Hz.
  unfold bind at 1. simpl. rewrite Hf.
  unfold bind at 1. unfold bind at 1. rewrite (load_next_ok _ _ _ _ Hrf).
  unfold bind at 1. simpl.
  unfold bind at 1.
  unfold store_generation, bind at 1, get_hold. simpl. rewrite Hrf. simpl.
  unfold bind at 1.
  unfold store_next, bind at 1, get_hold. simpl.
  rewrite list_lookup_insert_eq by done. simpl.
  unfold bind at 1.
  unfold setValid, bind at 1, load_refCount, bind at 1, get_hold. simpl.
  rewrite list_insert_insert_eq.
  rewrite list_lookup_insert_eq by done. simpl.
  unfold bind at 1, assert_. rewrite Hv.
  unfold bind at 1, fetch_sub, bind at 1, get_hold. simpl.
  rewrite list_lookup_insert_eq by done. simpl.
  rewrite list_insert_insert_eq.
  unfold bind at 1, store_next, bind at 1, get_hold. simpl.
  rewrite list_lookup_insert_ne by done. rewrite Hr. simpl.
  unfold bind at 1. simpl. unfold bind at 1. simpl.
  by rewrite <- (updateFirstUsedGeneration_ok _ _ _ _ Hsw).
Qed.

(** ** Well-formed worlds are kept well-formed *)

Lemma chain_next_ext hp hp' a c b :
  (forall p, p ∈ c -> hold_next <$> hp' !! p = hold_next <$> hp !! p) ->
  chain hp a c b -> chain hp' a c b.
Proof.
  revert a. induction c as [|q c IH]; intros a H; simpl; [done|].
  intros [-> (rq & Hq & Hc)]. split; [done|].
  pose proof (H q ltac:(by left)) as Hn. rewrite Hq in Hn. simpl in Hn.
  destruct (hp' !! q) as [rq'|] eqn:E; [|done]. simpl in Hn. injection Hn as Hn.
  exists rq'. split; [done|]. rewrite Hn. apply IH; [|done].
  intros p Hp. apply H. by right.
Qed.

Lemma chain_head hp a p c b : chain hp a (p :: c) b -> a = Some p.
Proof. by intros [-> _]. Qed.

Lemma wf_last_record w c l fl :
  wf_at w c l fl ->
  chain (heap w) (_first (handler w)) c (Some l) /\
  exists r, heap w !! l = Some r /\ hold_next r = None.
Proof.
  intros Hwf. pose proof (wf_live _ _ _ _ Hwf) as H.
  apply chain_app in H as (m & H1 & H2). pose proof H2 as [-> (r & Hr & Hn)].
  simpl in Hn. split; [done|]. by exists r.
Qed.

Lemma wf_nodup_live w c l fl : wf_at w c l fl -> NoDup (c ++ [l]).
Proof.
  intros Hwf. pose proof (wf_nodup _ _ _ _ Hwf) as H.
  replace (c ++ l :: fl) with ((c ++ [l]) ++ fl) in H by (by rewrite <- (assoc_L (++))).
  by apply NoDup_app in H as (H & _).
Qed.

Lemma wf_sweepable nd w c l fl : wf_at w c l fl -> sweepable nd w c l.
Proof.
  intros Hwf. destruct (wf_last_record _ _ _ _ Hwf) as (Hc & r & Hr & _).
  split.
  - by apply (wf_last _ _ _ _ Hwf).
  - done.
  - by eapply wf_nodup_live.
  - by exists r.
  - intros p Hp. rewrite (wf_valid _ _ _ _ Hwf); [by rewrite orb_true_r|].
    apply elem_of_app. by left.
Qed.

Lemma sweep_perm w c l fl :
  kept w c ++ l :: rev (retired w c) ++ fl ≡ₚ c ++ l :: fl.
Proof.
  rewrite (retired_kept w c) at 3.
  rewrite <- (Permutation_rev (retired w c)).
  generalize (retired w c) (kept w c). intros R K.
  solve_Permutation.
Qed.

Lemma sweep_wf w c l fl :
  wf_at w c l fl ->
  wf_at (set_watermark (sweep_spec c w)) (kept w c) l (rev (retired w c) ++ fl).
Proof.
  intros Hwf. pose proof (wf_sweepable false _ _ _ _ Hwf) as Hsw.
  pose proof (sweep_spec_swept _ _ _ _ Hsw) as Hs.
  destruct (swept_first_in _ _ _ _ _ Hsw Hs) as (q & Hq & _).
  pose proof (set_watermark_handler _ _ Hq) as Hh.
  pose proof (wf_nodup _ _ _ _ Hwf) as Hnd.
  assert (Hdis : forall p, p ∈ retired w c -> p ∈ kept w c ++ l :: fl -> False).
  { rewrite (retired_kept w c), <- (assoc_L (++)) in Hnd.
    apply NoDup_app in Hnd as (_ & Hdis & _). done. }
  assert (Hsame : forall p, p ∈ kept w c ++ l :: fl ->
            heap (sweep_spec c w) !! p = heap w !! p).
  { intros p Hp. apply (swept_other _ _ _ _ Hs). intros HR. by eapply Hdis. }
  split.
  - rewrite Hh. simpl. rewrite (swept_last _ _ _ _ Hs). by apply (wf_last _ _ _ _ Hwf).
  - rewrite Hh, set_watermark_heap. simpl. rewrite (swept_first _ _ _ _ Hs).
    pose proof (wf_live _ _ _ _ Hwf) as Hlive.
    rewrite (retired_kept w c), <- (assoc_L (++)) in Hlive.
    apply chain_app in Hlive as (m & _ & Hk).
    assert (m = head (kept w c ++ [l])) as ->.
    { destruct (kept w c ++ [l]) eqn:E; [by destruct (kept w c)|].
      simpl. by eapply chain_head. }
    eapply chain_ext; [|done]. intros p Hp. apply Hsame.
    apply elem_of_app in Hp as [Hp|Hp]; apply elem_of_app; [by left|right].
    apply list_elem_of_singleton in Hp as ->. by left.
  - rewrite Hh, set_watermark_heap. simpl. apply chain_app.
    exists (_free (handler w)). split; [by apply (swept_free _ _ _ _ Hs)|].
    eapply chain_ext; [|by apply (wf_free _ _ _ _ Hwf)].
    intros p Hp. apply Hsame. apply elem_of_app. right. by right.
  - by rewrite sweep_perm.
  - intros p Hp. rewrite sweep_perm. apply (wf_cover _ _ _ _ Hwf).
    by rewrite set_watermark_heap, (swept_length _ _ _ _ Hs) in Hp.
  - intros p Hp. rewrite word_set_watermark. unfold word. rewrite Hsame.
    + apply (wf_valid _ _ _ _ Hwf). rewrite (retired_kept w c), <- (assoc_L (++)).
      apply elem_of_app. by right.
    + apply elem_of_app in Hp as [Hp|Hp]; apply elem_of_app; [by left|right].
      apply list_elem_of_singleton in Hp as ->. by left.
  - intros p Hp. rewrite word_set_watermark.
    apply elem_of_app in Hp as [Hp|Hp].
    + apply list_elem_of_In in Hp. apply in_rev in Hp. apply list_elem_of_In in Hp.
      by destruct (swept_retired _ _ _ _ Hs p Hp) as [-> _].
    + unfold word. rewrite Hsame.
      * by apply (wf_invalid _ _ _ _ Hwf).
      * apply elem_of_app. right. by right.
Qed.

Lemma morph_wf w c l fl r :
  wf_at w c l fl -> heap w !! l = Some r -> wf_at (morph l r w) c l fl.
Proof.
  intros Hwf Hr.
  assert (Hnext : forall p, hold_next <$> heap (morph l r w) !! p = hold_next <$> heap w !! p).
  { intros p. simpl. destruct (decide (l = p)) as [<-|Hne].
    - rewrite list_lookup_insert_eq by (by eapply lookup_lt_Some). by rewrite Hr.
    - by rewrite list_lookup_insert_ne. }
  assert (Hword : forall p, word (morph l r w) p = word w p).
  { intros p. unfold word. simpl. destruct (decide (l = p)) as [<-|Hne].
    - rewrite list_lookup_insert_eq by (by eapply lookup_lt_Some). by rewrite Hr.
    - by rewrite list_lookup_insert_ne. }
  destruct Hwf as [H1 H2 H3 H4 H5 H6 H7]. split; simpl; try done.
  - eapply chain_next_ext; [|done]. intros p _. apply Hnext.
  - eapply chain_next_ext; [|done]. intros p _. apply Hnext.
  - intros p Hp. apply H5. by rewrite length_insert in Hp.
  - intros p Hp. rewrite Hword. by apply H6.
  - intros p Hp. rewrite Hword. by apply H7.
Qed.

Lemma link_new_wf w c l r :
  wf_at w c l [] -> heap w !! l = Some r ->
  wf_at (link_new l r w) (c ++ [l]) (length (heap w)) [].
Proof.
  intros Hwf Hr. destruct (wf_last_record _ _ _ _ Hwf) as (Hc & r' & Hr' & Hnone).
  rewrite Hr in Hr'. injection Hr' as <-.
  pose proof (wf_nodup_live _ _ _ _ Hwf) as Hnd.
  assert (l < length (heap w))%nat as Hlt by (by eapply lookup_lt_Some).
  assert (Hbound : forall p, p ∈ c ++ [l] -> (p < length (heap w))%nat).
  { intros p [Hp| ->%list_elem_of_singleton]%elem_of_app; [by eapply chain_lt|done]. }
  assert (Hold : forall p, p ∈ c -> heap (link_new l r w) !! p = heap w !! p).
  { intros p Hp. simpl. rewrite list_lookup_insert_ne.
    - rewrite lookup_app_l; [done|]. apply Hbound, elem_of_app. by left.
    - intros <-. apply NoDup_app in Hnd as (_ & Hd & _). apply (Hd l Hp).
      by apply list_elem_of_singleton. }
  assert (Hl' : heap (link_new l r w) !! l =
                Some (mkHold (hold_refCount r) (hold_generation r) (Some (length (heap w))))).
  { simpl. apply list_lookup_insert_eq. rewrite length_app. simpl. lia. }
  assert (Hn' : heap (link_new l r w) !! length (heap w) =
                Some (mkHold 0 (wrap64 (_generation (handler w) + 1)) None)).
  { simpl. rewrite list_lookup_insert_ne by lia.
    by rewrite lookup_app_r, Nat.sub_diag by done. }
  split.
  - done.
  - rewrite <- (assoc_L (++)). apply chain_app. exists (Some l). split.
    + eapply chain_ext; [|exact Hc]. intros p Hp. by apply Hold.
    + simpl. split; [done|]. eexists. split; [exact Hl'|]. simpl.
      split; [done|]. eexists. split; [exact Hn'|]. done.
  - done.
  - rewrite <- (assoc_L (++)). simpl.
    replace (c ++ [l; length (heap w)]) with ((c ++ [l]) ++ [length (heap w)])
      by (by rewrite <- (assoc_L (++))).
    apply NoDup_app. split; [done|]. split; [|apply NoDup_singleton].
    intros p Hp ->%list_elem_of_singleton. specialize (Hbound _ Hp). lia.
  - intros p Hp. simpl in Hp. rewrite length_insert, length_app in Hp. simpl in Hp.
    destruct (decide (p = length (heap w))) as [->|Hne].
    + apply elem_of_app. right. by left.
    + apply elem_of_app. left.
      pose proof (wf_cover _ _ _ _ Hwf p ltac:(lia)) as Hin.
      apply elem_of_app in Hin as [Hin|Hin]; apply elem_of_app; [by left|right].
      apply elem_of_cons in Hin as [->|Hin]; [by left|by apply elem_of_nil in Hin].
  - intros p Hp. apply elem_of_app in Hp as [Hp| ->%list_elem_of_singleton].
    + pose proof (wf_valid _ _ _ _ Hwf p Hp) as Hv.
      apply elem_of_app in Hp as [Hp| ->%list_elem_of_singleton].
      * unfold word in *. by rewrite Hold.
      * unfold word in *. rewrite Hl'. by rewrite Hr in Hv.
    + unfold word. by rewrite Hn'.
  - by intros p ?%elem_of_nil.
Qed.

Lemma link_free_wf w c l r f rf fl :
  wf_at w c l (f :: fl) -> heap w !! l = Some r -> heap w !! f = Some rf ->
  wf_at (link_free l r f rf w) (c ++ [l]) f fl.
Proof.
  intros Hwf Hr Hrf. destruct (wf_last_record _ _ _ _ Hwf) as (Hc & r' & Hr' & Hnone).
  rewrite Hr in Hr'. injection Hr' as <-.
  pose proof (wf_nodup _ _ _ _ Hwf) as Hnd.
  assert (l < length (heap w))%nat as Hlt by (by eapply lookup_lt_Some).
  assert (f < length (heap w))%nat as Hflt by (by eapply lookup_lt_Some).
  apply NoDup_app in Hnd as (Hndc & Hdis & Hndl).
  apply NoDup_cons in Hndl as [Hl_notin Hndf].
  apply NoDup_cons in Hndf as [Hf_notin Hndf].
  assert (l <> f) as Hlf by (intros ->; apply Hl_notin; by left).
  assert (Hold : forall p, p <> l -> p <> f -> heap (link_free l r f rf w) !! p = heap w !! p).
  { intros p H1 H2. simpl. by rewrite !list_lookup_insert_ne. }
  assert (Hl' : heap (link_free l r f rf w) !! l =
                Some (mkHold (hold_refCount r) (hold_generation r) (Some f))).
  { simpl. apply list_lookup_insert_eq. by rewrite length_insert. }
  assert (Hf' : heap (link_free l r f rf w) !! f =
                Some (mkHold (wrap32 (hold_refCount rf - 1))
                        (wrap64 (_generation (handler w) + 1)) None)).
  { simpl. rewrite list_lookup_insert_ne by done. by apply list_lookup_insert_eq. }
  pose proof (wf_free _ _ _ _ Hwf) as Hfree. simpl in Hfree.
  destruct Hfree as [Hfr (rf' & Hrf' & Hfree)]. rewrite Hrf in Hrf'. injection Hrf' as <-.
  split.
  - done.
  - rewrite <- (assoc_L (++)). apply chain_app. exists (Some l). split.
    + eapply chain_ext; [|exact Hc]. intros p Hp. apply Hold.
      * intros ->. apply (Hdis l Hp). by left.
      * intros ->. apply (Hdis f Hp). right. by left.
    + simpl. split; [done|]. eexists. split; [exact Hl'|]. simpl.
      split; [done|]. eexists. split; [exact Hf'|]. done.
  - simpl. eapply chain_ext; [|exact Hfree]. intros p Hp. apply (Hold p).
    + intros ->. apply Hl_notin. by right.
    + by intros ->.
  - rewrite <- (assoc_L (++)). simpl. apply NoDup_app. split; [done|]. split; [done|].
    apply NoDup_cons. split; [done|]. by apply NoDup_cons.
  - intros p Hp. simpl in Hp. rewrite !length_insert in Hp.
    rewrite <- (assoc_L (++)). simpl. by apply (wf_cover _ _ _ _ Hwf).
  - intros p Hp. apply elem_of_app in Hp as [Hp| ->%list_elem_of_singleton].
    + pose proof (wf_valid _ _ _ _ Hwf p Hp) as Hv.
      apply elem_of_app in Hp as [Hp| ->%list_elem_of_singleton].
      * unfold word in *. rewrite Hold; [done| |].
        -- intros ->. apply (Hdis l Hp). by left.
        -- intros ->. apply (Hdis f Hp). right. by left.
      * unfold word in *. rewrite Hl'. by rewrite Hr in Hv.
    + unfold word. rewrite Hf'. simpl. rewrite valid_sub1.
      pose proof (wf_invalid _ _ _ _ Hwf f ltac:(by left)) as Hv.
      unfold word in Hv. rewrite Hrf in Hv. by rewrite Hv.
  - intros p Hp. pose proof (wf_invalid _ _ _ _ Hwf p ltac:(by right)) as Hv.
    unfold word in *. rewrite Hold; [done| |].
    + intros ->. apply Hl_notin. by right.
    + by intros ->.
Qed.

Lemma incGeneration_wf nd w c l fl :
  wf_at w c l fl ->
  exists w1 c1 l1 fl1,
    advance_case w c l fl w1 c1 l1 fl1 /\
    wf_at w1 c1 l1 fl1 /\
    incGeneration nd w = Ok (tt, set_watermark (sweep_spec c1 w1)).
Proof.
  intros Hwf. destruct (wf_last_record _ _ _ _ Hwf) as (Hc & r & Hr & Hnone).
  pose proof (wf_last _ _ _ _ Hwf) as Hl.
  destruct (decide (hold_refCount r / 2 = 0)) as [Hz|Hz].
  - pose proof (morph_wf _ _ _ _ _ Hwf Hr) as Hwf1.
    exists (morph l r w), c, l, fl. split; [by eapply adv_morph|]. split; [done|].
    apply incGeneration_morph; [done..|]. by eapply wf_sweepable.
  - pose proof (wf_free _ _ _ _ Hwf) as Hfree.
    destruct fl as [|f fl].
    + simpl in Hfree.
      pose proof (link_new_wf _ _ _ _ Hwf Hr) as Hwf1.
      exists (link_new l r w), (c ++ [l]), (length (heap w)), [].
      split; [by eapply adv_new|]. split; [done|].
      apply incGeneration_link_new; [done..|]. by eapply wf_sweepable.
    + simpl in Hfree. destruct Hfree as [Hf (rf & Hrf & _)].
      pose proof (link_free_wf _ _ _ _ _ _ _ Hwf Hr Hrf) as Hwf1.
      exists (link_free l r f rf w), (c ++ [l]), f, fl.
      split; [by eapply adv_free|]. split; [done|].
      apply incGeneration_link_free; [done..| | | |by eapply wf_sweepable].
      * intros ->. pose proof (wf_nodup _ _ _ _ Hwf) as Hnd.
        apply NoDup_app in Hnd as (_ & _ & Hnd). apply NoDup_cons in Hnd as [Hn _].
        apply Hn. by left.
      * done.
      * pose proof (wf_invalid _ _ _ _ Hwf f ltac:(by left)) as Hv.
        unfold word in Hv. rewrite Hrf in Hv. rewrite Hv. by rewrite orb_true_r.
Qed.

(** ** The morph path *)

Lemma fresh_wf : wf_at fresh [] 0%nat [].
Proof.
  split; simpl.
  - done.
  - split; [done|]. eexists. split; [done|]. done.
  - done.
  - apply NoDup_singleton.
  - intros p Hp. assert (p = 0%nat) as -> by lia. by left.
  - by intros p ->%list_elem_of_singleton.
  - by intros p ?%elem_of_nil.
Qed.

Lemma wf_live_chain w c l fl : wf_at w c l fl -> live_chain w = c ++ [l].
Proof. intros Hwf. apply live_chain_eq. by apply (wf_live _ _ _ _ Hwf). Qed.

Lemma sweep_generation w c l fl :
  wf_at w c l fl -> generation (set_watermark (sweep_spec c w)) = generation w.
Proof.
  intros Hwf. pose proof (wf_sweepable false _ _ _ _ Hwf) as Hsw.
  pose proof (sweep_spec_swept _ _ _ _ Hsw) as Hs.
  destruct (swept_first_in _ _ _ _ _ Hsw Hs) as (q & Hq & _).
  unfold generation. rewrite (set_watermark_handler _ _ Hq). simpl.
  by apply (swept_generation _ _ _ _ Hs).
Qed.

(** C4, as the code has it.  When [incGeneration] is called on a
    well-formed world whose last record has no live reader, it returns, the
    generation counter has gone up by one in its 64-bit type, and the live
    chain has not grown: the chain after the call is what is left of the
    chain before it once a first stretch [R] of records without readers has
    been retired.  The chain can therefore be shorter than before. *)
Theorem morph_no_growth nd w :
  well_formed w ->
  last_ref_count w = 0 ->
  exists w' R,
    incGeneration nd w = Ok (tt, w') /\
    generation w' = wrap64 (generation w + 1) /\
    live_chain w = R ++ live_chain w' /\
    (forall p, p ∈ R -> word w p = 0) /\
    (length (live_chain w') <= length (live_chain w))%nat.
Proof.
  intros (c & l & fl & Hwf) Hz.
  unfold last_ref_count in Hz. rewrite (wf_last _ _ _ _ Hwf) in Hz.
  destruct (incGeneration_wf nd _ _ _ _ Hwf) as (w1 & c1 & l1 & fl1 & Hcase & Hwf1 & Hinc).
  destruct Hcase as [r Hr Hr0|r Hr Hr0 _|r f rf fl' Hr Hr0 _ _];
    unfold word in Hz; rewrite Hr in Hz; try done.
  pose proof (sweep_wf _ _ _ _ Hwf1) as Hwf'.
  exists (set_watermark (sweep_spec c (morph l r w))), (retired (morph l r w) c).
  split; [done|].
  rewrite (wf_live_chain _ _ _ _ Hwf), (wf_live_chain _ _ _ _ Hwf').
  split; [by rewrite (sweep_generation _ _ _ _ Hwf1)|].
  split; [by rewrite (assoc_L (++)), <- retired_kept|].
  split.
  - intros p Hp. pose proof (retired_words _ _ _ Hp) as Hw.
    unfold word in *. simpl in Hw.
    destruct (decide (l = p)) as [<-|Hne].
    + rewrite list_lookup_insert_eq in Hw by (by eapply lookup_lt_Some).
      by rewrite Hr.
    + by rewrite list_lookup_insert_ne in Hw.
  - rewrite (retired_kept (morph l r w) c) at 2. rewrite !length_app. lia.
Qed.

Lemma morph_no_growth_witness :
  exists w', incGeneration false fresh = Ok (tt, w') /\ generation w' = 1.
Proof.
  destruct (morph_no_growth false fresh) as (w' & R & H1 & H2 & _).
  - exists [], 0%nat, []. apply fresh_wf.
  - reflexivity.
  - exists w'. split; [done|]. rewrite H2. reflexivity.
Defined.

(** C4 as stated fails: after [TakeGuard], [Advance] and the release of the
    guard, the last record has no reader and the live chain has two
    records; the next [Advance] morphs the last record and its sweep retires
    the other one, so the chain has one record left. *)
Lemma morph_shrinks_chain :
  let w := mkWorld [mkHold 0 0 (Some 1%nat); mkHold 0 1 None]
             (mkHandler 1 0 (Some 1%nat) (Some 0%nat) None 2) [mkGuard None] in
  history 1 false [TakeGuard; Advance; DropGuard 0] fresh !! 3%nat = Some w /\
  last_ref_count w = 0 /\
  length (live_chain w) = 2%nat /\
  exists w', incGeneration false w = Ok (tt, w') /\
             generation w' = 2 /\
             length (live_chain w') = 1%nat.
Proof. repeat split. eexists. by vm_compute. Qed.

(** ** Guard operations keep the shape of the world *)

Lemma same_shape_refl w : same_shape w w.
Proof. by split. Qed.

Lemma same_shape_trans w1 w2 w3 :
  same_shape w1 w2 -> same_shape w2 w3 -> same_shape w1 w3.
Proof.
  intros [A1 A2 A3 A4 A5] [B1 B2 B3 B4 B5]. split; intros; congruence.
Qed.

Lemma sp_ret {A} (a : A) : shape_preserving (ret a).
Proof. intros nd w a' w' [= _ <-]. apply same_shape_refl. Qed.

Lemma sp_fail {A} e : shape_preserving (@fail A e).
Proof. by intros nd w a w'. Qed.

Lemma sp_bind {A B} (m : M A) (f : A -> M B) :
  shape_preserving m -> (forall a, shape_preserving (f a)) ->
  shape_preserving (bind m f).
Proof.
  intros Hm Hf nd w b w'. unfold bind.
  destruct (m nd w) as [[a w1]|] eqn:E; [|done].
  intros H. eapply same_shape_trans; [by eapply Hm|by eapply Hf].
Qed.

Lemma sp_assert b : shape_preserving (assert_ b).
Proof.
  intros nd w a w'. unfold assert_. destruct (nd || b); [|done].
  intros [= _ <-]. apply same_shape_refl.
Qed.

Lemma sp_deref p : shape_preserving (deref p).
Proof. destruct p; [apply sp_ret|apply sp_fail]. Qed.

Lemma sp_get_hold p : shape_preserving (get_hold p).
Proof.
  intros nd w a w'. unfold get_hold. destruct (heap w !! p); [|done].
  intros [= _ <-]. apply same_shape_refl.
Qed.

Lemma sp_get_handler : shape_preserving get_handler.
Proof. intros nd w a w' [= _ <-]. apply same_shape_refl. Qed.

Lemma sp_get_guard g : shape_preserving (get_guard g).
Proof.
  intros nd w a w'. unfold get_guard. destruct (guards w !! g); [|done].
  intros [= _ <-]. apply same_shape_refl.
Qed.

Lemma sp_put_guard g x : shape_preserving (put_guard g x).
Proof. intros nd w a w' [= _ <-]. by split. Qed.

Lemma sp_alloc_guard x : shape_preserving (alloc_guard x).
Proof. intros nd w a w' [= _ <-]. by split. Qed.

Lemma sp_has_guard g : shape_preserving (has_guard g).
Proof. intros nd w a w' [= _ <-]. apply same_shape_refl. Qed.

Lemma same_shape_set_word w p r z :
  heap w !! p = Some r ->
  valid z = valid (hold_refCount r) ->
  same_shape w (mkWorld (<[p := set_word z r]> (heap w)) (handler w) (guards w)).
Proof.
  intros Hp Hz.
  assert (p < length (heap w))%nat as Hlt by (by eapply lookup_lt_Some).
  split; simpl.
  - done.
  - by rewrite length_insert.
  - intros q. unfold tag; simpl. destruct (decide (p = q)) as [<-|Hne].
    + rewrite list_lookup_insert_eq by done. by rewrite Hp.
    + by rewrite list_lookup_insert_ne.
  - intros q. unfold word; simpl. destruct (decide (p = q)) as [<-|Hne].
    + rewrite list_lookup_insert_eq by done. by rewrite Hp.
    + by rewrite list_lookup_insert_ne.
  - intros q. destruct (decide (p = q)) as [<-|Hne].
    + rewrite list_lookup_insert_eq by done. by rewrite Hp.
    + by rewrite list_lookup_insert_ne.
Qed.

Lemma sp_fetch_add2 p : shape_preserving (fetch_add p 2).
Proof.
  intros nd w a w'. unfold fetch_add, bind, get_hold, put_hold.
  destruct (heap w !! p) as [r|] eqn:E; [|done]. intros [= _ <-].
  apply (same_shape_set_word w p r); [done|apply valid_add2].
Qed.

Lemma sp_fetch_sub2 p : shape_preserving (fetch_sub p 2).
Proof.
  intros nd w a w'. unfold fetch_sub, bind, get_hold, put_hold.
  destruct (heap w !! p) as [r|] eqn:E; [|done]. intros [= _ <-].
  apply (same_shape_set_word w p r); [done|apply valid_sub2].
Qed.

Create HintDb shape.
#[local] Hint Resolve sp_ret sp_fail sp_assert sp_deref sp_get_hold sp_get_handler
  sp_get_guard sp_put_guard sp_alloc_guard sp_has_guard sp_fetch_add2
  sp_fetch_sub2 : shape.

Ltac shape :=
  repeat first
    [ solve [auto with shape]
    | apply sp_bind; [|intros ?]
    | match goal with
      | |- shape_preserving (if ?b then _ else _) => destruct b
      | |- shape_preserving (match ?x with _ => _ end) => destruct x
      end ].

Lemma sp_release p : shape_preserving (release p).
Proof. unfold release. shape. Qed.

#[local] Hint Resolve sp_release : shape.

Lemma sp_acquire p : shape_preserving (acquire p).
Proof. unfold acquire. shape. Qed.

#[local] Hint Resolve sp_acquire : shape.

Lemma sp_copy p : shape_preserving (copy p).
Proof. unfold copy. shape. Qed.

#[local] Hint Resolve sp_copy : shape.

Lemma sp_Guard_from_hold p : shape_preserving (Guard_from_hold p).
Proof. unfold Guard_from_hold. shape. Qed.

#[local] Hint Resolve sp_Guard_from_hold : shape.

Lemma sp_Guard_cleanup g : shape_preserving (Guard_cleanup g).
Proof. unfold Guard_cleanup. shape. Qed.

#[local] Hint Resolve sp_Guard_cleanup : shape.

Lemma sp_Guard_valid g : shape_preserving (Guard_valid g).
Proof. unfold Guard_valid. shape. Qed.

#[local] Hint Resolve sp_Guard_valid : shape.

Lemma sp_Guard_copy_ctor g : shape_preserving (Guard_copy_ctor g).
Proof. unfold Guard_copy_ctor. shape. Qed.

#[local] Hint Resolve sp_Guard_copy_ctor : shape.

Lemma sp_Guard_move_ctor g : shape_preserving (Guard_move_ctor g).
Proof. unfold Guard_move_ctor. shape. Qed.

#[local] Hint Resolve sp_Guard_move_ctor : shape.

Lemma sp_Guard_copy_assign g rhs : shape_preserving (Guard_copy_assign g rhs).
Proof. unfold Guard_copy_assign. shape. Qed.

#[local] Hint Resolve sp_Guard_copy_assign : shape.

Lemma sp_Guard_move_assign g rhs : shape_preserving (Guard_move_assign g rhs).
Proof. unfold Guard_move_assign. shape. Qed.

#[local] Hint Resolve sp_Guard_move_assign : shape.

Lemma sp_load_last : shape_preserving load_last.
Proof. unfold load_last. shape. Qed.

#[local] Hint Resolve sp_load_last : shape.

Lemma sp_takeGuard_retry fuel g : shape_preserving (takeGuard_retry fuel g).
Proof.
  induction fuel as [|fuel IH]; simpl; unfold Guard_dtor; shape.
Qed.

#[local] Hint Resolve sp_takeGuard_retry : shape.

Lemma sp_takeGuard fuel : shape_preserving (takeGuard fuel).
Proof.
  unfold takeGuard. shape.
Qed.

#[local] Hint Resolve sp_takeGuard : shape.

Lemma sp_step fuel o : o <> Advance -> shape_preserving (step fuel o).
Proof.
  intros Ho. destruct o; try done; unfold step, when_guard, Guard_dtor; shape.
Qed.

(** ** The invariant of the chain *)

Lemma head_snoc (c : list nat) l : head (c ++ [l]) = Some (hd l c).
Proof. by destruct c. Qed.

Lemma hd_in (c : list nat) l : hd l c ∈ c ++ [l].
Proof. destruct c; simpl; by left. Qed.

Lemma StronglySorted_impl_in {A} (R R' : A -> A -> Prop) l :
  (forall x y, x ∈ l -> y ∈ l -> R x y -> R' x y) ->
  StronglySorted R l -> StronglySorted R' l.
Proof.
  induction l as [|a l IH]; intros H; [constructor|].
  rewrite !StronglySorted_cons. intros [Hall Hs]. split.
  - rewrite Forall_forall in *. intros y Hy. apply H; [by left|by right|by apply Hall].
  - apply IH; [|done]. intros x y Hx Hy. apply H; by right.
Qed.

Lemma sorted_head_le w c l p :
  StronglySorted (older w) (c ++ [l]) -> p ∈ c ++ [l] -> tag w (hd l c) <= tag w p.
Proof.
  destruct c as [|q c]; simpl.
  - intros _ ->%list_elem_of_singleton. lia.
  - rewrite StronglySorted_cons, Forall_forall. intros [Hall _] [->|Hp]%elem_of_cons; [lia|].
    specialize (Hall p Hp). unfold older in Hall. lia.
Qed.

Lemma sorted_le_last w c l p :
  StronglySorted (older w) (c ++ [l]) -> p ∈ c ++ [l] -> tag w p <= tag w l.
Proof.
  intros Hs [Hp| ->%list_elem_of_singleton]%elem_of_app; [|lia].
  pose proof (StronglySorted_app_1_elem_of _ _ _ p l Hs Hp ltac:(by left)) as H.
  unfold older in H. lia.
Qed.

Lemma same_shape_wf w w' c l fl :
  same_shape w w' -> wf_at w c l fl -> wf_at w' c l fl.
Proof.
  intros [S1 S2 S3 S4 S5] [H1 H2 H3 H4 H5 H6 H7]. split.
  - by rewrite S1.
  - rewrite S1. eapply chain_next_ext; [|exact H2]. intros p _. apply S5.
  - rewrite S1. eapply chain_next_ext; [|exact H3]. intros p _. apply S5.
  - done.
  - intros p Hp. apply H5. by rewrite <- S2.
  - intros p Hp. rewrite S4. by apply H6.
  - intros p Hp. rewrite S4. by apply H7.
Qed.

Lemma same_shape_sorted w w' c l :
  same_shape w w' -> sorted_at w c l -> sorted_at w' c l.
Proof.
  intros [S1 S2 S3 S4 S5] [H1 H2 H3]. split; unfold generation in *.
  - eapply StronglySorted_impl_in; [|exact H1]. intros x y _ _.
    unfold older. by rewrite !S3.
  - by rewrite S3, S1.
  - by rewrite S1.
Qed.

Lemma same_shape_inv w w' :
  same_shape w w' -> chain_inv w ->
  chain_inv w' /\ first_used_generation w' = first_used_generation w /\
  generation w' = generation w.
Proof.
  intros Hs (c & l & fl & Hwf & Hsrt & Hfug).
  pose proof (shape_handler _ _ Hs) as Hh.
  split; [|by unfold first_used_generation, generation; rewrite Hh].
  exists c, l, fl. split; [by eapply same_shape_wf|]. split; [by eapply same_shape_sorted|].
  unfold first_used_generation in *. by rewrite Hh, (shape_tag _ _ Hs).
Qed.

Lemma tag_sweep w c l fl p :
  wf_at w c l fl -> tag (set_watermark (sweep_spec c w)) p = tag w p.
Proof.
  intros Hwf. pose proof (wf_sweepable false _ _ _ _ Hwf) as Hsw.
  pose proof (sweep_spec_swept _ _ _ _ Hsw) as Hs.
  rewrite tag_set_watermark.
  destruct (decide (p ∈ retired w c)) as [Hin|Hout].
  - by destruct (swept_retired _ _ _ _ Hs p Hin).
  - unfold tag. by rewrite (swept_other _ _ _ _ Hs p Hout).
Qed.

Lemma sweep_fug w c l fl :
  wf_at w c l fl ->
  first_used_generation (set_watermark (sweep_spec c w)) = tag w (hd l (kept w c)).
Proof.
  intros Hwf. pose proof (wf_sweepable false _ _ _ _ Hwf) as Hsw.
  pose proof (sweep_spec_swept _ _ _ _ Hsw) as Hs.
  destruct (swept_first_in _ _ _ _ _ Hsw Hs) as (q & Hq & _ & Heq & _).
  unfold first_used_generation. rewrite (set_watermark_handler _ _ Hq). simpl.
  rewrite (swept_first _ _ _ _ Hs), head_snoc in Hq. injection Hq as <-.
  unfold tag. by rewrite Heq.
Qed.

Lemma sweep_sorted w c l fl :
  wf_at w c l fl -> sorted_at w c l ->
  sorted_at (set_watermark (sweep_spec c w)) (kept w c) l.
Proof.
  intros Hwf [H1 H2 H3]. split.
  - rewrite (retired_kept w c), <- (assoc_L (++)) in H1.
    apply StronglySorted_app_1_r in H1.
    eapply StronglySorted_impl_in; [|exact H1]. intros x y _ _. unfold older.
    by rewrite !(tag_sweep _ _ _ _ _ Hwf).
  - by rewrite (tag_sweep _ _ _ _ _ Hwf), (sweep_generation _ _ _ _ Hwf).
  - by rewrite (sweep_generation _ _ _ _ Hwf).
Qed.

Lemma advance_case_sorted w c l fl w1 c1 l1 fl1 :
  wf_at w c l fl -> sorted_at w c l ->
  generation w + 1 < 2 ^ 64 ->
  advance_case w c l fl w1 c1 l1 fl1 ->
  sorted_at w1 c1 l1 /\ generation w1 = generation w + 1 /\
  hd l1 c1 = hd l c /\ tag w (hd l c) <= tag w1 (hd l c).
Proof.
  intros Hwf [H1 H2 H3] Hgen Hcase.
  assert (Hngen : wrap64 (_generation (handler w) + 1) = generation w + 1).
  { unfold wrap64, generation in *. apply Z.mod_small. lia. }
  pose proof (wf_nodup_live _ _ _ _ Hwf) as Hnd.
  assert (Hbound : forall p, p ∈ c ++ [l] -> (p < length (heap w))%nat).
  { intros p Hp. eapply chain_lt; [by apply (wf_live _ _ _ _ Hwf)|done]. }
  destruct Hcase as [r Hr Hr0|r Hr Hr0 _|r f rf fl' Hr Hr0 -> Hrf].
  - assert (Htl : tag (morph l r w) l = generation w + 1).
    { unfold tag; simpl. rewrite list_lookup_insert_eq by (by eapply lookup_lt_Some).
      simpl. done. }
    assert (Hto : forall p, p <> l -> tag (morph l r w) p = tag w p).
    { intros p Hp. unfold tag; simpl. by rewrite list_lookup_insert_ne. }
    split; [split|split; [|split]].
    + apply StronglySorted_app in H1 as (Hx & Hc & _).
      apply NoDup_app in Hnd as (_ & Hdis & _).
      apply StronglySorted_app. split; [|split].
      * intros x y Hx1 ->%list_elem_of_singleton. unfold older.
        rewrite Htl, Hto.
        -- specialize (Hx x l Hx1 ltac:(by left)). unfold older in Hx. lia.
        -- intros ->. apply (Hdis l Hx1). by left.
      * eapply StronglySorted_impl_in; [|exact Hc]. intros x y Hx1 Hy1. unfold older.
        rewrite !Hto; [done| |].
        -- intros ->. apply (Hdis l Hy1). by left.
        -- intros ->. apply (Hdis l Hx1). by left.
      * repeat constructor.
    + by rewrite Htl.
    + unfold generation in *. simpl. lia.
    + unfold generation in *. simpl. done.
    + done.
    + destruct (decide (hd l c = l)) as [->|Hne]; [|by rewrite Hto].
      rewrite Htl. lia.
  - set (n := length (heap w)).
    assert (Htn : tag (link_new l r w) n = generation w + 1).
    { unfold tag; simpl. rewrite list_lookup_insert_ne.
      - by rewrite lookup_app_r, Nat.sub_diag by done.
      - intros ->. apply lookup_lt_Some in Hr. unfold n in Hr. lia. }
    assert (Hto : forall p, p ∈ c ++ [l] -> tag (link_new l r w) p = tag w p).
    { intros p Hp. specialize (Hbound p Hp). unfold tag; simpl.
      destruct (decide (l = p)) as [<-|Hne].
      - rewrite list_lookup_insert_eq by (rewrite length_app; simpl; lia). by rewrite Hr.
      - rewrite list_lookup_insert_ne by done. by rewrite lookup_app_l. }
    split; [split|split; [|split]].
    + apply StronglySorted_app. split; [|split].
      * intros x y Hx1 ->%list_elem_of_singleton. unfold older.
        rewrite Htn, Hto by done. pose proof (sorted_le_last _ _ _ _ H1 Hx1). lia.
      * eapply StronglySorted_impl_in; [|exact H1]. intros x y Hx1 Hy1. unfold older.
        by rewrite !Hto.
      * repeat constructor.
    + by rewrite Htn.
    + unfold generation in *. simpl. lia.
    + unfold generation in *. simpl. done.
    + by destruct c.
    + rewrite Hto; [lia|apply hd_in].
  - pose proof (wf_nodup _ _ _ _ Hwf) as Hnd'.
    replace (c ++ l :: f :: fl') with ((c ++ [l]) ++ f :: fl') in Hnd'
      by (by rewrite <- (assoc_L (++))).
    apply NoDup_app in Hnd' as (_ & Hdis & _).
    assert (Htn : tag (link_free l r f rf w) f = generation w + 1).
    { unfold tag; simpl. rewrite list_lookup_insert_ne.
      - by rewrite list_lookup_insert_eq by (by eapply lookup_lt_Some).
      - intros ->. apply (Hdis f); [|by left]. apply elem_of_app. right. by left. }
    assert (Hto : forall p, p ∈ c ++ [l] -> tag (link_free l r f rf w) p = tag w p).
    { intros p Hp. unfold tag; simpl.
      destruct (decide (l = p)) as [<-|Hne].
      - rewrite list_lookup_insert_eq by (rewrite length_insert; by eapply lookup_lt_Some).
        by rewrite Hr.
      - rewrite list_lookup_insert_ne by done. rewrite list_lookup_insert_ne; [done|].
        intros ->. apply (Hdis p Hp). by left. }
    split; [split|split; [|split]].
    + apply StronglySorted_app. split; [|split].
      * intros x y Hx1 ->%list_elem_of_singleton. unfold older.
        rewrite Htn, Hto by done. pose proof (sorted_le_last _ _ _ _ H1 Hx1). lia.
      * eapply StronglySorted_impl_in; [|exact H1]. intros x y Hx1 Hy1. unfold older.
        by rewrite !Hto.
      * repeat constructor.
    + by rewrite Htn.
    + unfold generation in *. simpl. lia.
    + unfold generation in *. simpl. done.
    + by destruct c.
    + rewrite Hto; [lia|apply hd_in].
Qed.

Lemma incGeneration_inv nd w :
  chain_inv w ->
  generation w + 1 < 2 ^ 64 ->
  exists w',
    incGeneration nd w = Ok (tt, w') /\
    chain_inv w' /\
    first_used_generation w <= first_used_generation w' /\
    generation w' = generation w + 1 /\
    guards w' = guards w.
Proof.
  intros (c & l & fl & Hwf & Hsrt & Hfug) Hgen.
  destruct (incGeneration_wf nd _ _ _ _ Hwf) as (w1 & c1 & l1 & fl1 & Hcase & Hwf1 & Hinc).
  destruct (advance_case_sorted _ _ _ _ _ _ _ _ Hwf Hsrt Hgen Hcase)
    as (Hsrt1 & Hgen1 & Hhd & Htag).
  exists (set_watermark (sweep_spec c1 w1)).
  pose proof (sweep_wf _ _ _ _ Hwf1) as Hwf'.
  pose proof (sweep_sorted _ _ _ _ Hwf1 Hsrt1) as Hsrt'.
  pose proof (sweep_fug _ _ _ _ Hwf1) as Hfug'.
  split; [done|]. split; [|split; [|split]].
  - exists (kept w1 c1), l1, (rev (retired w1 c1) ++ fl1).
    split; [done|]. split; [done|]. by rewrite Hfug', (tag_sweep _ _ _ _ _ Hwf1).
  - rewrite Hfug', Hfug.
    assert (hd l1 (kept w1 c1) ∈ c1 ++ [l1]) as Hin.
    { pose proof (hd_in (kept w1 c1) l1) as H.
      apply elem_of_app in H as [H|H]; apply elem_of_app; [left|by right].
      by eapply kept_subset. }
    pose proof (sorted_head_le _ _ _ _ (srt_sorted _ _ _ Hsrt1) Hin) as Hle.
    rewrite Hhd in Hle. lia.
  - by rewrite (sweep_generation _ _ _ _ Hwf1).
  - rewrite set_watermark_guards.
    pose proof (wf_sweepable false _ _ _ _ Hwf1) as Hsw.
    rewrite (swept_guards _ _ _ _ (sweep_spec_swept _ _ _ _ Hsw)).
    by destruct Hcase.
Qed.

(** ** The watermark along an interleaving *)

Lemma advances_cons o ops : advances (o :: ops) = (is_advance o + advances ops)%nat.
Proof. by destruct o. Qed.

Lemma fresh_inv : chain_inv fresh.
Proof.
  exists [], 0%nat, []. split; [apply fresh_wf|]. split; [|done].
  split; [|done..]. simpl. repeat constructor.
Qed.

Lemma step_inv fuel nd o w w' :
  chain_inv w ->
  generation w + Z.of_nat (is_advance o) < 2 ^ 64 ->
  step fuel o nd w = Ok (tt, w') ->
  chain_inv w' /\
  first_used_generation w <= first_used_generation w' /\
  generation w' = generation w + Z.of_nat (is_advance o).
Proof.
  intros Hinv Hgen Hstep.
  destruct (decide (o = Advance)) as [->|Hne].
  - simpl in *. destruct (incGeneration_inv nd w Hinv Hgen) as (w2 & H1 & H2 & H3 & H4 & _).
    rewrite H1 in Hstep. injection Hstep as <-. done.
  - pose proof (sp_step fuel o Hne nd w tt w' Hstep) as Hs.
    destruct (same_shape_inv _ _ Hs Hinv) as (H1 & H2 & H3).
    split; [done|]. rewrite H2, H3. destruct o; simpl; try done; lia.
Qed.

Lemma history_cons fuel nd o ops w :
  history fuel nd (o :: ops) w =
  w :: match step fuel o nd w with
       | Ok (_, w') => history fuel nd ops w'
       | Err _ => []
       end.
Proof. done. Qed.

Lemma history_head fuel nd ops w : history fuel nd ops w !! 0%nat = Some w.
Proof. by destruct ops. Qed.

Lemma step_wf fuel nd o w w' :
  well_formed w -> step fuel o nd w = Ok (tt, w') -> well_formed w'.
Proof.
  intros (c & l & fl & Hwf) Hstep.
  destruct (decide (o = Advance)) as [->|Hne].
  - destruct (incGeneration_wf nd _ _ _ _ Hwf) as (w1 & c1 & l1 & fl1 & _ & Hwf1 & Hinc).
    simpl in Hstep. rewrite Hinc in Hstep. injection Hstep as <-.
    eexists _, _, _. by apply sweep_wf.
  - exists c, l, fl. eapply same_shape_wf; [|done]. by eapply (sp_step fuel o Hne).
Qed.

(** Every world an interleaving reaches from a well-formed world, a fresh
    handler for one, is well formed, however long the interleaving: the
    counters may wrap around, the chain and the freelist stay what they
    should be. *)
Lemma reachable_well_formed fuel nd ops : forall w k wk,
  well_formed w -> history fuel nd ops w !! k = Some wk -> well_formed wk.
Proof.
  induction ops as [|o ops IH]; intros w k wk Hwf Hk.
  - destruct k; [|done]. by injection Hk as <-.
  - destruct k as [|k].
    { rewrite history_head in Hk. by injection Hk as <-. }
    rewrite history_cons in Hk. simpl in Hk.
    destruct (step fuel o nd w) as [[[] w1]|] eqn:Hstep; [|done].
    eapply IH; [|done]. by eapply step_wf.
Qed.

Lemma history_reach fuel nd ops : forall w j wj,
  chain_inv w ->
  generation w + Z.of_nat (advances ops) < 2 ^ 64 ->
  history fuel nd ops w !! j = Some wj ->
  chain_inv wj /\ first_used_generation w <= first_used_generation wj.
Proof.
  induction ops as [|o ops IH]; intros w j wj Hinv Hgen Hj.
  - destruct j; simpl in Hj; [|done]. injection Hj as <-. split; [done|lia].
  - rewrite history_cons in Hj. destruct j as [|j]; simpl in Hj.
    { injection Hj as <-. split; [done|lia]. }
    rewrite advances_cons in Hgen.
    destruct (step fuel o nd w) as [[[] w1]|] eqn:Hstep; [|done].
    assert (Hg1 : generation w + Z.of_nat (is_advance o) < 2 ^ 64) by lia.
    destruct (step_inv _ _ _ _ _ Hinv Hg1 Hstep) as (H1 & H2 & H3).
    destruct (IH w1 j wj H1 ltac:(lia) Hj) as (H4 & H5). split; [done|lia].
Qed.

Lemma history_monotone fuel nd ops : forall w i j wi wj,
  chain_inv w ->
  generation w + Z.of_nat (advances ops) < 2 ^ 64 ->
  (i <= j)%nat ->
  history fuel nd ops w !! i = Some wi ->
  history fuel nd ops w !! j = Some wj ->
  first_used_generation wi <= first_used_generation wj.
Proof.
  induction ops as [|o ops IH]; intros w i j wi wj Hinv Hgen Hij Hi Hj.
  - destruct i, j; simpl in *; try done. injection Hi as <-. injection Hj as <-. lia.
  - destruct i as [|i].
    + rewrite history_head in Hi. injection Hi as <-.
      by destruct (history_reach _ _ _ _ _ _ Hinv Hgen Hj).
    + destruct j as [|j]; [lia|].
      rewrite history_cons in Hi, Hj. simpl in Hi, Hj.
      rewrite advances_cons in Hgen.
      destruct (step fuel o nd w) as [[[] w1]|] eqn:Hstep; [|done].
      assert (Hg1 : generation w + Z.of_nat (is_advance o) < 2 ^ 64) by lia.
    destruct (step_inv _ _ _ _ _ Hinv Hg1 Hstep) as (H1 & H2 & H3).
      apply (IH w1 i j wi wj H1); [lia|lia|done|done].
Qed.

(** C3, as the code has it.  Along every interleaving with fewer than 2^64
    [Advance] steps, that is, as long as the generation counter has not
    wrapped around, the watermark never goes down. *)
Theorem watermark_monotonic fuel nd ops :
  Z.of_nat (advances ops) < 2 ^ 64 ->
  watermark_monotone fuel nd ops.
Proof.
  intros Hadv i j wi wj Hij Hi Hj.
  apply (history_monotone fuel nd ops fresh i j wi wj);
    [apply fresh_inv|unfold generation; simpl; lia|done..].
Qed.

Lemma watermark_monotonic_witness :
  watermark_monotone 1 false [TakeGuard; Advance; TakeGuard; DropGuard 0; Advance].
Proof. apply watermark_monotonic. simpl. lia. Defined.

(** *** The counter wraps around *)

Lemma advanced_step nd k : incGeneration nd (advanced k) = Ok (tt, advanced (k + 1)).
Proof.
  assert (Hsw : sweepable nd (morph 0 (mkHold 0 (wrap64 k) None) (advanced k)) [] 0%nat).
  { split.
    - done.
    - done.
    - apply NoDup_singleton.
    - by eexists.
    - by intros p ?%elem_of_nil. }
  rewrite (incGeneration_morph nd (advanced k) 0%nat (mkHold 0 (wrap64 k) None) []);
    [|done..].
  unfold advanced, set_watermark, morph, tag. simpl.
  unfold wrap64. rewrite Zplus_mod_idemp_l. done.
Qed.

Lemma history_advanced fuel nd n : forall k i,
  (i <= n)%nat ->
  history fuel nd (repeat Advance n) (advanced k) !! i = Some (advanced (k + Z.of_nat i)).
Proof.
  induction n as [|n IH]; intros k i Hi.
  - assert (i = 0%nat) as -> by lia. simpl. by rewrite Z.add_0_r.
  - destruct i as [|i].
    + rewrite history_head. by rewrite Z.add_0_r.
    + change (repeat Advance (S n)) with (Advance :: repeat Advance n).
      rewrite history_cons. change (step fuel Advance nd (advanced k))
        with (incGeneration nd (advanced k)).
      rewrite advanced_step. simpl lookup. rewrite IH by lia.
      do 2 f_equal. lia.
Qed.

(** C3 as stated fails once the counter wraps: after 2^64 - 1 calls of
    [incGeneration] on a fresh handler the watermark is 2^64 - 1, and the
    next call takes it to 0. *)
Lemma watermark_wraps_to_zero :
  ~ watermark_monotone 1 false (repeat Advance (Z.to_nat (2 ^ 64))).
Proof.
  intros H.
  assert (Hlt : (Z.to_nat (2 ^ 64 - 1) <= Z.to_nat (2 ^ 64))%nat) by lia.
  specialize (H (Z.to_nat (2 ^ 64 - 1)) (Z.to_nat (2 ^ 64))
                (advanced (2 ^ 64 - 1)) (advanced (2 ^ 64)) Hlt).
  change fresh with (advanced 0) in H.
  rewrite !history_advanced in H by lia.
  rewrite !Z2Nat.id in H by lia.
  specialize (H eq_refl eq_refl).
  unfold first_used_generation, advanced in H. simpl _firstUsedGeneration in H.
  unfold wrap64 in H. rewrite Z.mod_same in H by lia.
  rewrite Z.mod_small in H by lia. lia.
Qed.

(** ** Counting guards *)

Lemma npins_nil p : npins [] p = 0%nat.
Proof. done. Qed.

Lemma npins_cons x gs p : npins (x :: gs) p = (pin_weight x p + npins gs p)%nat.
Proof.
  unfold npins, pin_weight. rewrite filter_cons. by destruct (decide (_hold x = Some p)).
Qed.

Lemma npins_app gs1 gs2 p : npins (gs1 ++ gs2) p = (npins gs1 p + npins gs2 p)%nat.
Proof. unfold npins. by rewrite filter_app, length_app. Qed.

Lemma npins_snoc gs x p : npins (gs ++ [x]) p = (npins gs p + pin_weight x p)%nat.
Proof. rewrite npins_app, npins_cons, npins_nil. lia. Qed.

Lemma npins_insert gs g x y p :
  gs !! g = Some x ->
  (npins (<[g := y]> gs) p + pin_weight x p = npins gs p + pin_weight y p)%nat.
Proof.
  revert g. induction gs as [|z gs IH]; intros g Hg; [done|].
  destruct g as [|g]; simpl in *.
  - injection Hg as ->. rewrite !npins_cons. lia.
  - rewrite !npins_cons. specialize (IH g Hg). lia.
Qed.

Lemma npins_pos gs g p : gs !! g = Some (mkGuard (Some p)) -> (0 < npins gs p)%nat.
Proof.
  intros Hg. apply list_elem_of_split_length in Hg as (gs1 & gs2 & -> & _).
  rewrite npins_app, npins_cons. unfold pin_weight. simpl.
  rewrite decide_True by done. lia.
Qed.

Lemma npins_live gs p :
  (npins gs p <= length (filter (fun x => _hold x <> None) gs))%nat.
Proof.
  induction gs as [|x gs IH]; [done|].
  rewrite npins_cons, filter_cons. unfold pin_weight.
  destruct (decide (_hold x = Some p)) as [E|E].
  - rewrite decide_True by (by rewrite E). simpl. lia.
  - destruct (decide (_hold x <> None)); simpl; lia.
Qed.

Lemma pins_live w p : (pins w p <= live_guards w)%nat.
Proof. apply npins_live. Qed.

Lemma pin_weight_empty p : pin_weight (mkGuard None) p = 0%nat.
Proof. done. Qed.

Lemma pin_weight_same p : pin_weight (mkGuard (Some p)) p = 1%nat.
Proof. unfold pin_weight. simpl. by rewrite decide_True. Qed.

Lemma pin_weight_other p q : p <> q -> pin_weight (mkGuard (Some p)) q = 0%nat.
Proof. intros H. unfold pin_weight. simpl. rewrite decide_False; [done|congruence]. Qed.

(** ** What the guard operations do to the world *)

Lemma Guard_valid_ok nd w g x :
  guards w !! g = Some x -> Guard_valid g nd w = Ok (bool_decide (_hold x <> None), w).
Proof. intros H. unfold Guard_valid, bind. by rewrite (get_guard_ok _ _ _ _ H). Qed.

Lemma takeGuard_ok fuel nd w l r :
  _last (handler w) = Some l ->
  heap w !! l = Some r ->
  is_uint32 (hold_refCount r) ->
  valid (hold_refCount r) = true ->
  takeGuard fuel nd w =
  Ok (length (guards w),
      mkWorld (<[l := set_word (wrap32 (hold_refCount r + 2)) r]> (heap w)) (handler w)
        (guards w ++ [mkGuard (Some l)])).
Proof.
  intros Hl Hr Hu Hv. unfold takeGuard.
  unfold bind at 1. simpl. rewrite Hl.
  unfold bind at 1. unfold Guard_from_hold. unfold bind at 1. simpl.
  unfold bind at 1. rewrite (acquire_ok _ _ _ _ Hr Hu), Hv. simpl.
  unfold bind at 1.
  unfold set_heap. simpl.
  set (W := mkWorld (<[l := set_word (wrap32 (hold_refCount r + 2)) r]> (heap w))
              (handler w) (guards w ++ [mkGuard (Some l)])).
  assert (Hlk : guards W !! length (guards w) = Some (mkGuard (Some l)))
    by (simpl; by rewrite lookup_app_r, Nat.sub_diag by done).
  assert (Hv' : takeGuard_retry fuel (length (guards w)) nd W = Ok (tt, W)).
  { destruct fuel; simpl; unfold bind at 1;
      rewrite (Guard_valid_ok nd W _ _ Hlk); done. }
  by rewrite Hv'.
Qed.

Lemma Guard_copy_ctor_empty nd w g :
  guards w !! g = Some (mkGuard None) ->
  Guard_copy_ctor g nd w =
  Ok (length (guards w), set_guards (guards w ++ [mkGuard None]) w).
Proof. intros Hg. unfold Guard_copy_ctor, bind. by rewrite (get_guard_ok _ _ _ _ Hg). Qed.

Lemma Guard_copy_ctor_pin nd w g p r :
  guards w !! g = Some (mkGuard (Some p)) ->
  heap w !! p = Some r ->
  nd || valid (hold_refCount r) = true ->
  Guard_copy_ctor g nd w =
  Ok (length (guards w),
      mkWorld (<[p := set_word (wrap32 (hold_refCount r + 2)) r]> (heap w)) (handler w)
        (guards w ++ [mkGuard (Some p)])).
Proof.
  intros Hg Hp Hv. unfold Guard_copy_ctor. unfold bind at 1.
  rewrite (get_guard_ok _ _ _ _ Hg). simpl _hold.
  unfold bind at 1. by rewrite (copy_ok _ _ _ _ Hp), Hv.
Qed.

Lemma Guard_move_ctor_ok nd w g x :
  guards w !! g = Some x ->
  Guard_move_ctor g nd w =
  Ok (length (guards w), set_guards (<[g := mkGuard None]> (guards w ++ [x])) w).
Proof.
  intros Hg. destruct x as [h].
  unfold Guard_move_ctor, bind. by rewrite (get_guard_ok _ _ _ _ Hg).
Qed.

Lemma Guard_copy_assign_empty nd w w1 g rhs :
  g <> rhs ->
  Guard_cleanup g nd w = Ok (tt, w1) ->
  guards w1 !! rhs = Some (mkGuard None) ->
  Guard_copy_assign g rhs nd w = Ok (tt, set_guards (<[g := mkGuard None]> (guards w1)) w1).
Proof.
  intros Hne Hc Hrhs. unfold Guard_copy_assign.
  apply Nat.eqb_neq in Hne. rewrite Nat.eqb_sym, Hne. simpl.
  unfold bind at 1. rewrite Hc.
  unfold bind at 1. by rewrite (get_guard_ok _ _ _ _ Hrhs).
Qed.

Lemma Guard_copy_assign_pin nd w w1 g rhs q r1 :
  g <> rhs ->
  Guard_cleanup g nd w = Ok (tt, w1) ->
  guards w1 !! rhs = Some (mkGuard (Some q)) ->
  heap w1 !! q = Some r1 ->
  nd || valid (hold_refCount r1) = true ->
  Guard_copy_assign g rhs nd w = Ok (tt, pin_at g q r1 w1).
Proof.
  intros Hne Hc Hrhs Hq Hv. unfold Guard_copy_assign.
  apply Nat.eqb_neq in Hne. rewrite Nat.eqb_sym, Hne. simpl.
  unfold bind at 1. rewrite Hc.
  unfold bind at 1. rewrite (get_guard_ok _ _ _ _ Hrhs). simpl _hold.
  unfold bind at 1. by rewrite (copy_ok _ _ _ _ Hq), Hv.
Qed.

Lemma Guard_move_assign_ok nd w w1 g rhs x :
  g <> rhs ->
  Guard_cleanup g nd w = Ok (tt, w1) ->
  guards w1 !! rhs = Some x ->
  Guard_move_assign g rhs nd w =
  Ok (tt, set_guards (<[rhs := mkGuard None]> (<[g := x]> (guards w1))) w1).
Proof.
  intros Hne Hc Hrhs. destruct x as [h]. unfold Guard_move_assign.
  apply Nat.eqb_neq in Hne. rewrite Nat.eqb_sym, Hne. simpl.
  unfold bind at 1. rewrite Hc.
  unfold bind at 1. by rewrite (get_guard_ok _ _ _ _ Hrhs).
Qed.

Lemma has_guard_ok nd w g :
  has_guard g nd w = Ok (bool_decide (g < length (guards w))%nat, w).
Proof. done. Qed.

Lemma when_guard_in nd w g m :
  (g < length (guards w))%nat -> when_guard g m nd w = m nd w.
Proof.
  intros H. unfold when_guard, bind. rewrite has_guard_ok.
  by rewrite bool_decide_eq_true_2.
Qed.

Lemma when_guard_out nd w g m :
  ~ (g < length (guards w))%nat -> when_guard g m nd w = Ok (tt, w).
Proof.
  intros H. unfold when_guard, bind. rewrite has_guard_ok.
  by rewrite bool_decide_eq_false_2.
Qed.

(** ** Reference counts count guards *)

Lemma pinned_valid w g p :
  count_inv w -> guards w !! g = Some (mkGuard (Some p)) ->
  exists r, heap w !! p = Some r /\ valid (hold_refCount r) = true /\
            hold_refCount r = 2 * Z.of_nat (pins w p) /\
            2 * Z.of_nat (pins w p) < 2 ^ 32 /\ (0 < pins w p)%nat.
Proof.
  intros Hc Hg. pose proof (cnt_heap _ Hc _ _ Hg) as Hlt.
  apply lookup_lt_is_Some in Hlt as [r Hr]. exists r. split; [done|].
  pose proof (npins_pos _ _ _ Hg) as Hpos. fold (pins w p) in Hpos.
  destruct (valid (hold_refCount r)) eqn:Hv.
  - destruct (cnt_valid _ Hc _ _ Hr Hv). done.
  - destruct (cnt_invalid _ Hc _ _ Hr Hv). lia.
Qed.

Lemma count_inv_guards w gs :
  count_inv w ->
  (forall p, npins gs p = pins w p) ->
  (forall g p, gs !! g = Some (mkGuard (Some p)) -> (p < length (heap w))%nat) ->
  count_inv (set_guards gs w).
Proof.
  intros [H1 H2 H3] Hp Hh. split; unfold pins; simpl.
  - intros p r Hr Hv. rewrite Hp. by apply H1.
  - intros p r Hr Hv. rewrite Hp. by apply H2.
  - done.
Qed.

Lemma count_inv_pin_at w g p r :
  count_inv w ->
  guards w !! g = Some (mkGuard None) ->
  heap w !! p = Some r ->
  valid (hold_refCount r) = true ->
  2 * Z.of_nat (pins (pin_at g p r w) p) < 2 ^ 32 ->
  count_inv (pin_at g p r w).
Proof.
  intros [H1 H2 H3] Hg Hr Hv Hb.
  assert (p < length (heap w))%nat as Hlt by (by eapply lookup_lt_Some).
  assert (Hpins : forall q, (pins (pin_at g p r w) q =
                             pins w q + pin_weight (mkGuard (Some p)) q)%nat).
  { intros q. unfold pins; simpl.
    pose proof (npins_insert _ _ _ (mkGuard (Some p)) q Hg) as E.
    rewrite pin_weight_empty in E. lia. }
  destruct (H1 _ _ Hr Hv) as [Hrc _].
  rewrite Hpins, pin_weight_same in Hb.
  assert (Hw : wrap32 (hold_refCount r + 2) = 2 * Z.of_nat (pins w p + 1)).
  { unfold wrap32. rewrite Z.mod_small; lia. }
  split.
  - intros q rq Hq Hvq. rewrite Hpins. simpl in Hq.
    destruct (decide (p = q)) as [<-|Hne].
    + rewrite list_lookup_insert_eq in Hq by done. injection Hq as <-.
      simpl. rewrite pin_weight_same, Hw. lia.
    + rewrite list_lookup_insert_ne in Hq by done.
      rewrite pin_weight_other, Nat.add_0_r by done. by apply H1.
  - intros q rq Hq Hvq. rewrite Hpins. simpl in Hq.
    destruct (decide (p = q)) as [<-|Hne].
    + rewrite list_lookup_insert_eq in Hq by done. injection Hq as <-.
      simpl in Hvq. by rewrite valid_add2, Hv in Hvq.
    + rewrite list_lookup_insert_ne in Hq by done.
      rewrite pin_weight_other, Nat.add_0_r by done. by apply H2.
  - intros g' q Hg'. simpl in *. rewrite length_insert.
    destruct (decide (g = g')) as [<-|Hne].
    + rewrite list_lookup_insert_eq in Hg' by (by eapply lookup_lt_Some).
      by injection Hg' as <-.
    + rewrite list_lookup_insert_ne in Hg' by done. by eapply H3.
Qed.

Lemma count_inv_unpin w g p r :
  count_inv w ->
  guards w !! g = Some (mkGuard (Some p)) ->
  heap w !! p = Some r ->
  count_inv (unpin g p r w).
Proof.
  intros Hc Hg Hr.
  destruct (pinned_valid _ _ _ Hc Hg) as (r' & Hr' & Hv & Hrc & Hb & Hpos).
  rewrite Hr in Hr'. injection Hr' as <-.
  destruct Hc as [H1 H2 H3].
  assert (p < length (heap w))%nat as Hlt by (by eapply lookup_lt_Some).
  assert (Hpins : forall q, (pins (unpin g p r w) q + pin_weight (mkGuard (Some p)) q =
                             pins w q)%nat).
  { intros q. unfold pins; simpl.
    pose proof (npins_insert _ _ _ (mkGuard None) q Hg) as E.
    rewrite pin_weight_empty in E. lia. }
  assert (Hw : wrap32 (hold_refCount r - 2) = 2 * Z.of_nat (pins w p - 1)).
  { unfold wrap32. rewrite Z.mod_small; lia. }
  split.
  - intros q rq Hq Hvq. specialize (Hpins q). simpl in Hq.
    destruct (decide (p = q)) as [<-|Hne].
    + rewrite list_lookup_insert_eq in Hq by done. injection Hq as <-.
      simpl. rewrite pin_weight_same in Hpins. rewrite Hw.
      replace (pins (unpin g p r w) p) with (pins w p - 1)%nat by lia. lia.
    + rewrite list_lookup_insert_ne in Hq by done.
      rewrite pin_weight_other, Nat.add_0_r in Hpins by done. rewrite Hpins. by apply H1.
  - intros q rq Hq Hvq. specialize (Hpins q). simpl in Hq.
    destruct (decide (p = q)) as [<-|Hne].
    + rewrite list_lookup_insert_eq in Hq by done. injection Hq as <-.
      simpl in Hvq. by rewrite valid_sub2, Hv in Hvq.
    + rewrite list_lookup_insert_ne in Hq by done.
      rewrite pin_weight_other, Nat.add_0_r in Hpins by done. rewrite Hpins. by apply H2.
  - intros g' q Hg'. simpl in *. rewrite length_insert.
    destruct (decide (g = g')) as [<-|Hne].
    + by rewrite list_lookup_insert_eq in Hg' by (by eapply lookup_lt_Some).
    + rewrite list_lookup_insert_ne in Hg' by done. by eapply H3.
Qed.

Lemma cleanup_count nd w g x :
  count_inv w ->
  guards w !! g = Some x ->
  exists w1,
    Guard_cleanup g nd w = Ok (tt, w1) /\ count_inv w1 /\
    guards w1 = <[g := mkGuard None]> (guards w) /\
    (forall p, (pins w1 p <= pins w p)%nat).
Proof.
  intros Hc Hg. destruct x as [[p|]].
  - destruct (pinned_valid _ _ _ Hc Hg) as (r & Hr & _).
    exists (unpin g p r w). split; [by apply Guard_cleanup_pin|].
    split; [by apply count_inv_unpin|]. split; [done|].
    intros q. unfold pins; simpl.
    pose proof (npins_insert _ _ _ (mkGuard None) q Hg) as E.
    rewrite pin_weight_empty in E. lia.
  - exists w. split; [by apply Guard_cleanup_empty|]. split; [done|].
    split; [by rewrite list_insert_id|done].
Qed.

Lemma count_inv_pin_new w p r :
  count_inv w ->
  heap w !! p = Some r ->
  valid (hold_refCount r) = true ->
  let w' := mkWorld (<[p := set_word (wrap32 (hold_refCount r + 2)) r]> (heap w))
              (handler w) (guards w ++ [mkGuard (Some p)]) in
  2 * Z.of_nat (pins w' p) < 2 ^ 32 ->
  count_inv w'.
Proof.
  intros Hc Hr Hv w' Hb.
  set (w0 := set_guards (guards w ++ [mkGuard None]) w).
  assert (Heq : w' = pin_at (length (guards w)) p r w0).
  { unfold w', pin_at, w0. simpl. f_equal.
    by rewrite insert_app_r_alt, Nat.sub_diag by done. }
  rewrite Heq in *. apply count_inv_pin_at; try done.
  - apply count_inv_guards; [done| |].
    + intros q. rewrite npins_snoc, pin_weight_empty. unfold pins. lia.
    + intros g q Hg. apply lookup_app_Some in Hg as [Hg|[_ Hg]].
      * by eapply (cnt_heap _ Hc).
      * by destruct (g - length (guards w))%nat.
  - simpl. by rewrite lookup_app_r, Nat.sub_diag by done.
Qed.

Lemma guard_step_count fuel nd o w c l fl :
  o <> Advance ->
  wf_at w c l fl ->
  count_inv w ->
  exists w',
    step fuel o nd w = Ok (tt, w') /\
    ((forall p, 2 * Z.of_nat (pins w' p) < 2 ^ 32) -> count_inv w').
Proof.
  intros Ho Hwf Hc. destruct o as [|g|g|g|g rhs|g rhs|]; [| | | | | |done].
  - (* TakeGuard *)
    destruct (wf_last_record _ _ _ _ Hwf) as (_ & r & Hr & _).
    pose proof (wf_valid _ _ _ _ Hwf l ltac:(apply elem_of_app; right; by left)) as Hv.
    unfold word in Hv. rewrite Hr in Hv.
    destruct (cnt_valid _ Hc _ _ Hr Hv) as [Hrc Hb].
    eexists. split.
    + simpl. unfold bind.
      rewrite (takeGuard_ok fuel nd w l r (wf_last _ _ _ _ Hwf) Hr); [done| |done].
      unfold is_uint32. lia.
    + intros Hb'. by apply count_inv_pin_new.
  - (* DropGuard *)
    simpl. destruct (decide (g < length (guards w))%nat) as [Hg|Hg].
    2:{ exists w. by rewrite when_guard_out. }
    rewrite when_guard_in by done. apply lookup_lt_is_Some in Hg as [x Hx].
    destruct (cleanup_count nd _ _ _ Hc Hx) as (w1 & H1 & H2 & _).
    exists w1. by split.
  - (* CopyGuard *)
    simpl. destruct (decide (g < length (guards w))%nat) as [Hg|Hg].
    2:{ exists w. by rewrite when_guard_out. }
    rewrite when_guard_in by done. apply lookup_lt_is_Some in Hg as [x Hx].
    destruct x as [[p|]].
    + destruct (pinned_valid _ _ _ Hc Hx) as (r & Hr & Hv & _).
      eexists. split.
      * unfold bind. rewrite (Guard_copy_ctor_pin nd w g p r Hx Hr); [done|].
        by rewrite Hv, orb_true_r.
      * intros Hb. by apply count_inv_pin_new.
    + eexists. split.
      * unfold bind. by rewrite (Guard_copy_ctor_empty nd w g Hx).
      * intros _. apply count_inv_guards; [done| |].
        -- intros q. rewrite npins_snoc, pin_weight_empty. unfold pins. lia.
        -- intros g' q Hg'. apply lookup_app_Some in Hg' as [Hg'|[_ Hg']].
           ++ by eapply (cnt_heap _ Hc).
           ++ by destruct (g' - length (guards w))%nat.
  - (* MoveGuard *)
    simpl. destruct (decide (g < length (guards w))%nat) as [Hg|Hg].
    2:{ exists w. by rewrite when_guard_out. }
    rewrite when_guard_in by done. pose proof Hg as Hlt.
    apply lookup_lt_is_Some in Hg as [x Hx].
    eexists. split.
    + unfold bind. by rewrite (Guard_move_ctor_ok nd w g x Hx).
    + intros _.
      assert (Hx' : (guards w ++ [x]) !! g = Some x) by (by rewrite lookup_app_l).
      apply count_inv_guards; [done| |].
      * intros q. pose proof (npins_insert _ _ _ (mkGuard None) q Hx') as E.
        rewrite pin_weight_empty, npins_snoc in E. unfold pins. lia.
      * intros g' q Hg'.
        destruct (decide (g = g')) as [<-|Hne].
        { rewrite list_lookup_insert_eq in Hg' by (rewrite length_app; lia). done. }
        rewrite list_lookup_insert_ne in Hg' by done.
        apply lookup_app_Some in Hg' as [Hg'|[_ Hg']].
        -- by eapply (cnt_heap _ Hc).
        -- destruct (g' - length (guards w))%nat; [|done].
           injection Hg' as ->. by eapply (cnt_heap _ Hc).
  - (* AssignGuard *)
    simpl. destruct (decide (g < length (guards w))%nat) as [Hg|Hg].
    2:{ exists w. by rewrite when_guard_out. }
    rewrite when_guard_in by done.
    destruct (decide (rhs < length (guards w))%nat) as [Hrhs|Hrhs].
    2:{ exists w. by rewrite when_guard_out. }
    rewrite when_guard_in by done.
    destruct (decide (g = rhs)) as [<-|Hne].
    { exists w. split; [|done]. unfold Guard_copy_assign. by rewrite Nat.eqb_refl. }
    pose proof Hg as Hglt.
    apply lookup_lt_is_Some in Hg as [x Hx]. apply lookup_lt_is_Some in Hrhs as [y Hy].
    destruct (cleanup_count nd _ _ _ Hc Hx) as (w1 & H1 & H2 & H3 & H4).
    assert (Hy1 : guards w1 !! rhs = Some y) by (by rewrite H3, list_lookup_insert_ne).
    assert (Hx1 : guards w1 !! g = Some (mkGuard None))
      by (by rewrite H3, list_lookup_insert_eq).
    destruct y as [[q|]].
    + destruct (pinned_valid _ _ _ H2 Hy1) as (r1 & Hr1 & Hv1 & _).
      exists (pin_at g q r1 w1). split.
      * apply (Guard_copy_assign_pin nd w w1 g rhs q r1); try done.
        by rewrite Hv1, orb_true_r.
      * intros Hb. by apply count_inv_pin_at.
    + exists (set_guards (<[g := mkGuard None]> (guards w1)) w1). split.
      * by apply (Guard_copy_assign_empty nd w w1 g rhs).
      * intros _. rewrite list_insert_id by done. unfold set_guards.
        by rewrite world_eta.
  - (* MoveAssignGuard *)
    simpl. destruct (decide (g < length (guards w))%nat) as [Hg|Hg].
    2:{ exists w. by rewrite when_guard_out. }
    rewrite when_guard_in by done.
    destruct (decide (rhs < length (guards w))%nat) as [Hrhs|Hrhs].
    2:{ exists w. by rewrite when_guard_out. }
    rewrite when_guard_in by done.
    destruct (decide (g = rhs)) as [<-|Hne].
    { exists w. split; [|done]. unfold Guard_move_assign. by rewrite Nat.eqb_refl. }
    pose proof Hg as Hglt.
    apply lookup_lt_is_Some in Hg as [x Hx]. apply lookup_lt_is_Some in Hrhs as [y Hy].
    destruct (cleanup_count nd _ _ _ Hc Hx) as (w1 & H1 & H2 & H3 & H4).
    assert (Hy1 : guards w1 !! rhs = Some y) by (by rewrite H3, list_lookup_insert_ne).
    assert (Hx1 : guards w1 !! g = Some (mkGuard None))
      by (by rewrite H3, list_lookup_insert_eq).
    exists (set_guards (<[rhs := mkGuard None]> (<[g := y]> (guards w1))) w1). split.
    + by apply (Guard_move_assign_ok nd w w1 g rhs y).
    + intros _.
      assert (Hy2 : <[g := y]> (guards w1) !! rhs = Some y)
        by (by rewrite list_lookup_insert_ne).
      apply count_inv_guards; [done| |].
      * intros q. pose proof (npins_insert _ _ _ y q Hx1) as E1.
        pose proof (npins_insert _ _ _ (mkGuard None) q Hy2) as E2.
        rewrite pin_weight_empty in E1, E2. unfold pins. lia.
      * intros g' q Hg'.
        destruct (decide (rhs = g')) as [<-|Hne1].
        { rewrite list_lookup_insert_eq in Hg'; [done|].
          rewrite length_insert. by eapply lookup_lt_Some. }
        rewrite list_lookup_insert_ne in Hg' by done.
        destruct (decide (g = g')) as [<-|Hne2].
        { rewrite list_lookup_insert_eq in Hg' by (by eapply lookup_lt_Some).
          injection Hg' as ->. by eapply (cnt_heap _ H2). }
        rewrite list_lookup_insert_ne in Hg' by done. by eapply (cnt_heap _ H2).
Qed.

(** ** incGeneration and the reference counts *)

Lemma npins_pos_inv gs p :
  (0 < npins gs p)%nat -> exists g, gs !! g = Some (mkGuard (Some p)).
Proof.
  induction gs as [|x gs IH]; [rewrite npins_nil; lia|].
  rewrite npins_cons. unfold pin_weight.
  destruct (decide (_hold x = Some p)) as [E|E].
  - intros _. exists 0%nat. destruct x as [h]. simpl in *. by rewrite E.
  - intros H. destruct IH as [g Hg]; [lia|]. by exists (S g).
Qed.

Lemma pins_out_of_heap w p :
  count_inv w -> ~ (p < length (heap w))%nat -> pins w p = 0%nat.
Proof.
  intros Hc Hp. destruct (pins w p) eqn:E; [done|].
  destruct (npins_pos_inv (guards w) p) as [g Hg]; [unfold pins in E; lia|].
  destruct Hp. by eapply (cnt_heap _ Hc).
Qed.

Lemma count_inv_words w w' :
  count_inv w ->
  guards w' = guards w ->
  (length (heap w) <= length (heap w'))%nat ->
  (forall p r', heap w' !! p = Some r' ->
     (exists r, heap w !! p = Some r /\ hold_refCount r = hold_refCount r') \/
     (pins w p = 0%nat /\ (hold_refCount r' = 0 \/ hold_refCount r' = 1))) ->
  count_inv w'.
Proof.
  intros [H1 H2 H3] Hg Hlen Hw. split; unfold pins in *; rewrite ?Hg.
  - intros p r' Hr' Hv. destruct (Hw p r' Hr') as [(r & Hr & E)|(Hp & [E|E])].
    + rewrite <- E in *. by apply H1.
    + rewrite E, Hp. lia.
    + by rewrite E in Hv.
  - intros p r' Hr' Hv. destruct (Hw p r' Hr') as [(r & Hr & E)|(Hp & [E|E])].
    + rewrite <- E in *. by apply H2.
    + by rewrite E in Hv.
    + done.
  - intros g p Hgp. specialize (H3 g p Hgp). lia.
Qed.

Lemma sweep_count w c l fl :
  wf_at w c l fl -> count_inv w -> count_inv (set_watermark (sweep_spec c w)).
Proof.
  intros Hwf Hc. pose proof (wf_sweepable false _ _ _ _ Hwf) as Hsw.
  pose proof (sweep_spec_swept _ _ _ _ Hsw) as Hs.
  apply (count_inv_words w); [done| | |].
  - by rewrite set_watermark_guards, (swept_guards _ _ _ _ Hs).
  - by rewrite set_watermark_heap, (swept_length _ _ _ _ Hs).
  - intros p r'. rewrite set_watermark_heap. intros Hr'.
    destruct (decide (p ∈ retired w c)) as [Hin|Hout].
    + right. destruct (swept_retired _ _ _ _ Hs p Hin) as [Hw1 _].
      unfold word in Hw1. rewrite Hr' in Hw1. split; [|by right].
      pose proof (retired_words _ _ _ Hin) as Hw0. unfold word in Hw0.
      destruct (heap w !! p) as [r|] eqn:Hr.
      * destruct (cnt_valid _ Hc _ _ Hr) as [E _]; [by rewrite Hw0|]. lia.
      * apply pins_out_of_heap; [done|]. by apply lookup_ge_None in Hr; lia.
    + left. rewrite (swept_other _ _ _ _ Hs p Hout) in Hr'. by exists r'.
Qed.

Lemma advance_case_count w c l fl w1 c1 l1 fl1 :
  wf_at w c l fl -> count_inv w ->
  advance_case w c l fl w1 c1 l1 fl1 ->
  count_inv w1 /\ guards w1 = guards w /\
  (forall p, (0 < pins w p)%nat -> tag w1 p = tag w p).
Proof.
  intros Hwf Hc Hcase.
  destruct Hcase as [r Hr Hr0|r Hr Hr0 _|r f rf fl' Hr Hr0 -> Hrf].
  - pose proof (wf_valid _ _ _ _ Hwf l ltac:(apply elem_of_app; right; by left)) as Hv.
    unfold word in Hv. rewrite Hr in Hv.
    destruct (cnt_valid _ Hc _ _ Hr Hv) as [Hrc _].
    split; [|split; [done|]].
    + apply (count_inv_words w); [done|done|simpl; by rewrite length_insert|].
      intros p r'. simpl. intros Hr'. left.
      destruct (decide (l = p)) as [<-|Hne].
      * rewrite list_lookup_insert_eq in Hr' by (by eapply lookup_lt_Some).
        injection Hr' as <-. by exists r.
      * rewrite list_lookup_insert_ne in Hr' by done. by exists r'.
    + intros p Hp. unfold tag; simpl.
      destruct (decide (l = p)) as [<-|Hne]; [|by rewrite list_lookup_insert_ne].
      rewrite Hrc in Hr0.
      replace (2 * Z.of_nat (pins w l)) with (Z.of_nat (pins w l) * 2) in Hr0 by lia.
      rewrite Z.div_mul in Hr0 by lia. lia.
  - assert (l < length (heap w))%nat as Hlt by (by eapply lookup_lt_Some).
    split; [|split; [done|]].
    + apply (count_inv_words w); [done|done| |].
      { simpl. rewrite length_insert, length_app. lia. }
      intros p r'. simpl. intros Hr'.
      destruct (decide (l = p)) as [<-|Hne].
      * rewrite list_lookup_insert_eq in Hr' by (rewrite length_app; lia).
        injection Hr' as <-. left. by exists r.
      * rewrite list_lookup_insert_ne in Hr' by done.
        apply lookup_app_Some in Hr' as [Hr'|[Hge Hr']]; [left; by exists r'|].
        right. destruct (p - length (heap w))%nat eqn:E; [|done].
        injection Hr' as <-. split; [|by left].
        apply pins_out_of_heap; [done|lia].
    + intros p Hp. unfold tag; simpl.
      assert (p < length (heap w))%nat as Hplt.
      { destruct (decide (p < length (heap w))%nat); [done|].
        rewrite pins_out_of_heap in Hp by done. lia. }
      destruct (decide (l = p)) as [<-|Hne].
      * rewrite list_lookup_insert_eq by (rewrite length_app; lia). by rewrite Hr.
      * rewrite list_lookup_insert_ne by done. by rewrite lookup_app_l.
  - assert (Hfinv : valid (hold_refCount rf) = false).
    { pose proof (wf_invalid _ _ _ _ Hwf f ltac:(by left)) as Hv.
      unfold word in Hv. by rewrite Hrf in Hv. }
    destruct (cnt_invalid _ Hc _ _ Hrf Hfinv) as [Hrcf Hpf].
    assert (l <> f) as Hlf.
    { intros ->. rewrite Hr in Hrf. injection Hrf as <-.
      pose proof (wf_valid _ _ _ _ Hwf f ltac:(apply elem_of_app; right; by left)) as Hv.
      unfold word in Hv. rewrite Hr in Hv. congruence. }
    split; [|split; [done|]].
    + apply (count_inv_words w); [done|done|simpl; by rewrite !length_insert|].
      intros p r'. simpl. intros Hr'.
      destruct (decide (l = p)) as [<-|Hne].
      * rewrite list_lookup_insert_eq in Hr'
          by (rewrite length_insert; by eapply lookup_lt_Some).
        injection Hr' as <-. left. by exists r.
      * rewrite list_lookup_insert_ne in Hr' by done.
        destruct (decide (f = p)) as [<-|Hne'].
        -- rewrite list_lookup_insert_eq in Hr' by (by eapply lookup_lt_Some).
           injection Hr' as <-. right. split; [done|]. left. simpl. by rewrite Hrcf.
        -- rewrite list_lookup_insert_ne in Hr' by done. left. by exists r'.
    + intros p Hp. unfold tag; simpl.
      destruct (decide (l = p)) as [<-|Hne].
      * rewrite list_lookup_insert_eq
          by (rewrite length_insert; by eapply lookup_lt_Some). by rewrite Hr.
      * rewrite list_lookup_insert_ne by done.
        rewrite list_lookup_insert_ne; [done|]. intros ->. lia.
Qed.

Lemma pinned_fug w g p :
  chain_inv w -> count_inv w ->
  guards w !! g = Some (mkGuard (Some p)) ->
  first_used_generation w <= tag w p.
Proof.
  intros (c & l & fl & Hwf & Hsrt & Hfug) Hc Hg.
  destruct (pinned_valid _ _ _ Hc Hg) as (r & Hr & Hv & _).
  pose proof (wf_cover _ _ _ _ Hwf p ltac:(by eapply lookup_lt_Some)) as Hin.
  replace (c ++ l :: fl) with ((c ++ [l]) ++ fl) in Hin by (by rewrite <- (assoc_L (++))).
  apply elem_of_app in Hin as [Hin|Hin].
  - rewrite Hfug. by apply sorted_head_le; [apply (srt_sorted _ _ _ Hsrt)|].
  - pose proof (wf_invalid _ _ _ _ Hwf p Hin) as Hi. unfold word in Hi.
    rewrite Hr in Hi. congruence.
Qed.

(** One step from a world that satisfies both invariants. *)
Lemma step_full fuel nd o w :
  chain_inv w -> count_inv w ->
  generation w + Z.of_nat (is_advance o) < 2 ^ 64 ->
  exists w',
    step fuel o nd w = Ok (tt, w') /\
    chain_inv w' /\
    ((forall p, 2 * Z.of_nat (pins w' p) < 2 ^ 32) -> count_inv w') /\
    (forall p, (0 < pins w p)%nat -> tag w' p = tag w p) /\
    generation w' = generation w + Z.of_nat (is_advance o).
Proof.
  intros Hinv Hc Hgen.
  destruct (decide (o = Advance)) as [->|Hne].
  - destruct (incGeneration_inv nd w Hinv Hgen) as (w' & H1 & H2 & H3 & H4 & H5).
    exists w'. split; [done|]. split; [done|].
    destruct Hinv as (c & l & fl & Hwf & _).
    destruct (incGeneration_wf nd _ _ _ _ Hwf) as (w1 & c1 & l1 & fl1 & Hcase & Hwf1 & Hinc).
    simpl in H1. rewrite Hinc in H1. injection H1 as <-.
    destruct (advance_case_count _ _ _ _ _ _ _ _ Hwf Hc Hcase) as (Hc1 & Hg1 & Ht1).
    split; [intros _; by eapply sweep_count|]. split; [|done].
    intros p Hp. rewrite (tag_sweep _ _ _ _ _ Hwf1). by apply Ht1.
  - pose proof Hinv as (c & l & fl & Hwf & _).
    destruct (guard_step_count fuel nd o w c l fl Hne Hwf Hc) as (w' & Hstep & Hcnt).
    exists w'. split; [done|].
    pose proof (sp_step fuel o Hne nd w tt w' Hstep) as Hs.
    destruct (same_shape_inv _ _ Hs Hinv) as (H1 & H2 & H3).
    split; [done|]. split; [done|]. split.
    + intros p _. apply (shape_tag _ _ Hs).
    + rewrite H3. destruct o; simpl; try done; lia.
Qed.

(** ** No premature reclamation *)

Lemma history_tail fuel nd o ops w w1 k :
  step fuel o nd w = Ok (tt, w1) ->
  history fuel nd (o :: ops) w !! S k = history fuel nd ops w1 !! k.
Proof. intros H. rewrite history_cons, H. done. Qed.

Lemma live_bound w :
  Z.of_nat (live_guards w) < 2 ^ 31 -> forall p, 2 * Z.of_nat (pins w p) < 2 ^ 32.
Proof. intros H p. pose proof (pins_live w p). lia. Qed.

Section from_a_world.
Context (fuel : nat) (nd : bool).

Lemma step_bounded o ops w :
  chain_inv w -> count_inv w ->
  generation w + Z.of_nat (advances (o :: ops)) < 2 ^ 64 ->
  guards_bounded fuel nd (o :: ops) w ->
  exists w1,
    step fuel o nd w = Ok (tt, w1) /\ chain_inv w1 /\ count_inv w1 /\
    generation w1 + Z.of_nat (advances ops) < 2 ^ 64 /\
    guards_bounded fuel nd ops w1 /\
    (forall p, (0 < pins w p)%nat -> tag w1 p = tag w p).
Proof using Type.
  intros Hinv Hc Hgen Hb. rewrite advances_cons in Hgen.
  assert (Hg1 : generation w + Z.of_nat (is_advance o) < 2 ^ 64) by lia.
  destruct (step_full fuel nd o w Hinv Hc Hg1) as (w1 & Hstep & H1 & H2 & H3 & H4).
  exists w1. split; [done|]. split; [done|].
  assert (Hb1 : guards_bounded fuel nd ops w1).
  { intros k wk Hk. apply (Hb (S k)). by rewrite (history_tail _ _ _ _ _ _ _ Hstep). }
  split; [|split; [lia|done]].
  apply H2, live_bound, (Hb1 0%nat). apply history_head.
Qed.

Lemma history_full ops : forall w,
  chain_inv w -> count_inv w ->
  generation w + Z.of_nat (advances ops) < 2 ^ 64 ->
  guards_bounded fuel nd ops w ->
  length (history fuel nd ops w) = S (length ops) /\
  forall j wj, history fuel nd ops w !! j = Some wj -> chain_inv wj /\ count_inv wj.
Proof using Type.
  induction ops as [|o ops IH]; intros w Hinv Hc Hgen Hb.
  - split; [done|]. intros [|j] wj Hj; [|done]. by injection Hj as <-.
  - destruct (step_bounded _ _ _ Hinv Hc Hgen Hb) as (w1 & Hstep & H1 & H2 & H3 & H4 & _).
    destruct (IH w1 H1 H2 H3 H4) as [Hlen Hall]. split.
    + rewrite history_cons, Hstep. simpl. by rewrite Hlen.
    + intros [|j] wj Hj.
      * rewrite history_head in Hj. by injection Hj as <-.
      * rewrite (history_tail _ _ _ _ _ _ _ Hstep) in Hj. by eapply Hall.
Qed.

Lemma pinned_stable ops g p : forall w j wj,
  chain_inv w -> count_inv w ->
  generation w + Z.of_nat (advances ops) < 2 ^ 64 ->
  guards_bounded fuel nd ops w ->
  history fuel nd ops w !! j = Some wj ->
  (forall k wk, (k <= j)%nat -> history fuel nd ops w !! k = Some wk ->
                guards wk !! g = Some (mkGuard (Some p))) ->
  tag wj p = tag w p.
Proof using Type.
  induction ops as [|o ops IH]; intros w j wj Hinv Hc Hgen Hb Hj Hpin.
  - destruct j; [|done]. by injection Hj as <-.
  - destruct j as [|j].
    { rewrite history_head in Hj. by injection Hj as <-. }
    destruct (step_bounded _ _ _ Hinv Hc Hgen Hb) as (w1 & Hstep & H1 & H2 & H3 & H4 & H5).
    rewrite (history_tail _ _ _ _ _ _ _ Hstep) in Hj.
    rewrite (IH w1 j wj H1 H2 H3 H4 Hj).
    + apply H5. eapply npins_pos. apply (Hpin 0%nat); [lia|]. apply history_head.
    + intros k wk Hk Hwk. apply (Hpin (S k)); [lia|].
      by rewrite (history_tail _ _ _ _ _ _ _ Hstep).
Qed.

Lemma pinned_watermark ops g p : forall w i j wi wj,
  chain_inv w -> count_inv w ->
  generation w + Z.of_nat (advances ops) < 2 ^ 64 ->
  guards_bounded fuel nd ops w ->
  (i <= j)%nat ->
  history fuel nd ops w !! i = Some wi ->
  history fuel nd ops w !! j = Some wj ->
  (forall k wk, (i <= k <= j)%nat -> history fuel nd ops w !! k = Some wk ->
                guards wk !! g = Some (mkGuard (Some p))) ->
  first_used_generation wj <= tag wi p.
Proof using Type.
  induction ops as [|o ops IH]; intros w i j wi wj Hinv Hc Hgen Hb Hij Hi Hj Hpin.
  - destruct i, j; try done. injection Hi as <-. injection Hj as <-.
    eapply pinned_fug; [done..|]. by apply (Hpin 0%nat).
  - destruct i as [|i].
    + rewrite history_head in Hi. injection Hi as <-.
      destruct (history_full _ _ Hinv Hc Hgen Hb) as [_ Hall].
      destruct (Hall j wj Hj) as [Hinvj Hcj].
      rewrite <- (pinned_stable (o :: ops) g p w j wj); try done.
      * eapply pinned_fug; [done..|]. by apply (Hpin j).
      * intros k wk Hk Hwk. apply (Hpin k); [lia|done].
    + destruct j as [|j]; [lia|].
      destruct (step_bounded _ _ _ Hinv Hc Hgen Hb) as (w1 & Hstep & H1 & H2 & H3 & H4 & _).
      rewrite (history_tail _ _ _ _ _ _ _ Hstep) in Hi.
      rewrite (history_tail _ _ _ _ _ _ _ Hstep) in Hj.
      apply (IH w1 i j wi wj); try done; [lia|].
      intros k wk Hk Hwk. apply (Hpin (S k)); [lia|].
      by rewrite (history_tail _ _ _ _ _ _ _ Hstep).
Qed.
End from_a_world.

Lemma fresh_count : count_inv fresh.
Proof.
  split.
  - intros [|p] r Hr Hv; [|done]. injection Hr as <-. done.
  - intros [|p] r Hr Hv; [|done]. by injection Hr as <-.
  - intros g p Hg. by destruct g.
Qed.

(** X17.  When whole operations run on a new handler one after the other,
    each one finished before the next begins, with fewer than 2^31 guards
    alive at any time and fewer than 2^64 [Advance] steps, no operation
    fails, and a guard that pins a record from step [i] to step [j] keeps
    the watermark at step [j] at or below the generation the record had at
    step [i]. *)
Theorem sequential_pin_kept_bounded fuel nd ops :
  Z.of_nat (advances ops) < 2 ^ 64 ->
  guards_bounded fuel nd ops fresh ->
  length (history fuel nd ops fresh) = S (length ops) /\
  sequential_pin_kept fuel nd ops.
Proof.
  intros Hadv Hb.
  assert (Hgen : generation fresh + Z.of_nat (advances ops) < 2 ^ 64)
    by (unfold generation; simpl; lia).
  split.
  - by apply (history_full fuel nd ops fresh fresh_inv fresh_count Hgen Hb).
  - intros i j g p wi wj Hij Hi Hj Hpin.
    by apply (pinned_watermark fuel nd ops g p fresh i j wi wj fresh_inv fresh_count Hgen Hb).
Qed.

Lemma sequential_pin_kept_bounded_witness :
  sequential_pin_kept 1 false [TakeGuard; Advance; TakeGuard; DropGuard 0; Advance].
Proof.
  apply sequential_pin_kept_bounded.
  - simpl. lia.
  - intros k wk.
    do 6 (destruct k as [|k];
          [intros H; vm_compute in H; injection H as <-; vm_compute; reflexivity|]).
    intros H. vm_compute in H. discriminate H.
Defined.

(** *** A reference count wraps around *)

Lemma taken_step fuel nd k : step fuel TakeGuard nd (taken k) = Ok (tt, taken (S k)).
Proof.
  simpl. unfold bind.
  rewrite (takeGuard_ok fuel nd (taken k) 0%nat (mkHold (wrap32 (2 * Z.of_nat k)) 0 None)).
  - unfold ret, taken. simpl. do 3 f_equal.
    + unfold set_word, wrap32. simpl. rewrite Zplus_mod_idemp_l.
      by replace (2 * Z.of_nat (S k)) with (2 * Z.of_nat k + 2) by lia.
    + symmetry. apply repeat_cons.
  - done.
  - done.
  - unfold is_uint32, wrap32. simpl. apply Z.mod_pos_bound. lia.
  - simpl. rewrite valid_wrap32. apply valid_spec.
    rewrite Z.mul_comm. apply Z.mod_mul. lia.
Qed.

Lemma history_taken fuel nd n rest : forall k i,
  (i <= n)%nat ->
  history fuel nd (repeat TakeGuard n ++ rest) (taken k) !! i = Some (taken (k + i)).
Proof.
  induction n as [|n IH]; intros k i Hi.
  - assert (i = 0%nat) as -> by lia. rewrite history_head. by rewrite Nat.add_0_r.
  - destruct i as [|i].
    + rewrite history_head. by rewrite Nat.add_0_r.
    + change (repeat TakeGuard (S n) ++ rest) with (TakeGuard :: repeat TakeGuard n ++ rest).
      rewrite (history_tail _ _ _ _ _ _ _ (taken_step fuel nd k)).
      rewrite IH by lia. do 2 f_equal. lia.
Qed.

Lemma history_taken_rest fuel nd n rest : forall k i,
  history fuel nd (repeat TakeGuard n ++ rest) (taken k) !! (n + i)%nat =
  history fuel nd rest (taken (k + n)) !! i.
Proof.
  induction n as [|n IH]; intros k i.
  - by rewrite Nat.add_0_r.
  - change (repeat TakeGuard (S n) ++ rest) with (TakeGuard :: repeat TakeGuard n ++ rest).
    change (S n + i)%nat with (S (n + i)).
    rewrite (history_tail _ _ _ _ _ _ _ (taken_step fuel nd k)).
    rewrite IH. do 3 f_equal. lia.
Qed.

Lemma taken_wrapped_advance nd n :
  wrap32 (2 * Z.of_nat n) = 0 ->
  incGeneration nd (taken n) =
  Ok (tt, mkWorld [mkHold 0 1 None] (mkHandler 1 1 (Some 0%nat) (Some 0%nat) None 1)
            (repeat (mkGuard (Some 0%nat)) n)).
Proof.
  intros Hw. unfold taken. rewrite Hw.
  set (w := mkWorld [mkHold 0 0 None] (handler fresh) (repeat (mkGuard (Some 0%nat)) n)).
  assert (Hsw : sweepable nd (morph 0 (mkHold 0 0 None) w) [] 0%nat).
  { split.
    - done.
    - done.
    - apply NoDup_singleton.
    - by eexists.
    - by intros p ?%elem_of_nil. }
  by rewrite (incGeneration_morph nd w 0%nat (mkHold 0 0 None) []).
Qed.

Lemma wrapped_count_breaks fuel nd n :
  (0 < n)%nat ->
  wrap32 (2 * Z.of_nat n) = 0 ->
  ~ sequential_pin_kept fuel nd (repeat TakeGuard n ++ [Advance]).
Proof.
  intros Hn Hw H.
  set (wj := mkWorld [mkHold 0 1 None] (mkHandler 1 1 (Some 0%nat) (Some 0%nat) None 1)
               (repeat (mkGuard (Some 0%nat)) n)).
  assert (Hj : history fuel nd (repeat TakeGuard n ++ [Advance]) fresh !! S n = Some wj).
  { change fresh with (taken 0). replace (S n) with (n + 1)%nat by lia.
    rewrite history_taken_rest. simpl. rewrite (taken_wrapped_advance nd n Hw). done. }
  assert (Hi : history fuel nd (repeat TakeGuard n ++ [Advance]) fresh !! 1%nat =
               Some (taken 1)).
  { change fresh with (taken 0). by rewrite history_taken by lia. }
  assert (Hrep : forall m, (0 < m)%nat ->
            repeat (mkGuard (Some 0%nat)) m !! 0%nat = Some (mkGuard (Some 0%nat))).
  { intros m Hm. destruct m; [lia|done]. }
  specialize (H 1%nat (S n) 0%nat 0%nat (taken 1) wj ltac:(lia) Hi Hj).
  assert (Hfalse : first_used_generation wj <= tag (taken 1) 0); [|by vm_compute in Hfalse].
  apply H. intros k wk Hk Hwk.
  destruct (decide (k <= n)%nat) as [Hle|Hgt].
  - change fresh with (taken 0) in Hwk. rewrite history_taken in Hwk by done.
    injection Hwk as <-. simpl. apply Hrep. lia.
  - assert (k = S n) as -> by lia. rewrite Hj in Hwk. injection Hwk as <-.
    simpl. by apply Hrep.
Qed.

(** The bound on the guards is needed, also when whole operations run one
    after the other: the 2^31 guards taken on the fresh record bring its
    32-bit word back to 0, so the next [Advance] finds no reader, morphs the
    record to generation 1 and moves the watermark to 1, while guard 0 has
    pinned that record since it had generation 0. *)
Lemma sequential_pin_lost_on_wrap :
  ~ sequential_pin_kept 1 false (repeat TakeGuard (Z.to_nat (2 ^ 31)) ++ [Advance]).
Proof.
  apply wrapped_count_breaks.
  - lia.
  - rewrite Z2Nat.id by lia. reflexivity.
Qed.

(** ** Scenario B *)

Lemma scenario_B_start fuel nd :
  exists w1 w2,
    history fuel nd [TakeGuard; Advance; DropGuard 0] fresh =
      [fresh; w1; w2; scenario_B_world 0 [mkGuard None]] /\
    guards w1 = [mkGuard (Some 0%nat)] /\ tag w1 0 = 0 /\
    guards w2 = [mkGuard (Some 0%nat)] /\
    generation w2 = 1 /\ live_chain w2 = [0%nat; 1%nat] /\
    first_used_generation w2 = 0.
Proof. destruct nd, fuel; do 2 eexists; vm_compute; done. Qed.

Lemma scenario_B_reader fuel nd :
  last (history fuel nd [TakeGuard; Advance; TakeGuard; DropGuard 0] fresh) =
  Some (scenario_B_world 2 [mkGuard None; mkGuard (Some 1%nat)]).
Proof. destruct nd, fuel; vm_compute; done. Qed.

Lemma scenario_B_morph nd z gs :
  z / 2 = 0 ->
  incGeneration nd (scenario_B_world z gs) =
  Ok (tt, mkWorld [mkHold 1 0 None; mkHold z 2 None]
            (mkHandler 2 2 (Some 1%nat) (Some 1%nat) (Some 0%nat) 2) gs).
Proof.
  intros Hz.
  rewrite (incGeneration_morph nd _ 1%nat (mkHold z 1 None) [0%nat]); try done.
  split.
  - done.
  - simpl. split; [done|]. eexists. split; [done|]. done.
  - apply (bool_decide_unpack _). by vm_compute.
  - by eexists.
  - intros p ->%list_elem_of_singleton. simpl. by rewrite orb_true_r.
Qed.

Lemma scenario_B_link nd z gs :
  z / 2 <> 0 ->
  valid z = true ->
  incGeneration nd (scenario_B_world z gs) =
  Ok (tt, mkWorld [mkHold 1 0 None; mkHold z 1 (Some 2%nat); mkHold 0 2 None]
            (mkHandler 2 1 (Some 2%nat) (Some 1%nat) (Some 0%nat) 3) gs).
Proof.
  intros Hz Hv.
  assert (z <> 0) as Hz0 by (by intros ->).
  rewrite (incGeneration_link_new nd _ 1%nat (mkHold z 1 None) [0%nat; 1%nat]); try done.
  - destruct z as [|p|p]; [done|by vm_compute..].
  - split.
    + done.
    + simpl. split; [done|]. eexists. split; [done|]. simpl.
      split; [done|]. eexists. split; [done|]. done.
    + apply (bool_decide_unpack _). by vm_compute.
    + by eexists.
    + intros p [->|[->|?%elem_of_nil]%elem_of_cons]%elem_of_cons; [| |done].
      * simpl. by rewrite orb_true_r.
      * unfold word. simpl. by rewrite Hv, orb_true_r.
Qed.

(** C8 (scenario B).  On a fresh handler, taking a guard and advancing
    gives generation 1, a live chain of two records and a watermark that is
    still 0; dropping the guard leaves the world [scenario_B_world 0 _].
    From such a world, whatever valid word [z] the generation-1 record
    carries (taking one more guard before the drop gives [z = 2]), the next
    advance gives generation 2 and retires the generation-0 record, which is
    now on the freelist and no longer on the live chain, and the watermark
    becomes 2 when the generation-1 record has no live reader and 1 when it
    has one. *)
Theorem scenario_B fuel nd z gs :
  valid z = true ->
  (exists w1 w2,
     history fuel nd [TakeGuard; Advance; DropGuard 0] fresh =
       [fresh; w1; w2; scenario_B_world 0 [mkGuard None]] /\
     guards w1 = [mkGuard (Some 0%nat)] /\ tag w1 0 = 0 /\
     guards w2 = [mkGuard (Some 0%nat)] /\
     generation w2 = 1 /\ live_chain w2 = [0%nat; 1%nat] /\
     first_used_generation w2 = 0) /\
  last (history fuel nd [TakeGuard; Advance; TakeGuard; DropGuard 0] fresh) =
    Some (scenario_B_world 2 [mkGuard None; mkGuard (Some 1%nat)]) /\
  exists w4,
    incGeneration nd (scenario_B_world z gs) = Ok (tt, w4) /\
    generation w4 = 2 /\
    (0%nat ∉ live_chain w4) /\
    _free (handler w4) = Some 0%nat /\
    word w4 0 = 1 /\
    first_used_generation w4 = (if z / 2 =? 0 then 2 else 1).
Proof.
  intros Hv. split; [apply scenario_B_start|]. split; [apply scenario_B_reader|].
  destruct (z / 2 =? 0) eqn:Hz.
  - apply Z.eqb_eq in Hz. eexists. split; [by apply scenario_B_morph|].
    repeat split. apply (bool_decide_unpack _). by vm_compute.
  - apply Z.eqb_neq in Hz. eexists. split; [by apply scenario_B_link|].
    repeat split. apply (bool_decide_unpack _). by vm_compute.
Qed.

Lemma scenario_B_witness :
  exists w4,
    incGeneration false (scenario_B_world 2 [mkGuard None; mkGuard (Some 1%nat)]) =
      Ok (tt, w4) /\
    generation w4 = 2 /\ first_used_generation w4 = 1.
Proof.
  destruct (scenario_B 1 false 2 [mkGuard None; mkGuard (Some 1%nat)])
    as (_ & _ & w4 & H1 & H2 & _ & _ & _ & H3).
  - reflexivity.
  - exists w4. split; [exact H1|]. split; [exact H2|exact H3].
Defined.

(** ** Worlds of a run of whole operations *)

Lemma step_wf_count fuel nd o w :
  well_formed w -> count_inv w ->
  exists w',
    step fuel o nd w = Ok (tt, w') /\ well_formed w' /\
    ((forall p, 2 * Z.of_nat (pins w' p) < 2 ^ 32) -> count_inv w').
Proof.
  intros Hwf Hc. destruct (decide (o = Advance)) as [->|Hne].
  - destruct Hwf as (c & l & fl & Hwf).
    destruct (incGeneration_wf nd _ _ _ _ Hwf) as (w1 & c1 & l1 & fl1 & Hcase & Hwf1 & Hinc).
    destruct (advance_case_count _ _ _ _ _ _ _ _ Hwf Hc Hcase) as (Hc1 & _).
    eexists. split; [exact Hinc|]. split.
    + eexists _, _, _. by apply sweep_wf.
    + intros _. by eapply sweep_count.
  - pose proof Hwf as (c & l & fl & Hwf').
    destruct (guard_step_count fuel nd o w c l fl Hne Hwf' Hc) as (w' & Hstep & Hcnt).
    exists w'. split; [done|]. split; [by eapply step_wf|done].
Qed.

Lemma holds_counted_step fuel nd o w w' :
  well_formed w -> holds_counted w -> step fuel o nd w = Ok (tt, w') -> holds_counted w'.
Proof.
  intros Hwf Hn Hstep. unfold holds_counted in *.
  destruct (decide (o = Advance)) as [->|Hne].
  - destruct Hwf as (c & l & fl & Hwf).
    destruct (incGeneration_wf nd _ _ _ _ Hwf) as (w1 & c1 & l1 & fl1 & Hcase & Hwf1 & Hinc).
    simpl in Hstep. rewrite Hinc in Hstep. injection Hstep as <-.
    pose proof (wf_sweepable false _ _ _ _ Hwf1) as Hsw.
    pose proof (sweep_spec_swept _ _ _ _ Hsw) as Hs.
    destruct (swept_first_in _ _ _ _ _ Hsw Hs) as (q & Hq & _).
    rewrite (set_watermark_handler _ _ Hq), set_watermark_heap. simpl.
    rewrite (swept_numHolds _ _ _ _ Hs), (swept_length _ _ _ _ Hs).
    destruct Hcase as [r Hr Hr0|r Hr Hr0 _|r f rf fl' Hr Hr0 -> Hrf]; simpl.
    + by rewrite length_insert.
    + rewrite length_insert, length_app, Hn. simpl. unfold wrap32.
      rewrite Zplus_mod_idemp_l. f_equal. lia.
    + by rewrite !length_insert.
  - pose proof (sp_step fuel o Hne nd w tt w' Hstep) as Hs.
    by rewrite (shape_handler _ _ Hs), (shape_length _ _ Hs).
Qed.

Lemma history_wf_count fuel nd ops : forall w,
  well_formed w -> count_inv w -> holds_counted w ->
  guards_bounded fuel nd ops w ->
  length (history fuel nd ops w) = S (length ops) /\
  forall k wk, history fuel nd ops w !! k = Some wk ->
               well_formed wk /\ count_inv wk /\ holds_counted wk.
Proof.
  induction ops as [|o ops IH]; intros w Hwf Hc Hn Hb.
  - split; [done|]. intros [|k] wk Hk; [|done]. by injection Hk as <-.
  - destruct (step_wf_count fuel nd o w Hwf Hc) as (w1 & Hstep & Hwf1 & Hc1).
    assert (Hb1 : guards_bounded fuel nd ops w1).
    { intros k wk Hk. apply (Hb (S k)). by rewrite (history_tail _ _ _ _ _ _ _ Hstep). }
    assert (Hc1' : count_inv w1).
    { apply Hc1, live_bound, (Hb1 0%nat). apply history_head. }
    pose proof (holds_counted_step _ _ _ _ _ Hwf Hn Hstep) as Hn1.
    destruct (IH w1 Hwf1 Hc1' Hn1 Hb1) as [Hlen Hall]. split.
    + rewrite history_cons, Hstep. simpl. by rewrite Hlen.
    + intros [|k] wk Hk.
      * rewrite history_head in Hk. by injection Hk as <-.
      * rewrite (history_tail _ _ _ _ _ _ _ Hstep) in Hk. by eapply Hall.
Qed.

Lemma fresh_well_formed : well_formed fresh.
Proof. exists [], 0%nat, []. apply fresh_wf. Qed.

(** What holds in every world of a run of whole operations on a fresh
    handler in which fewer than 2^31 guards are alive at any time. *)
Lemma run_inv fuel nd ops k w :
  guards_bounded fuel nd ops fresh ->
  history fuel nd ops fresh !! k = Some w ->
  well_formed w /\ count_inv w /\ holds_counted w /\ Z.of_nat (live_guards w) < 2 ^ 31.
Proof.
  intros Hb Hk.
  destruct (history_wf_count fuel nd ops fresh fresh_well_formed fresh_count eq_refl Hb)
    as [_ Hall].
  destruct (Hall k w Hk) as (H1 & H2 & H3).
  split; [done|]. split; [done|]. split; [done|]. by eapply Hb.
Qed.

(** What holds in every world of a run with fewer than 2^64 [Advance]
    steps, however many guards there are. *)
Lemma run_chain_inv fuel nd ops k w :
  Z.of_nat (advances ops) < 2 ^ 64 ->
  history fuel nd ops fresh !! k = Some w ->
  chain_inv w.
Proof.
  intros Hadv Hk.
  assert (Hgen : generation fresh + Z.of_nat (advances ops) < 2 ^ 64)
    by (unfold generation; simpl; lia).
  by destruct (history_reach fuel nd ops fresh k w fresh_inv Hgen Hk).
Qed.

Lemma run_generation fuel nd ops k w :
  Z.of_nat (advances ops) < 2 ^ 64 ->
  history fuel nd ops fresh !! k = Some w ->
  0 <= generation w <= Z.of_nat (advances ops).
Proof.
  intros Hadv Hk.
  assert (Hgen : forall ops w0 k wk,
            chain_inv w0 -> 0 <= generation w0 ->
            generation w0 + Z.of_nat (advances ops) < 2 ^ 64 ->
            history fuel nd ops w0 !! k = Some wk ->
            0 <= generation wk <= generation w0 + Z.of_nat (advances ops)).
  { clear. induction ops as [|o ops IH]; intros w0 k wk Hinv H0 Hg Hk.
    - destruct k; [|done]. injection Hk as <-. simpl. lia.
    - destruct k as [|k].
      { rewrite history_head in Hk. injection Hk as <-. lia. }
      rewrite history_cons in Hk. simpl in Hk. rewrite advances_cons in *.
      destruct (step fuel o nd w0) as [[[] w1]|] eqn:Hstep; [|done].
      assert (Hg1 : generation w0 + Z.of_nat (is_advance o) < 2 ^ 64) by lia.
      destruct (step_inv _ _ _ _ _ Hinv Hg1 Hstep) as (H1 & H2 & H3).
      specialize (IH w1 k wk H1 ltac:(lia) ltac:(lia) Hk). lia. }
  specialize (Hgen ops fresh k w fresh_inv ltac:(done)). simpl in Hgen.
  unfold generation at 1 in Hgen. simpl in Hgen.
  specialize (Hgen ltac:(lia) Hk). unfold generation at 3 in Hgen. simpl in Hgen. lia.
Qed.

(** ** Every record is live or free *)

Lemma wf_free_list w c l fl : wf_at w c l fl -> free_list w = fl.
Proof.
  intros Hwf. apply walk_chain; [by apply (wf_free _ _ _ _ Hwf)|].
  eapply chain_length. by apply (wf_free _ _ _ _ Hwf).
Qed.

Lemma history_holds_counted fuel nd ops : forall w k wk,
  well_formed w -> holds_counted w ->
  history fuel nd ops w !! k = Some wk -> holds_counted wk.
Proof.
  induction ops as [|o ops IH]; intros w k wk Hwf Hn Hk.
  - destruct k; [|done]. by injection Hk as <-.
  - destruct k as [|k].
    { rewrite history_head in Hk. by injection Hk as <-. }
    rewrite history_cons in Hk. simpl in Hk.
    destruct (step fuel o nd w) as [[[] w1]|] eqn:Hstep; [|done].
    eapply IH; [by eapply step_wf| |done]. by eapply holds_counted_step.
Qed.

(** X1.  In every world an interleaving goes through, however long it is,
    each hold record is on the live chain or on the freelist and on one of
    them only, and it occurs there once; [_numHolds] is the number of hold
    records in its 32-bit type. *)
Theorem records_live_or_free fuel nd ops k w :
  history fuel nd ops fresh !! k = Some w ->
  live_chain w ++ free_list w ≡ₚ seq 0 (length (heap w)) /\
  _numHolds (handler w) = wrap32 (Z.of_nat (length (heap w))).
Proof.
  intros Hk. split.
  - destruct (reachable_well_formed fuel nd ops fresh k w fresh_well_formed Hk)
      as (c & l & fl & Hwf).
    rewrite (wf_live_chain _ _ _ _ Hwf), (wf_free_list _ _ _ _ Hwf).
    rewrite <- (assoc_L (++)). simpl.
    apply NoDup_Permutation; [by apply (wf_nodup _ _ _ _ Hwf)|apply NoDup_seq|].
    intros p. rewrite elem_of_seq. split.
    + intros Hp. split; [lia|]. simpl.
      replace (c ++ l :: fl) with ((c ++ [l]) ++ fl) in Hp by (by rewrite <- (assoc_L (++))).
      apply elem_of_app in Hp as [Hp|Hp].
      * eapply chain_lt; [by apply (wf_live _ _ _ _ Hwf)|done].
      * eapply chain_lt; [by apply (wf_free _ _ _ _ Hwf)|done].
    + intros [_ Hp]. by apply (wf_cover _ _ _ _ Hwf).
  - by apply (history_holds_counted fuel nd ops fresh k w fresh_well_formed).
Qed.

Lemma records_live_or_free_witness :
  exists w,
    last (history 1 false [TakeGuard; Advance; DropGuard 0; Advance; TakeGuard; Advance] fresh)
      = Some w /\
    live_chain w ++ free_list w ≡ₚ seq 0 (length (heap w)).
Proof.
  eexists. split; [by vm_compute|].
  apply (records_live_or_free 1 false
           [TakeGuard; Advance; DropGuard 0; Advance; TakeGuard; Advance] 6).
  by vm_compute.
Defined.

(** ** What incGeneration keeps *)

Lemma advance_case_live w c l fl w1 c1 l1 fl1 p :
  wf_at w c l fl ->
  advance_case w c l fl w1 c1 l1 fl1 ->
  p ∈ c ++ [l] ->
  word w1 p = word w p /\ p ∈ c1 ++ [l1] /\ (word w p <> 0 -> tag w1 p = tag w p).
Proof.
  intros Hwf Hcase Hp.
  assert (p < length (heap w))%nat as Hplt
    by (eapply chain_lt; [by apply (wf_live _ _ _ _ Hwf)|done]).
  destruct Hcase as [r Hr Hr0|r Hr Hr0 _|r f rf fl' Hr Hr0 -> Hrf].
  - split; [|split; [done|]].
    + unfold word; simpl. destruct (decide (l = p)) as [<-|Hne].
      * rewrite list_lookup_insert_eq by done. by rewrite Hr.
      * by rewrite list_lookup_insert_ne.
    + intros Hw. unfold tag; simpl.
      destruct (decide (l = p)) as [<-|Hne]; [|by rewrite list_lookup_insert_ne].
      pose proof (wf_valid _ _ _ _ Hwf l Hp) as Hv. unfold word in Hv, Hw.
      rewrite Hr in Hv, Hw. apply valid_spec in Hv.
      pose proof (Z.div_mod (hold_refCount r) 2 ltac:(lia)). lia.
  - split; [|split].
    + unfold word; simpl. destruct (decide (l = p)) as [<-|Hne].
      * rewrite list_lookup_insert_eq by (rewrite length_app; lia). by rewrite Hr.
      * rewrite list_lookup_insert_ne by done. by rewrite lookup_app_l.
    + apply elem_of_app. by left.
    + intros _. unfold tag; simpl. destruct (decide (l = p)) as [<-|Hne].
      * rewrite list_lookup_insert_eq by (rewrite length_app; lia). by rewrite Hr.
      * rewrite list_lookup_insert_ne by done. by rewrite lookup_app_l.
  - assert (p <> f) as Hpf.
    { intros ->. pose proof (wf_nodup _ _ _ _ Hwf) as Hnd.
      replace (c ++ l :: f :: fl') with ((c ++ [l]) ++ f :: fl') in Hnd
        by (by rewrite <- (assoc_L (++))).
      apply NoDup_app in Hnd as (_ & Hdis & _). apply (Hdis f Hp). by left. }
    assert (f < length (heap w))%nat as Hflt by (by eapply lookup_lt_Some).
    split; [|split].
    + unfold word; simpl. destruct (decide (l = p)) as [<-|Hne].
      * rewrite list_lookup_insert_eq by (by rewrite length_insert). by rewrite Hr.
      * rewrite list_lookup_insert_ne by done. by rewrite list_lookup_insert_ne.
    + apply elem_of_app. by left.
    + intros _. unfold tag; simpl. destruct (decide (l = p)) as [<-|Hne].
      * rewrite list_lookup_insert_eq by (by rewrite length_insert). by rewrite Hr.
      * rewrite list_lookup_insert_ne by done. by rewrite list_lookup_insert_ne.
Qed.

Lemma kept_keeps w c p : p ∈ c -> word w p <> 0 -> p ∈ kept w c.
Proof.
  induction c as [|q c IH]; [by intros ?%elem_of_nil|].
  intros Hp Hw. simpl. destruct (word w q =? 0) eqn:E; [|done].
  apply Z.eqb_eq in E. apply elem_of_cons in Hp as [->|Hp]; [done|by apply IH].
Qed.

Lemma kept_not_retired w c l p :
  NoDup (c ++ [l]) -> p ∈ kept w c ++ [l] -> p ∉ retired w c.
Proof.
  intros Hnd Hp HR. rewrite (retired_kept w c), <- (assoc_L (++)) in Hnd.
  apply NoDup_app in Hnd as (_ & Hdis & _). by apply (Hdis p).
Qed.

(** X2.  [incGeneration] on a well-formed world returns, and a live record
    whose word is not 0, one that has a reader, comes through it untouched:
    it is still on the live chain, with the same word and the same
    generation tag. *)
Theorem live_readers_survive_advance nd w :
  well_formed w ->
  exists w',
    incGeneration nd w = Ok (tt, w') /\
    forall p, p ∈ live_chain w -> word w p <> 0 ->
      p ∈ live_chain w' /\ word w' p = word w p /\ tag w' p = tag w p.
Proof.
  intros (c & l & fl & Hwf).
  destruct (incGeneration_wf nd _ _ _ _ Hwf) as (w1 & c1 & l1 & fl1 & Hcase & Hwf1 & Hinc).
  eexists. split; [exact Hinc|]. intros p Hp Hw.
  rewrite (wf_live_chain _ _ _ _ Hwf) in Hp.
  destruct (advance_case_live _ _ _ _ _ _ _ _ p Hwf Hcase Hp) as (Hw1 & Hin1 & Ht1).
  pose proof (sweep_wf _ _ _ _ Hwf1) as Hwf'.
  rewrite (wf_live_chain _ _ _ _ Hwf').
  assert (p ∈ kept w1 c1 ++ [l1]) as Hk.
  { apply elem_of_app in Hin1 as [Hin1|Hin1]; apply elem_of_app; [left|by right].
    apply kept_keeps; [done|]. by rewrite Hw1. }
  split; [done|].
  pose proof (kept_not_retired w1 c1 l1 p (wf_nodup_live _ _ _ _ Hwf1) Hk) as HnR.
  pose proof (wf_sweepable false _ _ _ _ Hwf1) as Hsw.
  pose proof (sweep_spec_swept _ _ _ _ Hsw) as Hs.
  split.
  - rewrite word_set_watermark. unfold word at 1.
    rewrite (swept_other _ _ _ _ Hs p HnR). fold (word w1 p). done.
  - rewrite (tag_sweep _ _ _ _ _ Hwf1). by apply Ht1.
Qed.

Lemma live_readers_survive_advance_witness :
  let w := mkWorld [mkHold 2 0 (Some 1%nat); mkHold 0 1 None]
             (mkHandler 1 0 (Some 1%nat) (Some 0%nat) None 2) [mkGuard (Some 0%nat)] in
  exists w', incGeneration false w = Ok (tt, w') /\ 0%nat ∈ live_chain w' /\ tag w' 0 = 0.
Proof.
  intros w.
  destruct (live_readers_survive_advance false w) as (w' & H1 & H2).
  - exists [0%nat], 1%nat, []. split; simpl.
    + done.
    + split; [done|]. eexists. split; [done|]. simpl.
      split; [done|]. eexists. split; [done|]. done.
    + done.
    + apply (bool_decide_unpack _). by vm_compute.
    + intros p Hp. assert (p = 0%nat \/ p = 1%nat) as [->| ->] by lia;
        apply (bool_decide_unpack _); by vm_compute.
    + intros p Hp. repeat (apply elem_of_cons in Hp as [->|Hp]; [done|]).
      by apply elem_of_nil in Hp.
    + by intros p ?%elem_of_nil.
  - exists w'. split; [exact H1|].
    destruct (H2 0%nat) as (Ha & _ & Hb).
    + apply (bool_decide_unpack _). by vm_compute.
    + by vm_compute.
    + split; [exact Ha|]. rewrite Hb. reflexivity.
Defined.

(** Checks [guards_bounded] on an interleaving of [n] operations by running
    it. *)
Tactic Notation "bounded_by_running" integer(n) :=
  let k := fresh "k" in
  let wk := fresh "wk" in
  let H := fresh "H" in
  intros k wk;
  do n (destruct k as [|k];
        [intros H; vm_compute in H; injection H as <-; vm_compute; reflexivity|]);
  intros H; vm_compute in H; discriminate H.

Lemma kept_snoc w c l : word w l <> 0 -> kept w (c ++ [l]) = kept w c ++ [l].
Proof.
  intros Hw. induction c as [|q c IH]; simpl.
  - by apply Z.eqb_neq in Hw as ->.
  - by destruct (word w q =? 0).
Qed.

Lemma kept_all_zero w c : (forall p, p ∈ c -> word w p = 0) -> kept w c = [].
Proof.
  induction c as [|q c IH]; intros H; simpl; [done|].
  rewrite (H q) by (by left). simpl. apply IH. intros p Hp. apply H. by right.
Qed.

Lemma sweep_word_last w c l fl : wf_at w c l fl ->
  word (set_watermark (sweep_spec c w)) l = word w l.
Proof.
  intros Hwf. pose proof (wf_sweepable false _ _ _ _ Hwf) as Hsw.
  pose proof (sweep_spec_swept _ _ _ _ Hsw) as Hs.
  rewrite word_set_watermark. unfold word.
  rewrite (swept_other _ _ _ _ Hs); [done|].
  eapply kept_not_retired; [by eapply wf_nodup_live|].
  apply elem_of_app. right. by left.
Qed.

Lemma sweep_heap_length w c l fl : wf_at w c l fl ->
  length (heap (set_watermark (sweep_spec c w))) = length (heap w).
Proof.
  intros Hwf. pose proof (wf_sweepable false _ _ _ _ Hwf) as Hsw.
  rewrite set_watermark_heap. by apply (swept_length _ _ _ _ (sweep_spec_swept _ _ _ _ Hsw)).
Qed.

Lemma sweep_last w c l fl : wf_at w c l fl ->
  _last (handler (set_watermark (sweep_spec c w))) = Some l.
Proof. intros Hwf. by apply (wf_last _ _ _ _ (sweep_wf _ _ _ _ Hwf)). Qed.

(** X3.  Take a run of whole operations on a new handler, one after the
    other, in which fewer than 2^31 guards are alive at any time, and a
    world [w] it goes through.  When [incGeneration] is called in [w] and the
    last record [l] has a live reader, a record [n] other than [l] becomes
    the last one: it is linked right behind [l] at the end of the live
    chain, carries the new generation and has no reader.  The heap grows by
    one record when the freelist is empty and keeps its size otherwise, a
    record of the freelist being used again. *)
Theorem advance_with_readers fuel nd ops k w :
  guards_bounded fuel nd ops fresh ->
  history fuel nd ops fresh !! k = Some w ->
  last_ref_count w <> 0 ->
  exists w' l n c',
    _last (handler w) = Some l /\
    incGeneration nd w = Ok (tt, w') /\
    _last (handler w') = Some n /\ n <> l /\
    live_chain w' = c' ++ [l; n] /\
    generation w' = wrap64 (generation w + 1) /\
    tag w' n = generation w' /\
    word w' n = 0 /\
    length (heap w') =
      (length (heap w) + match _free (handler w) with Some _ => 0 | None => 1 end)%nat.
Proof.
  intros Hb0 Hk0 Hz.
  destruct (run_inv _ _ _ _ _ Hb0 Hk0) as ((c & l & fl & Hwf) & Hc & _).
  unfold last_ref_count in Hz. rewrite (wf_last _ _ _ _ Hwf) in Hz.
  destruct (incGeneration_wf nd _ _ _ _ Hwf) as (w1 & c1 & l1 & fl1 & Hcase & Hwf1 & Hinc).
  assert (Hwl : word w l <> 0) by (intros E; by rewrite E in Hz).
  destruct (advance_case_live _ _ _ _ _ _ _ _ l Hwf Hcase
              ltac:(apply elem_of_app; right; by left)) as (Hw1 & _ & _).
  pose proof (sweep_wf _ _ _ _ Hwf1) as Hwf'.
  assert (Hgen' : generation (set_watermark (sweep_spec c1 w1)) = generation w1)
    by (by apply (sweep_generation _ _ _ _ Hwf1)).
  assert (Hlen' := sweep_heap_length _ _ _ _ Hwf1).
  assert (Hword' := sweep_word_last _ _ _ _ Hwf1).
  assert (Htag' := tag_sweep _ _ _ _ l1 Hwf1).
  assert (Hlive' := wf_live_chain _ _ _ _ Hwf').
  assert (Hnd1 := wf_nodup_live _ _ _ _ Hwf1).
  pose proof (wf_free _ _ _ _ Hwf) as Hfree.
  destruct Hcase as [r Hr Hr0|r Hr Hr0 ->|r f rf fl' Hr Hr0 -> Hrf].
  - unfold word in Hz. by rewrite Hr in Hz.
  - exists (set_watermark (sweep_spec (c ++ [l]) (link_new l r w))), l,
      (length (heap w)), (kept (link_new l r w) c).
    simpl in Hfree. rewrite Hfree.
    split; [by apply (wf_last _ _ _ _ Hwf)|]. split; [exact Hinc|].
    split; [by apply (wf_last _ _ _ _ Hwf')|].
    split; [apply lookup_lt_Some in Hr; lia|].
    split; [by rewrite Hlive', kept_snoc, <- (assoc_L (++)) by (by rewrite Hw1)|].
    rewrite Hgen', Htag', Hword', Hlen'.
    assert (l < length (heap w))%nat as Hlt by (by eapply lookup_lt_Some).
    assert (Hn : heap (link_new l r w) !! length (heap w) =
                 Some (mkHold 0 (wrap64 (_generation (handler w) + 1)) None)).
    { simpl. rewrite list_lookup_insert_ne by lia.
      by rewrite lookup_app_r, Nat.sub_diag by done. }
    unfold tag, word. rewrite Hn. simpl.
    split; [done|]. split; [done|]. split; [done|].
    rewrite length_insert, length_app. simpl. lia.
  - exists (set_watermark (sweep_spec (c ++ [l]) (link_free l r f rf w))), l, f,
      (kept (link_free l r f rf w) c).
    simpl in Hfree. destruct Hfree as [Hfree _]. rewrite Hfree.
    assert (f <> l) as Hfl.
    { intros ->. apply NoDup_app in Hnd1 as (_ & Hdis & _). apply (Hdis l).
      - apply elem_of_app. right. by left.
      - by left. }
    split; [by apply (wf_last _ _ _ _ Hwf)|]. split; [exact Hinc|].
    split; [by apply (wf_last _ _ _ _ Hwf')|].
    split; [done|].
    split; [by rewrite Hlive', kept_snoc, <- (assoc_L (++)) by (by rewrite Hw1)|].
    rewrite Hgen', Htag', Hword', Hlen'.
    assert (f < length (heap w))%nat as Hlt by (by eapply lookup_lt_Some).
    assert (Hfinv : valid (hold_refCount rf) = false).
    { pose proof (wf_invalid _ _ _ _ Hwf f ltac:(by left)) as Hv.
      unfold word in Hv. by rewrite Hrf in Hv. }
    destruct (cnt_invalid _ Hc _ _ Hrf Hfinv) as [Hrcf _].
    assert (Hn : heap (link_free l r f rf w) !! f =
                 Some (mkHold 0 (wrap64 (_generation (handler w) + 1)) None)).
    { simpl. rewrite list_lookup_insert_ne by done.
      rewrite list_lookup_insert_eq by done. by rewrite Hrcf. }
    unfold tag, word. rewrite Hn. simpl.
    split; [done|]. split; [done|]. split; [done|].
    rewrite !length_insert. lia.
Qed.

Lemma advance_with_readers_witness :
  let w := mkWorld [mkHold 2 0 None] (handler fresh) [mkGuard (Some 0%nat)] in
  exists w', incGeneration false w = Ok (tt, w') /\ generation w' = 1.
Proof.
  intros w.
  destruct (advance_with_readers 1 false [TakeGuard] 1%nat w)
    as (w' & l & n & c' & _ & H2 & _ & _ & _ & H6 & _).
  - bounded_by_running 2.
  - by vm_compute.
  - by vm_compute.
  - exists w'. split; [exact H2|]. rewrite H6. reflexivity.
Defined.

Lemma no_guards_no_words w c l fl :
  wf_at w c l fl -> count_inv w -> live_guards w = 0%nat ->
  forall p, p ∈ c ++ [l] -> word w p = 0.
Proof.
  intros Hwf Hc Hg p Hp. pose proof (wf_valid _ _ _ _ Hwf p Hp) as Hv.
  assert (p < length (heap w))%nat as Hlt
    by (eapply chain_lt; [by apply (wf_live _ _ _ _ Hwf)|done]).
  apply lookup_lt_is_Some in Hlt as [r Hr]. unfold word in *. rewrite Hr in *.
  destruct (cnt_valid _ Hc _ _ Hr Hv) as [E _]. pose proof (pins_live w p). lia.
Qed.

(** X4.  Take a run of whole operations on a new handler, one after the
    other, in which fewer than 2^31 guards are alive at any time, and a
    world [w] it goes through.  When no guard is alive in [w], one call of
    [incGeneration] leaves a live chain of a single record, the last one,
    and the watermark has caught up with the generation counter. *)
Theorem quiescent_advance_collapses fuel nd ops k w :
  guards_bounded fuel nd ops fresh ->
  history fuel nd ops fresh !! k = Some w ->
  live_guards w = 0%nat ->
  exists w' l,
    incGeneration nd w = Ok (tt, w') /\
    _last (handler w) = Some l /\
    live_chain w' = [l] /\
    generation w' = wrap64 (generation w + 1) /\
    first_used_generation w' = generation w' /\
    length (heap w') = length (heap w).
Proof.
  intros Hb0 Hk0 Hg.
  destruct (run_inv _ _ _ _ _ Hb0 Hk0) as ((c & l & fl & Hwf) & Hc & _).
  pose proof (no_guards_no_words _ _ _ _ Hwf Hc Hg) as Hzero.
  destruct (incGeneration_wf nd _ _ _ _ Hwf) as (w1 & c1 & l1 & fl1 & Hcase & Hwf1 & Hinc).
  assert (Hl0 : word w l = 0) by (apply Hzero, elem_of_app; right; by left).
  exists (set_watermark (sweep_spec c1 w1)), l. split; [exact Hinc|].
  split; [by apply (wf_last _ _ _ _ Hwf)|].
  rewrite (wf_live_chain _ _ _ _ (sweep_wf _ _ _ _ Hwf1)).
  rewrite (sweep_generation _ _ _ _ Hwf1), (sweep_fug _ _ _ _ Hwf1),
    (sweep_heap_length _ _ _ _ Hwf1).
  assert (Hk : forall p, p ∈ c -> word w1 p = 0 /\ p ∈ c1 ++ [l1]).
  { intros p Hp.
    destruct (advance_case_live _ _ _ _ _ _ _ _ p Hwf Hcase
                ltac:(apply elem_of_app; by left)) as (E & Hin & _).
    split; [|done]. rewrite E. apply Hzero, elem_of_app. by left. }
  destruct Hcase as [r Hr Hr0|r Hr Hr0 _|r f rf fl' Hr Hr0 _ _];
    unfold word in Hl0; rewrite Hr in Hl0; try (by rewrite Hl0 in Hr0).
  rewrite kept_all_zero by (intros p Hp; by destruct (Hk p Hp)).
  simpl. split; [done|]. split; [done|]. split; [|by rewrite length_insert].
  unfold tag, generation. simpl.
  by rewrite list_lookup_insert_eq by (by eapply lookup_lt_Some).
Qed.

Lemma quiescent_advance_collapses_witness :
  let w := mkWorld [mkHold 0 0 (Some 1%nat); mkHold 0 1 None]
             (mkHandler 1 0 (Some 1%nat) (Some 0%nat) None 2) [mkGuard None] in
  exists w', incGeneration false w = Ok (tt, w') /\ live_chain w' = [1%nat].
Proof.
  intros w.
  destruct (quiescent_advance_collapses 1 false [TakeGuard; Advance; DropGuard 0] 3%nat w)
    as (w' & l & H1 & H2 & H3 & _).
  - bounded_by_running 4.
  - by vm_compute.
  - by vm_compute.
  - exists w'. split; [exact H1|]. rewrite H3. injection H2 as <-. reflexivity.
Defined.

(** ** The total reference count *)

Lemma sum_holds_ok nd w c : forall fuel from acc,
  chain (heap w) from c None ->
  (length c <= fuel)%nat ->
  sum_holds fuel from acc nd w =
  Ok (fold_left (fun a p => wrap64 (a + word w p / 2)) c acc, w).
Proof.
  induction c as [|p c IH]; intros fuel from acc; simpl.
  - intros -> _. by destruct fuel.
  - intros [-> (r & Hp & Hc)] Hlen. destruct fuel as [|fuel]; [lia|].
    simpl. unfold bind at 1. rewrite (getRefCount_ok _ _ _ _ Hp).
    unfold bind at 1. rewrite (load_next_ok _ _ _ _ Hp).
    rewrite (IH fuel (hold_next r)); [|done|lia].
    assert (word w p = hold_refCount r) as -> by (unfold word; by rewrite Hp).
    done.
Qed.

Lemma sum_weight_empty c : sum_over (fun p => pin_weight (mkGuard None) p) c = 0%nat.
Proof. induction c as [|q c IH]; simpl; [done|]. by rewrite IH. Qed.

Lemma sum_weight_out c q :
  q ∉ c -> sum_over (fun p => pin_weight (mkGuard (Some q)) p) c = 0%nat.
Proof.
  induction c as [|a c IH]; intros Hq; simpl; [done|].
  apply not_elem_of_cons in Hq as [Hne Hq]. rewrite IH by done.
  by rewrite pin_weight_other.
Qed.

Lemma sum_weight_in c q :
  NoDup c -> q ∈ c -> sum_over (fun p => pin_weight (mkGuard (Some q)) p) c = 1%nat.
Proof.
  induction c as [|a c IH]; intros Hnd Hq; [by apply elem_of_nil in Hq|].
  apply NoDup_cons in Hnd as [Ha Hnd]. simpl.
  destruct (decide (q = a)) as [->|Hne].
  - rewrite pin_weight_same, sum_weight_out by done. done.
  - apply elem_of_cons in Hq as [?|Hq]; [done|].
    rewrite pin_weight_other by done. by rewrite IH.
Qed.

Lemma sum_npins_cons x gs c :
  sum_over (fun p => npins (x :: gs) p) c =
  (sum_over (fun p => pin_weight x p) c + sum_over (fun p => npins gs p) c)%nat.
Proof.
  induction c as [|a c IH]; simpl; [done|]. rewrite IH, npins_cons. lia.
Qed.

Lemma sum_npins_live gs c :
  NoDup c ->
  (forall g p, gs !! g = Some (mkGuard (Some p)) -> p ∈ c) ->
  sum_over (fun p => npins gs p) c = length (filter (fun x => _hold x <> None) gs).
Proof.
  intros Hnd. induction gs as [|x gs IH]; intros Hin.
  - clear. induction c as [|a c IH]; simpl; [done|]. by rewrite IH.
  - rewrite sum_npins_cons, filter_cons, IH.
    2:{ intros g p Hg. by apply (Hin (S g)). }
    destruct x as [[q|]].
    + rewrite sum_weight_in; [|done|by apply (Hin 0%nat)].
      by rewrite decide_True.
    + rewrite sum_weight_empty. by rewrite decide_False by (by intros ?).
Qed.

Lemma pinned_live w c l fl g p :
  wf_at w c l fl -> count_inv w ->
  guards w !! g = Some (mkGuard (Some p)) -> p ∈ c ++ [l].
Proof.
  intros Hwf Hc Hg. destruct (pinned_valid _ _ _ Hc Hg) as (r & Hr & Hv & _).
  pose proof (wf_cover _ _ _ _ Hwf p ltac:(by eapply lookup_lt_Some)) as Hin.
  replace (c ++ l :: fl) with ((c ++ [l]) ++ fl) in Hin by (by rewrite <- (assoc_L (++))).
  apply elem_of_app in Hin as [Hin|Hin]; [done|].
  pose proof (wf_invalid _ _ _ _ Hwf p Hin) as Hi. unfold word in Hi.
  rewrite Hr in Hi. congruence.
Qed.

Lemma fold_counts w c : forall acc : nat,
  count_inv w ->
  (forall p, p ∈ c -> exists r, heap w !! p = Some r /\ valid (hold_refCount r) = true) ->
  Z.of_nat acc + Z.of_nat (sum_over (fun p => pins w p) c) < 2 ^ 64 ->
  fold_left (fun a p => wrap64 (a + word w p / 2)) c (Z.of_nat acc) =
  Z.of_nat (acc + sum_over (fun p => pins w p) c).
Proof.
  induction c as [|p c IH]; intros acc Hc Hv Hb; simpl.
  - f_equal. lia.
  - destruct (Hv p ltac:(by left)) as (r & Hr & Hvr).
    destruct (cnt_valid _ Hc _ _ Hr Hvr) as [E _].
    assert (word w p = hold_refCount r) as -> by (unfold word; by rewrite Hr).
    rewrite E.
    replace (2 * Z.of_nat (pins w p)) with (Z.of_nat (pins w p) * 2) by lia.
    rewrite Z.div_mul by lia. simpl in Hb.
    unfold wrap64. rewrite Z.mod_small by lia.
    replace (Z.of_nat acc + Z.of_nat (pins w p)) with (Z.of_nat (acc + pins w p)) by lia.
    rewrite IH; [f_equal; lia|done| |lia].
    intros q Hq. apply Hv. by right.
Qed.

(** X5.  In every world of a run of whole operations on a new handler,
    one after the other, in which fewer than 2^31 guards are alive at any
    time, [getGenerationRefCount()] returns the number of guards that are
    alive, and changes nothing. *)
Theorem total_ref_count_counts_guards fuel nd ops k w :
  guards_bounded fuel nd ops fresh ->
  history fuel nd ops fresh !! k = Some w ->
  getGenerationRefCount_all nd w = Ok (Z.of_nat (live_guards w), w).
Proof.
  intros Hb0 Hk0.
  destruct (run_inv _ _ _ _ _ Hb0 Hk0) as ((c & l & fl & Hwf) & Hc & _ & Hb).
  unfold getGenerationRefCount_all. unfold bind at 1. simpl.
  rewrite (sum_holds_ok nd w (c ++ [l]));
    [|by apply (wf_live _ _ _ _ Hwf)|eapply chain_length; by apply (wf_live _ _ _ _ Hwf)].
  assert (Hsum : sum_over (fun p => pins w p) (c ++ [l]) = live_guards w).
  { apply sum_npins_live; [by eapply wf_nodup_live|].
    intros g p Hg. by eapply pinned_live. }
  change 0 with (Z.of_nat 0).
  rewrite fold_counts; [by rewrite Hsum|done| |rewrite Hsum; lia].
  intros p Hp.
  assert (p < length (heap w))%nat as Hlt
    by (eapply chain_lt; [by apply (wf_live _ _ _ _ Hwf)|done]).
  apply lookup_lt_is_Some in Hlt as [r Hr]. exists r. split; [done|].
  pose proof (wf_valid _ _ _ _ Hwf p Hp) as Hv. unfold word in Hv. by rewrite Hr in Hv.
Qed.

Lemma total_ref_count_counts_guards_witness :
  let w := mkWorld [mkHold 2 0 (Some 1%nat); mkHold 4 1 None]
             (mkHandler 1 0 (Some 1%nat) (Some 0%nat) None 2)
             [mkGuard (Some 0%nat); mkGuard (Some 1%nat); mkGuard (Some 1%nat)] in
  getGenerationRefCount_all false w = Ok (3, w).
Proof.
  intros w.
  apply (total_ref_count_counts_guards 1 false [TakeGuard; Advance; TakeGuard; TakeGuard] 4%nat w).
  - bounded_by_running 5.
  - by vm_compute.
Defined.

(** ** The order of the live chain *)

(** X6.  In every world of a run of whole operations on a new handler,
    one after the other, with fewer than 2^64 [Advance] steps and any
    number of guards, the generation tags grow strictly along the live chain,
    so that no two live records stand for the same generation; the chain
    starts at [_first], whose tag is the watermark, and ends at [_last],
    whose tag is the current generation; the watermark is at most the
    current generation. *)
Theorem chain_ordered_by_generation fuel nd ops k w :
  Z.of_nat (advances ops) < 2 ^ 64 ->
  history fuel nd ops fresh !! k = Some w ->
  StronglySorted (older w) (live_chain w) /\
  (exists f, _first (handler w) = Some f /\ head (live_chain w) = Some f /\
             first_used_generation w = tag w f) /\
  (exists l, _last (handler w) = Some l /\ last (live_chain w) = Some l /\
             tag w l = generation w) /\
  first_used_generation w <= generation w.
Proof.
  intros Hadv Hk0.
  destruct (run_chain_inv _ _ _ _ _ Hadv Hk0) as (c & l & fl & Hwf & Hsrt & Hfug).
  rewrite (wf_live_chain _ _ _ _ Hwf).
  split; [by apply (srt_sorted _ _ _ Hsrt)|]. split; [|split].
  - exists (hd l c). rewrite head_snoc. split; [|done].
    pose proof (wf_live _ _ _ _ Hwf) as Hlive.
    destruct c; simpl in *; by destruct Hlive as [-> _].
  - exists l. split; [by apply (wf_last _ _ _ _ Hwf)|]. split; [by rewrite last_snoc|].
    by apply (srt_last _ _ _ Hsrt).
  - rewrite Hfug, <- (srt_last _ _ _ Hsrt).
    apply (sorted_le_last w c l); [by apply (srt_sorted _ _ _ Hsrt)|apply hd_in].
Qed.

Lemma chain_ordered_by_generation_witness :
  let w := mkWorld [mkHold 2 0 (Some 1%nat); mkHold 4 1 None]
             (mkHandler 1 0 (Some 1%nat) (Some 0%nat) None 2)
             [mkGuard (Some 0%nat); mkGuard (Some 1%nat); mkGuard (Some 1%nat)] in
  first_used_generation w <= generation w.
Proof.
  intros w.
  apply (chain_ordered_by_generation 1 false [TakeGuard; Advance; TakeGuard; TakeGuard] 4%nat w).
  - simpl. lia.
  - by vm_compute.
Defined.

(** ** The reference count of a pinned generation *)

Lemma advance_case_tag w c l fl w1 c1 l1 fl1 p :
  advance_case w c l fl w1 c1 l1 fl1 ->
  tag w1 p = tag w p \/ tag w1 p = wrap64 (_generation (handler w) + 1).
Proof.
  intros Hcase. destruct Hcase as [r Hr Hr0|r Hr Hr0 _|r f rf fl' Hr Hr0 _ Hrf];
    unfold tag; simpl.
  - destruct (decide (l = p)) as [<-|Hne].
    + right. by rewrite list_lookup_insert_eq by (by eapply lookup_lt_Some).
    + left. by rewrite list_lookup_insert_ne.
  - assert (l < length (heap w))%nat as Hlt by (by eapply lookup_lt_Some).
    destruct (decide (l = p)) as [<-|Hne].
    + left. rewrite list_lookup_insert_eq by (rewrite length_app; lia). by rewrite Hr.
    + rewrite list_lookup_insert_ne by done.
      destruct (decide (p < length (heap w))%nat) as [Hp|Hp].
      * left. by rewrite lookup_app_l.
      * rewrite lookup_app_r by lia.
        destruct (p - length (heap w))%nat eqn:E; simpl.
        -- by right.
        -- left. rewrite lookup_ge_None_2 by lia. by destruct n.
  - assert (f < length (heap w))%nat as Hlt by (by eapply lookup_lt_Some).
    destruct (decide (l = p)) as [<-|Hne].
    + left. rewrite list_lookup_insert_eq
        by (rewrite length_insert; by eapply lookup_lt_Some). by rewrite Hr.
    + rewrite list_lookup_insert_ne by done.
      destruct (decide (f = p)) as [<-|Hne'].
      * right. by rewrite list_lookup_insert_eq.
      * left. by rewrite list_lookup_insert_ne.
Qed.

Lemma tags_nonneg_step fuel nd o w w' :
  well_formed w -> tags_nonneg w -> step fuel o nd w = Ok (tt, w') -> tags_nonneg w'.
Proof.
  intros Hwf Ht Hstep p.
  destruct (decide (o = Advance)) as [->|Hne].
  - destruct Hwf as (c & l & fl & Hwf).
    destruct (incGeneration_wf nd _ _ _ _ Hwf) as (w1 & c1 & l1 & fl1 & Hcase & Hwf1 & Hinc).
    simpl in Hstep. rewrite Hinc in Hstep. injection Hstep as <-.
    rewrite (tag_sweep _ _ _ _ _ Hwf1).
    destruct (advance_case_tag _ _ _ _ _ _ _ _ p Hcase) as [->| ->]; [apply Ht|].
    unfold wrap64. apply Z.mod_pos_bound. lia.
  - rewrite (shape_tag _ _ (sp_step fuel o Hne nd w tt w' Hstep)). apply Ht.
Qed.

Lemma history_tags_nonneg fuel nd ops : forall w k wk,
  well_formed w -> tags_nonneg w ->
  history fuel nd ops w !! k = Some wk -> tags_nonneg wk.
Proof.
  induction ops as [|o ops IH]; intros w k wk Hwf Ht Hk.
  - destruct k; [|done]. by injection Hk as <-.
  - destruct k as [|k].
    { rewrite history_head in Hk. by injection Hk as <-. }
    rewrite history_cons in Hk. simpl in Hk.
    destruct (step fuel o nd w) as [[[] w1]|] eqn:Hstep; [|done].
    eapply IH; [by eapply step_wf| |done]. by eapply tags_nonneg_step.
Qed.

Lemma fresh_tags_nonneg : tags_nonneg fresh.
Proof. intros [|[|p]]; by vm_compute. Qed.

Lemma find_sorted w cs p :
  StronglySorted (older w) cs -> p ∈ cs ->
  List.find (fun q => tag w q =? tag w p) cs = Some p.
Proof.
  induction cs as [|a cs IH]; intros Hs Hp; [by apply elem_of_nil in Hp|].
  apply StronglySorted_cons in Hs as [Hall Hs]. simpl.
  destruct (tag w a =? tag w p) eqn:E.
  - apply Z.eqb_eq in E. apply elem_of_cons in Hp as [->|Hp]; [done|].
    rewrite Forall_forall in Hall. specialize (Hall p Hp). unfold older in Hall. lia.
  - apply Z.eqb_neq in E. apply elem_of_cons in Hp as [->|Hp]; [done|by apply IH].
Qed.

Lemma sdiff_nonpos a b : 0 <= a <= b -> b < 2 ^ 63 -> sdiff a b <= 0.
Proof.
  intros Hab Hb. unfold sdiff, to_sgeneration, wrap64.
  destruct (decide (a = b)) as [->|Hne].
  - rewrite Z.sub_diag. by vm_compute.
  - assert (E : (a - b) mod 2 ^ 64 = a - b + 2 ^ 64).
    { symmetry. apply (Zmod_unique _ _ (-1)); lia. }
    rewrite E. destruct (a - b + 2 ^ 64 <? 2 ^ 63) eqn:E'; [apply Z.ltb_lt in E'|]; lia.
Qed.

(** X7.  In every world of a run of whole operations on a new handler,
    one after the other, with fewer than 2^63 [Advance] steps and fewer
    than 2^31 guards alive at any time, the generation of a record that a
    guard pins is never reported as unused: [getGenerationRefCount] of that
    generation returns the number of guards that pin the record, which is
    at least 1. *)
Theorem pinned_generation_ref_count fuel nd ops k w g p :
  Z.of_nat (advances ops) < 2 ^ 63 ->
  guards_bounded fuel nd ops fresh ->
  history fuel nd ops fresh !! k = Some w ->
  guards w !! g = Some (mkGuard (Some p)) ->
  getGenerationRefCount (tag w p) nd w = Ok (Z.of_nat (pins w p), w) /\
  (0 < pins w p)%nat.
Proof.
  intros Hadv Hb0 Hk0 Hg.
  destruct (run_inv _ _ _ _ _ Hb0 Hk0) as (_ & Hc & _).
  assert (Hadv' : Z.of_nat (advances ops) < 2 ^ 64) by lia.
  destruct (run_chain_inv _ _ _ _ _ Hadv' Hk0) as (c & l & fl & Hwf & Hsrt & Hfug).
  pose proof (run_generation _ _ _ _ _ Hadv' Hk0) as Hgen.
  assert (Htn : tags_nonneg w)
    by (by apply (history_tags_nonneg fuel nd ops fresh k w fresh_well_formed
                    fresh_tags_nonneg)).
  pose proof (pinned_live _ _ _ _ _ _ Hwf Hc Hg) as Hin.
  destruct (pinned_valid _ _ _ Hc Hg) as (r & Hr & Hv & Hrc & _ & Hpos).
  split; [|done].
  pose proof (sorted_le_last _ _ _ _ (srt_sorted _ _ _ Hsrt) Hin) as Hle.
  pose proof (sorted_head_le _ _ _ _ (srt_sorted _ _ _ Hsrt) Hin) as Hge.
  rewrite (srt_last _ _ _ Hsrt) in Hle. rewrite <- Hfug in Hge.
  assert (H1 : sdiff (tag w p) (generation w) <= 0).
  { apply sdiff_nonpos; [split; [apply Htn|done]|lia]. }
  assert (H2 : sdiff (first_used_generation w) (tag w p) <= 0).
  { apply sdiff_nonpos; [|lia]. split; [|done]. rewrite Hfug. apply Htn. }
  unfold getGenerationRefCount. unfold bind at 1. simpl.
  fold (generation w). fold (sdiff (tag w p) (generation w)).
  destruct (sdiff (tag w p) (generation w) >? 0) eqn:E1; [apply Z.gtb_lt in E1; lia|].
  unfold bind at 1. simpl.
  fold (first_used_generation w). fold (sdiff (first_used_generation w) (tag w p)).
  destruct (sdiff (first_used_generation w) (tag w p) >? 0) eqn:E2;
    [apply Z.gtb_lt in E2; lia|].
  unfold bind at 1. simpl.
  rewrite (find_hold_ok nd w (tag w p) (c ++ [l]));
    [|by apply (wf_live _ _ _ _ Hwf)|eapply chain_length; by apply (wf_live _ _ _ _ Hwf)].
  rewrite (find_sorted _ _ _ (srt_sorted _ _ _ Hsrt) Hin).
  unfold word. rewrite Hr, Hrc.
  replace (2 * Z.of_nat (pins w p)) with (Z.of_nat (pins w p) * 2) by lia.
  by rewrite Z.div_mul by lia.
Qed.

Lemma pinned_generation_ref_count_witness :
  let w := mkWorld [mkHold 2 0 (Some 1%nat); mkHold 4 1 None]
             (mkHandler 1 0 (Some 1%nat) (Some 0%nat) None 2)
             [mkGuard (Some 0%nat); mkGuard (Some 1%nat); mkGuard (Some 1%nat)] in
  getGenerationRefCount 1 false w = Ok (2, w).
Proof.
  intros w.
  apply (pinned_generation_ref_count 1 false [TakeGuard; Advance; TakeGuard; TakeGuard] 4%nat w 1%nat 1%nat).
  - simpl. lia.
  - bounded_by_running 5.
  - by vm_compute.
  - reflexivity.
Defined.

(** ** The destructor of the handler *)

Lemma wf_perm w c l fl : wf_at w c l fl -> c ++ l :: fl ≡ₚ seq 0 (length (heap w)).
Proof.
  intros Hwf.
  apply NoDup_Permutation; [by apply (wf_nodup _ _ _ _ Hwf)|apply NoDup_seq|].
  intros p. rewrite elem_of_seq. split.
  - intros Hp. split; [lia|]. simpl.
    replace (c ++ l :: fl) with ((c ++ [l]) ++ fl) in Hp by (by rewrite <- (assoc_L (++))).
    apply elem_of_app in Hp as [Hp|Hp].
    + eapply chain_lt; [by apply (wf_live _ _ _ _ Hwf)|done].
    + eapply chain_lt; [by apply (wf_free _ _ _ _ Hwf)|done].
  - intros [_ Hp]. by apply (wf_cover _ _ _ _ Hwf).
Qed.

Lemma check_alive_ok nd w deleted p :
  p ∉ deleted -> check_alive deleted p nd w = Ok (tt, w).
Proof. intros H. unfold check_alive. by rewrite bool_decide_eq_false_2. Qed.

Lemma delete_hold_ok nd w deleted p r :
  p ∉ deleted -> heap w !! p = Some r ->
  delete_hold deleted p nd w =
  if nd || (hold_refCount r / 2 =? 0) then Ok (p :: deleted, w) else Err AssertionFailed.
Proof.
  intros Hp Hr. unfold delete_hold. unfold bind at 1. rewrite (check_alive_ok _ _ _ _ Hp).
  unfold bind at 1. rewrite (getRefCount_ok _ _ _ _ Hr).
  unfold bind, assert_. by destruct (nd || _).
Qed.

Lemma free_all_ok nd hp gs : forall fl fuel h deleted,
  chain hp (_free h) fl None ->
  (forall p r, p ∈ fl -> hp !! p = Some r -> hold_refCount r = 1) ->
  NoDup fl ->
  (forall p, p ∈ fl -> p ∉ deleted) ->
  (length fl <= fuel)%nat ->
  is_uint32 (_numHolds h) ->
  free_all fuel deleted nd (mkWorld hp h gs) =
  Ok (rev fl ++ deleted,
      mkWorld hp
        (mkHandler (_generation h) (_firstUsedGeneration h) (_last h) (_first h) None
           (wrap32 (_numHolds h - Z.of_nat (length fl))))
        gs).
Proof.
  induction fl as [|p fl IH]; intros fuel h deleted Hch Hw Hnd Hdis Hfuel Hn.
  - simpl in Hch. destruct h as [g fu la fi fr n]. simpl in *. subst fr.
    rewrite Z.sub_0_r. unfold wrap32. unfold is_uint32 in Hn.
    rewrite Z.mod_small by done. by destruct fuel.
  - destruct Hch as [Hfree (r & Hr & Hch)].
    destruct fuel as [|fuel]; [simpl in Hfuel; lia|].
    apply NoDup_cons in Hnd as [Hp Hnd].
    assert (Hpd : p ∉ deleted) by (apply Hdis; by left).
    destruct h as [g fu la fi fr n]. simpl in Hfree, Hn. subst fr.
    cbn [free_all]. unfold bind at 1. unfold load_free, bind at 1. simpl.
    unfold bind at 1. rewrite (check_alive_ok _ _ _ _ Hpd).
    unfold bind at 1. rewrite (load_next_ok nd _ p r) by done.
    unfold bind at 1. unfold store_free, bind at 1. simpl.
    unfold bind at 1. unfold dec_numHolds, bind at 1. simpl.
    unfold bind at 1. rewrite (delete_hold_ok _ _ _ _ r) by done.
    rewrite (Hw p r) by (by left || done).
    replace (nd || (1 / 2 =? 0)) with true by (by destruct nd).
    rewrite (IH fuel _ (p :: deleted)); simpl.
    + f_equal. f_equal; [by rewrite <- (assoc_L (++))|].
      f_equal. f_equal. unfold wrap32. rewrite Zminus_mod_idemp_l. f_equal. lia.
    + done.
    + intros q rq Hq. apply Hw. by right.
    + done.
    + intros q Hq [->|Hqd]%elem_of_cons; [done|]. by apply (Hdis q); [right|].
    + simpl in Hfuel. lia.
    + unfold wrap32, is_uint32. apply Z.mod_pos_bound. lia.
Qed.

Arguments free_all : simpl never.

Lemma dtor_swept nd w l fl :
  wf_at w [] l fl -> count_inv w -> holds_counted w ->
  (first <- load_first;;
   last <- load_last;;
   assert_ (bool_decide (first = last));;
   deleted <- (fun nd w => free_all (S (length (heap w))) [] nd w);;
   h <- get_handler;;
   assert_ (_numHolds h =? 1);;
   p <- deref first;;
   delete_hold deleted p) nd w =
  if nd || (word w l / 2 =? 0)
  then Ok (l :: rev fl,
           mkWorld (heap w)
             (mkHandler (_generation (handler w)) (_firstUsedGeneration (handler w))
                (Some l) (Some l) None 1)
             (guards w))
  else Err AssertionFailed.
Proof.
  intros Hwf Hc Hn.
  pose proof (wf_last _ _ _ _ Hwf) as Hl.
  pose proof (wf_live _ _ _ _ Hwf) as Hlive. simpl in Hlive.
  destruct Hlive as [Hf (r & Hr & _)].
  pose proof (wf_nodup _ _ _ _ Hwf) as Hnd. simpl in Hnd.
  apply NoDup_cons in Hnd as [Hlfl Hnd].
  pose proof (Permutation_length (wf_perm _ _ _ _ Hwf)) as Hlen.
  rewrite length_seq in Hlen. simpl in Hlen.
  unfold holds_counted in Hn.
  destruct w as [hp h gs]. simpl in *.
  unfold bind at 1. unfold load_first, bind at 1. simpl.
  unfold bind at 1. unfold load_last, bind at 1. simpl.
  rewrite Hf, Hl. rewrite bool_decide_eq_true_2 by done.
  unfold bind at 1. unfold assert_ at 1. rewrite orb_true_r.
  unfold bind at 1. cbn [heap].
  rewrite (free_all_ok nd hp gs fl (S (length hp)) h []).
  - rewrite Hn, <- Hlen.
    assert (E : wrap32 (wrap32 (Z.of_nat (S (length fl))) - Z.of_nat (length fl)) = 1).
    { unfold wrap32. rewrite Zminus_mod_idemp_l.
      replace (Z.of_nat (S (length fl)) - Z.of_nat (length fl)) with 1 by lia. done. }
    rewrite E, Hf, Hl.
    unfold bind at 1. simpl.
    unfold bind at 1. unfold assert_ at 1. simpl. rewrite orb_true_r.
    unfold bind at 1. simpl.
    rewrite (delete_hold_ok _ _ _ _ r); simpl; [|rewrite app_nil_r|done].
    + unfold word. simpl. rewrite Hr. by rewrite app_nil_r.
    + intros Hin. apply Hlfl. apply list_elem_of_In. apply in_rev.
      by apply list_elem_of_In.
  - by apply (wf_free _ _ _ _ Hwf).
  - intros p rp Hp Hrp.
    pose proof (wf_invalid _ _ _ _ Hwf p Hp) as Hv. unfold word in Hv. simpl in Hv.
    rewrite Hrp in Hv. by destruct (cnt_invalid _ Hc p rp Hrp Hv).
  - done.
  - intros p _ Hp. by apply elem_of_nil in Hp.
  - lia.
  - rewrite Hn. unfold wrap32, is_uint32. apply Z.mod_pos_bound. lia.
Qed.

Lemma sweep_holds_counted w c l fl :
  wf_at w c l fl -> holds_counted w -> holds_counted (set_watermark (sweep_spec c w)).
Proof.
  intros Hwf Hn. unfold holds_counted in *.
  pose proof (wf_sweepable false _ _ _ _ Hwf) as Hsw.
  pose proof (sweep_spec_swept _ _ _ _ Hsw) as Hs.
  destruct (swept_first_in _ _ _ _ _ Hsw Hs) as (q & Hq & _).
  rewrite (set_watermark_handler _ _ Hq), set_watermark_heap. simpl.
  by rewrite (swept_numHolds _ _ _ _ Hs), (swept_length _ _ _ _ Hs).
Qed.

(** X8.  Take a run of whole operations on a new handler, one after the
    other, in which fewer than 2^31 guards are alive at any time, and a
    world [w] it goes through in which no guard is alive.  The destructor
    of the handler, run in [w], returns without tripping an assertion and
    deletes every hold record of the heap exactly once: the records of the
    live chain are first moved to the freelist, save the last one, the
    freelist is deleted, then the last record. *)
Theorem destructor_deletes_every_record fuel nd ops k w :
  guards_bounded fuel nd ops fresh ->
  history fuel nd ops fresh !! k = Some w ->
  live_guards w = 0%nat ->
  exists deleted w',
    GenerationHandler_dtor nd w = Ok (deleted, w') /\
    deleted ≡ₚ seq 0 (length (heap w)) /\
    _free (handler w') = None /\ _numHolds (handler w') = 1.
Proof.
  intros Hb0 Hk0 Hg.
  destruct (run_inv _ _ _ _ _ Hb0 Hk0) as ((c & l & fl & Hwf) & Hc & Hn & _).
  pose proof (sweep_wf _ _ _ _ Hwf) as Hwf1.
  pose proof (sweep_count _ _ _ _ Hwf Hc) as Hc1.
  pose proof (sweep_holds_counted _ _ _ _ Hwf Hn) as Hn1.
  pose proof (no_guards_no_words _ _ _ _ Hwf Hc Hg) as Hz.
  rewrite (kept_all_zero w c) in Hwf1
    by (intros p Hp; apply Hz, elem_of_app; by left).
  unfold GenerationHandler_dtor. unfold bind at 1.
  rewrite (updateFirstUsedGeneration_ok nd w c l) by (by eapply wf_sweepable).
  rewrite (dtor_swept nd _ l _ Hwf1 Hc1 Hn1).
  rewrite (sweep_word_last _ _ _ _ Hwf), (Hz l) by (apply elem_of_app; right; by left).
  replace (nd || (0 / 2 =? 0)) with true by (by destruct nd).
  eexists _, _. split; [done|]. split; [|done].
  rewrite <- (sweep_heap_length _ _ _ _ Hwf), <- (wf_perm _ _ _ _ Hwf1). simpl.
  constructor. symmetry. apply Permutation_rev.
Qed.

Lemma destructor_deletes_every_record_witness :
  let w := mkWorld [mkHold 0 0 (Some 1%nat); mkHold 0 2 (Some 2%nat); mkHold 0 3 None]
             (mkHandler 3 0 (Some 2%nat) (Some 0%nat) None 3)
             [mkGuard None; mkGuard None] in
  exists deleted w',
    GenerationHandler_dtor false w = Ok (deleted, w') /\ deleted ≡ₚ [0; 1; 2]%nat.
Proof.
  intros w.
  destruct (destructor_deletes_every_record 1 false
              [TakeGuard; Advance; Advance; TakeGuard; Advance; DropGuard 0; DropGuard 1]
              7%nat w) as (d & w' & H1 & H2 & _).
  - bounded_by_running 8.
  - by vm_compute.
  - reflexivity.
  - exists d, w'. split; [exact H1|exact H2].
Defined.

(** X9.  Take a run of whole operations on a new handler, one after the
    other, with assertions enabled, in which fewer than 2^31 guards are
    alive at any time, and a world [w] it goes through in which a guard
    holds a pin.  The destructor of the handler never returns in [w]: it
    stops at one of its assertions. *)
Theorem destructor_with_live_guard_asserts fuel ops k w g p :
  guards_bounded fuel false ops fresh ->
  history fuel false ops fresh !! k = Some w ->
  guards w !! g = Some (mkGuard (Some p)) ->
  GenerationHandler_dtor false w = Err AssertionFailed.
Proof.
  intros Hb0 Hk0 Hg.
  destruct (run_inv _ _ _ _ _ Hb0 Hk0) as ((c & l & fl & Hwf) & Hc & Hn & _).
  pose proof (sweep_wf _ _ _ _ Hwf) as Hwf1.
  pose proof (sweep_count _ _ _ _ Hwf Hc) as Hc1.
  pose proof (sweep_holds_counted _ _ _ _ Hwf Hn) as Hn1.
  pose proof (pinned_live _ _ _ _ _ _ Hwf Hc Hg) as Hin.
  destruct (pinned_valid _ _ _ Hc Hg) as (r & Hr & Hv & Hrc & Hlt & Hpos).
  assert (Hw : word w p / 2 <> 0).
  { unfold word. rewrite Hr, Hrc.
    replace (2 * Z.of_nat (pins w p)) with (Z.of_nat (pins w p) * 2) by lia.
    rewrite Z.div_mul by lia. lia. }
  assert (Hw0 : word w p <> 0) by (intros E; by rewrite E in Hw).
  unfold GenerationHandler_dtor. unfold bind at 1.
  rewrite (updateFirstUsedGeneration_ok false w c l) by (by eapply wf_sweepable).
  destruct (kept w c) as [|q s] eqn:Ek.
  - rewrite (dtor_swept false _ l _ Hwf1 Hc1 Hn1).
    rewrite (sweep_word_last _ _ _ _ Hwf).
    apply elem_of_app in Hin as [Hin|Hin].
    + pose proof (kept_keeps w c p Hin Hw0) as Hk. rewrite Ek in Hk.
      by apply elem_of_nil in Hk.
    + apply list_elem_of_singleton in Hin as ->.
      apply Z.eqb_neq in Hw. by rewrite Hw.
  - pose proof (wf_last _ _ _ _ Hwf1) as Hl1.
    pose proof (wf_live _ _ _ _ Hwf1) as Hlive. simpl in Hlive.
    destruct Hlive as [Hf _].
    pose proof (wf_nodup_live _ _ _ _ Hwf1) as Hnd. simpl in Hnd.
    apply NoDup_cons in Hnd as [Hq _].
    unfold bind at 1. unfold load_first, bind at 1. simpl.
    unfold bind at 1. unfold load_last, bind at 1. simpl.
    rewrite Hf, Hl1. rewrite bool_decide_eq_false_2; [done|].
    intros [= ->]. apply Hq, elem_of_app. right. by left.
Qed.

Lemma destructor_with_live_guard_asserts_witness :
  GenerationHandler_dtor false
    (mkWorld [mkHold 2 0 (Some 1%nat); mkHold 0 1 None]
       (mkHandler 1 0 (Some 1%nat) (Some 0%nat) None 2)
       [mkGuard (Some 0%nat)]) = Err AssertionFailed.
Proof.
  apply (destructor_with_live_guard_asserts 1 [TakeGuard; Advance] 2%nat _ 0%nat 0%nat).
  - bounded_by_running 3.
  - by vm_compute.
  - reflexivity.
Defined.

(** ** The words stay in range

    Every store to a word goes through the 32-bit arithmetic of
    [fetch_add] and [fetch_sub], or writes 1: whatever the number of
    guards, a word is a [uint32_t] value. *)

Lemma wrap32_uint32 z : is_uint32 (wrap32 z).
Proof. unfold is_uint32, wrap32. apply Z.mod_pos_bound. lia. Qed.

Lemma words_insert w p r h gs :
  words_uint32 w -> is_uint32 (hold_refCount r) ->
  words_uint32 (mkWorld (<[p := r]> (heap w)) h gs).
Proof.
  intros Hw Hr q r' Hq. simpl in Hq.
  apply list_lookup_insert_Some in Hq as [(_ & <- & _)|(_ & Hq)]; [done|by eapply Hw].
Qed.

Lemma kw_ret {A} (a : A) : keeps_words (ret a).
Proof. by intros nd w a' w' [= _ <-]. Qed.

Lemma kw_fail {A} e : keeps_words (@fail A e).
Proof. by intros nd w a w'. Qed.

Lemma kw_bind {A B} (m : M A) (f : A -> M B) :
  keeps_words m -> (forall a, keeps_words (f a)) -> keeps_words (bind m f).
Proof.
  intros Hm Hf nd w b w'. unfold bind.
  destruct (m nd w) as [[a w1]|] eqn:E; [|done].
  intros H Hw. eapply Hf; [done|]. by eapply Hm.
Qed.

Lemma kw_assert b : keeps_words (assert_ b).
Proof.
  intros nd w a w'. unfold assert_. destruct (nd || b); [|done]. by intros [= _ <-].
Qed.

Lemma kw_deref p : keeps_words (deref p).
Proof. destruct p; [apply kw_ret|apply kw_fail]. Qed.

Lemma kw_get_hold p : keeps_words (get_hold p).
Proof.
  intros nd w a w'. unfold get_hold. destruct (heap w !! p); [|done]. by intros [= _ <-].
Qed.

Lemma kw_get_handler : keeps_words get_handler.
Proof. by intros nd w a w' [= _ <-]. Qed.

Lemma kw_put_handler h : keeps_words (put_handler h).
Proof. by intros nd w a w' [= _ <-]. Qed.

Lemma kw_get_guard g : keeps_words (get_guard g).
Proof.
  intros nd w a w'. unfold get_guard. destruct (guards w !! g); [|done]. by intros [= _ <-].
Qed.

Lemma kw_put_guard g x : keeps_words (put_guard g x).
Proof. by intros nd w a w' [= _ <-]. Qed.

Lemma kw_alloc_guard x : keeps_words (alloc_guard x).
Proof. by intros nd w a w' [= _ <-]. Qed.

Lemma kw_has_guard g : keeps_words (has_guard g).
Proof. by intros nd w a w' [= _ <-]. Qed.

Lemma kw_fetch_add p d : keeps_words (fetch_add p d).
Proof.
  intros nd w a w'. unfold fetch_add, bind, get_hold, put_hold.
  destruct (heap w !! p) as [r|] eqn:E; [|done]. intros [= _ <-] Hw.
  apply words_insert; [done|apply wrap32_uint32].
Qed.

Lemma kw_fetch_sub p d : keeps_words (fetch_sub p d).
Proof.
  intros nd w a w'. unfold fetch_sub, bind, get_hold, put_hold.
  destruct (heap w !! p) as [r|] eqn:E; [|done]. intros [= _ <-] Hw.
  apply words_insert; [done|apply wrap32_uint32].
Qed.

Lemma kw_compare_exchange_strong p e : keeps_words (compare_exchange_strong p e 1).
Proof.
  intros nd w a w'. unfold compare_exchange_strong, bind, get_hold, put_hold.
  destruct (heap w !! p) as [r|] eqn:E; [|done].
  destruct (hold_refCount r =? e); intros [= _ <-] Hw; [|done].
  apply words_insert; [done|]. simpl. unfold is_uint32. lia.
Qed.

Lemma kw_store_generation p g : keeps_words (store_generation p g).
Proof.
  intros nd w a w'. unfold store_generation, bind, get_hold, put_hold.
  destruct (heap w !! p) as [r|] eqn:E; [|done]. intros [= _ <-] Hw.
  apply words_insert; [done|]. simpl. by apply (Hw p r).
Qed.

Lemma kw_store_next p n : keeps_words (store_next p n).
Proof.
  intros nd w a w'. unfold store_next, bind, get_hold, put_hold.
  destruct (heap w !! p) as [r|] eqn:E; [|done]. intros [= _ <-] Hw.
  apply words_insert; [done|]. simpl. by apply (Hw p r).
Qed.

Lemma kw_new_GenerationHold : keeps_words new_GenerationHold.
Proof.
  intros nd w a w' [= _ <-] Hw q r Hq. simpl in Hq.
  apply lookup_app_Some in Hq as [Hq|[_ Hq]]; [by eapply Hw|].
  apply list_lookup_singleton_Some in Hq as [_ <-]. simpl. unfold is_uint32. lia.
Qed.

Create HintDb words.
#[local] Hint Resolve kw_ret kw_fail kw_assert kw_deref kw_get_hold kw_get_handler
  kw_put_handler kw_get_guard kw_put_guard kw_alloc_guard kw_has_guard kw_fetch_add
  kw_fetch_sub kw_compare_exchange_strong kw_store_generation kw_store_next
  kw_new_GenerationHold : words.

Ltac words :=
  repeat first
    [ solve [auto with words]
    | apply kw_bind; [|intros ?]
    | match goal with
      | |- keeps_words (if ?b then _ else _) => destruct b
      | |- keeps_words (match ?x with _ => _ end) => destruct x
      end ].

Lemma kw_setValid p : keeps_words (setValid p).
Proof. unfold setValid, load_refCount. words. Qed.

Lemma kw_setInvalid p : keeps_words (setInvalid p).
Proof. unfold setInvalid, load_refCount. words. Qed.

Lemma kw_copy p : keeps_words (copy p).
Proof. unfold copy. words. Qed.

Lemma kw_Guard_from_hold p : keeps_words (Guard_from_hold p).
Proof. unfold Guard_from_hold, acquire, release. words. Qed.

Lemma kw_Guard_cleanup g : keeps_words (Guard_cleanup g).
Proof. unfold Guard_cleanup, release. words. Qed.

#[local] Hint Resolve kw_setValid kw_setInvalid kw_copy kw_Guard_from_hold
  kw_Guard_cleanup : words.

Lemma kw_Guard_move_assign g rhs : keeps_words (Guard_move_assign g rhs).
Proof. unfold Guard_move_assign. words. Qed.

#[local] Hint Resolve kw_Guard_move_assign : words.

Lemma kw_takeGuard_retry fuel g : keeps_words (takeGuard_retry fuel g).
Proof.
  induction fuel as [|fuel IH]; simpl; unfold Guard_valid, Guard_dtor, load_last; words.
Qed.

Lemma kw_sweep fuel : keeps_words (sweep fuel).
Proof.
  induction fuel as [|fuel IH]; simpl; [apply kw_fail|].
  unfold load_first, load_last, load_next, load_free, store_first, store_free. words.
Qed.

Lemma kw_updateFirstUsedGeneration : keeps_words updateFirstUsedGeneration.
Proof.
  unfold updateFirstUsedGeneration. apply kw_bind.
  - intros nd w a w' H. by eapply kw_sweep.
  - intros _. unfold load_first, load_generation, store_firstUsedGeneration. words.
Qed.

#[local] Hint Resolve kw_takeGuard_retry kw_updateFirstUsedGeneration : words.

Lemma kw_incGeneration : keeps_words incGeneration.
Proof.
  unfold incGeneration, getNextGeneration, getCurrentGeneration, load_last, getRefCount,
    load_refCount, set_generation, load_free, inc_numHolds, load_next, store_free,
    store_last.
  words.
Qed.

Lemma kw_step fuel o : keeps_words (step fuel o).
Proof.
  destruct o;
    unfold step, when_guard, takeGuard, load_last, Guard_dtor, Guard_copy_ctor,
      Guard_move_ctor, Guard_copy_assign;
    words; apply kw_incGeneration.
Qed.

Lemma fresh_words : words_uint32 fresh.
Proof.
  intros [|p] r Hr; [|done]. injection Hr as <-. simpl. unfold is_uint32. lia.
Qed.

Lemma run_words fuel nd ops : forall w k wk,
  words_uint32 w -> history fuel nd ops w !! k = Some wk -> words_uint32 wk.
Proof.
  induction ops as [|o ops IH]; intros w k wk Hw Hk.
  - destruct k; [|done]. by injection Hk as <-.
  - destruct k as [|k].
    { rewrite history_head in Hk. by injection Hk as <-. }
    rewrite history_cons in Hk. simpl in Hk.
    destruct (step fuel o nd w) as [[[] w1]|] eqn:Hstep; [|done].
    eapply IH; [|done]. by eapply kw_step.
Qed.

(** ** Taking and moving guards *)

Lemma run_last fuel nd ops k w :
  Z.of_nat (advances ops) < 2 ^ 64 ->
  history fuel nd ops fresh !! k = Some w ->
  exists l r, _last (handler w) = Some l /\ heap w !! l = Some r /\
              is_uint32 (hold_refCount r) /\ valid (hold_refCount r) = true /\
              hold_generation r = generation w.
Proof.
  intros Hadv Hk0.
  destruct (run_chain_inv _ _ _ _ _ Hadv Hk0) as (c & l & fl & Hwf & Hsrt & _).
  assert (l < length (heap w))%nat as Hlt.
  { eapply chain_lt; [by apply (wf_live _ _ _ _ Hwf)|]. apply elem_of_app. right. by left. }
  apply lookup_lt_is_Some in Hlt as [r Hr].
  pose proof (wf_valid _ _ _ _ Hwf l ltac:(apply elem_of_app; right; by left)) as Hv.
  pose proof (srt_last _ _ _ Hsrt) as Ht.
  unfold word in Hv. unfold tag in Ht. rewrite Hr in Hv, Ht.
  exists l, r. split; [by apply (wf_last _ _ _ _ Hwf)|]. split; [done|].
  split; [|done]. by apply (run_words _ _ _ _ _ _ fresh_words Hk0 l).
Qed.

(** X10.  Take a world of a run of whole operations on a new handler, one
    after the other, with fewer than 2^64 [Advance] steps and any number of
    guards.  A call of [takeGuard] that runs there as a whole, with no step
    of another thread between its own, returns at its first attempt,
    whatever the bound on its retries: the new guard pins the last record,
    whose tag is the current generation.  The word of that record grows by
    2 modulo 2^32; no other record and no field of the handler changes. *)
Theorem takeGuard_pins_current_generation fuel fuel' nd ops k w :
  Z.of_nat (advances ops) < 2 ^ 64 ->
  history fuel nd ops fresh !! k = Some w ->
  exists l w',
    _last (handler w) = Some l /\
    takeGuard fuel' nd w = Ok (length (guards w), w') /\
    guards w' = guards w ++ [mkGuard (Some l)] /\
    handler w' = handler w /\
    tag w' l = generation w' /\
    word w' l = wrap32 (word w l + 2) /\
    pins w' l = S (pins w l) /\
    (forall p, p <> l -> heap w' !! p = heap w !! p) /\
    length (heap w') = length (heap w).
Proof.
  intros Hadv Hk0.
  destruct (run_last _ _ _ _ _ Hadv Hk0) as (l & r & Hl & Hr & Hu & Hv & Ht).
  assert (l < length (heap w))%nat as Hlt by (by eapply lookup_lt_Some).
  eexists l, _. split; [done|].
  split; [by apply (takeGuard_ok fuel' nd w l r)|]. simpl.
  split; [done|]. split; [done|].
  split; [unfold tag, generation; simpl; by rewrite list_lookup_insert_eq|].
  split; [unfold word; simpl; by rewrite list_lookup_insert_eq, Hr|].
  split; [unfold pins; simpl; rewrite npins_snoc, pin_weight_same; lia|].
  split; [intros p Hp; by rewrite list_lookup_insert_ne|by rewrite length_insert].
Qed.

Lemma takeGuard_pins_current_generation_witness :
  let w := mkWorld [mkHold 2 0 (Some 1%nat); mkHold 0 1 None]
             (mkHandler 1 0 (Some 1%nat) (Some 0%nat) None 2)
             [mkGuard (Some 0%nat)] in
  exists w', takeGuard 0 false w = Ok (1%nat, w') /\ tag w' 1 = 1 /\ word w' 1 = 2.
Proof.
  intros w.
  destruct (takeGuard_pins_current_generation 1 0 false [TakeGuard; Advance] 2%nat w)
    as (l & w' & Hl & Htake & _ & _ & Ht & Hw & _).
  - simpl. lia.
  - by vm_compute.
  - injection Hl as <-. exists w'. split; [exact Htake|]. split.
    + rewrite Ht. unfold generation.
      assert (E : handler w' = handler w)
        by (vm_compute in Htake; by injection Htake as <-).
      rewrite E. reflexivity.
    + rewrite Hw. reflexivity.
Defined.

(** X11.  Taking a guard and destroying it at once, with no step of
    another thread in between, gives back the world it started from, up to
    the slot of the destroyed guard: every hold record and every field of
    the handler is as before.  This holds in every world of a run of whole
    operations on a new handler, one after the other, whatever its length
    and its number of guards, also when the word of the last record wraps
    on the way. *)
Theorem take_then_drop_restores fuel fuel' nd ops k w :
  history fuel nd ops fresh !! k = Some w ->
  (g <- takeGuard fuel';; Guard_dtor g) nd w =
  Ok (tt, set_guards (guards w ++ [mkGuard None]) w).
Proof.
  intros Hk0.
  destruct (reachable_well_formed _ _ _ _ _ _ fresh_well_formed Hk0) as (c & l & fl & Hwf).
  assert (l < length (heap w))%nat as Hlt.
  { eapply chain_lt; [by apply (wf_live _ _ _ _ Hwf)|]. apply elem_of_app. right. by left. }
  apply lookup_lt_is_Some in Hlt as [r Hr].
  pose proof (wf_valid _ _ _ _ Hwf l ltac:(apply elem_of_app; right; by left)) as Hv.
  unfold word in Hv. rewrite Hr in Hv.
  pose proof (run_words _ _ _ _ _ _ fresh_words Hk0 l r Hr) as Hu.
  unfold bind.
  rewrite (takeGuard_ok fuel' nd w l r (wf_last _ _ _ _ Hwf) Hr Hu Hv).
  unfold Guard_dtor.
  rewrite (Guard_cleanup_pin nd _ (length (guards w)) l
             (set_word (wrap32 (hold_refCount r + 2)) r)).
  - simpl. unfold set_guards.
    rewrite list_insert_insert_eq. unfold set_word. simpl.
    rewrite (wrap32_add_sub _ Hu), hold_eta, (list_insert_id _ _ _ Hr).
    rewrite insert_app_r_alt by done. by rewrite Nat.sub_diag.
  - simpl. rewrite lookup_app_r by done. by rewrite Nat.sub_diag.
  - simpl. apply list_lookup_insert_eq. by eapply lookup_lt_Some.
Qed.

Lemma take_then_drop_restores_witness :
  let w := mkWorld [mkHold 2 0 (Some 1%nat); mkHold 0 1 None]
             (mkHandler 1 0 (Some 1%nat) (Some 0%nat) None 2)
             [mkGuard (Some 0%nat)] in
  (g <- takeGuard 0;; Guard_dtor g) false w =
  Ok (tt, set_guards [mkGuard (Some 0%nat); mkGuard None] w).
Proof.
  intros w.
  apply (take_then_drop_restores 1 0 false [TakeGuard; Advance] 2%nat w).
  by vm_compute.
Defined.

(** X12.  Move construction of a guard hands the pin over: the new guard
    holds what the source held, the source is left empty, and no hold
    record, no field of the handler and no record's number of pinning
    guards changes. *)
Theorem guard_move_conserves_pins nd w g x :
  guards w !! g = Some x ->
  exists w',
    Guard_move_ctor g nd w = Ok (length (guards w), w') /\
    heap w' = heap w /\ handler w' = handler w /\
    guards w' !! length (guards w) = Some x /\
    guards w' !! g = Some (mkGuard None) /\
    length (guards w') = S (length (guards w)) /\
    forall p, pins w' p = pins w p.
Proof.
  intros Hg. pose proof (lookup_lt_Some _ _ _ Hg) as Hlt.
  eexists. split; [by apply Guard_move_ctor_ok|]. simpl.
  split; [done|]. split; [done|]. split; [|split; [|split]].
  - rewrite list_lookup_insert_ne by lia.
    rewrite lookup_app_r by done. by rewrite Nat.sub_diag.
  - apply list_lookup_insert_eq. rewrite length_app. simpl. lia.
  - rewrite length_insert, length_app. simpl. lia.
  - intros p. unfold pins. simpl.
    pose proof (npins_insert (guards w ++ [x]) g x (mkGuard None) p
                  ltac:(by rewrite lookup_app_l)) as E.
    rewrite npins_snoc, pin_weight_empty in E. lia.
Qed.

Lemma guard_move_conserves_pins_witness :
  let w := mkWorld [mkHold 2 0 None] (mkHandler 0 0 (Some 0%nat) (Some 0%nat) None 1)
             [mkGuard (Some 0%nat)] in
  exists w', Guard_move_ctor 0 false w = Ok (1%nat, w') /\ pins w' 0 = 1%nat.
Proof.
  intros w.
  destruct (guard_move_conserves_pins false w 0%nat (mkGuard (Some 0%nat)))
    as (w' & H1 & _ & _ & _ & _ & _ & H2).
  - reflexivity.
  - exists w'. split; [exact H1|]. rewrite H2. reflexivity.
Defined.

(** X13.  Copy construction from a guard that holds a pin, in a world of a
    run of whole operations on a new handler, one after the other, in which
    fewer than 2^31 guards are alive at any time: the assertion of
    [GenerationHold::copy] holds, the new guard pins the same record, the
    word of that record grows by 2 modulo 2^32 and its tag stays; no other
    record and no field of the handler changes. *)
Theorem copy_of_pinning_guard fuel nd ops k w g p :
  guards_bounded fuel nd ops fresh ->
  history fuel nd ops fresh !! k = Some w ->
  guards w !! g = Some (mkGuard (Some p)) ->
  exists w',
    Guard_copy_ctor g nd w = Ok (length (guards w), w') /\
    guards w' = guards w ++ [mkGuard (Some p)] /\
    handler w' = handler w /\
    word w' p = wrap32 (word w p + 2) /\
    tag w' p = tag w p /\
    pins w' p = S (pins w p) /\
    (forall q, q <> p -> heap w' !! q = heap w !! q) /\
    length (heap w') = length (heap w).
Proof.
  intros Hb0 Hk0 Hg.
  destruct (run_inv _ _ _ _ _ Hb0 Hk0) as (_ & Hc & _).
  destruct (pinned_valid _ _ _ Hc Hg) as (r & Hr & Hv & _).
  assert (p < length (heap w))%nat as Hlt by (by eapply lookup_lt_Some).
  eexists. split.
  { apply (Guard_copy_ctor_pin nd w g p r Hg Hr). by rewrite Hv, orb_true_r. }
  simpl. split; [done|]. split; [done|].
  split; [unfold word; simpl; by rewrite list_lookup_insert_eq, Hr|].
  split; [unfold tag; simpl; by rewrite list_lookup_insert_eq, Hr|].
  split; [unfold pins; simpl; rewrite npins_snoc, pin_weight_same; lia|].
  split; [intros q Hq; by rewrite list_lookup_insert_ne|by rewrite length_insert].
Qed.

Lemma copy_of_pinning_guard_witness :
  let w := mkWorld [mkHold 2 0 (Some 1%nat); mkHold 0 1 None]
             (mkHandler 1 0 (Some 1%nat) (Some 0%nat) None 2)
             [mkGuard (Some 0%nat)] in
  exists w', Guard_copy_ctor 0 false w = Ok (1%nat, w') /\ word w' 0 = 4.
Proof.
  intros w.
  destruct (copy_of_pinning_guard 1 false [TakeGuard; Advance] 2%nat w 0%nat 0%nat)
    as (w' & H1 & _ & _ & H2 & _).
  - bounded_by_running 3.
  - by vm_compute.
  - reflexivity.
  - exists w'. split; [exact H1|]. rewrite H2. reflexivity.
Defined.

(** X14.  No operation, run as a whole, fails in a world of a run of whole
    operations on a new handler, one after the other, in which fewer than
    2^31 guards are alive at any time: taking, copying, moving, assigning
    and destroying guards and advancing the generation all return, with no
    assertion tripped and no null or stale pointer followed, and they leave
    the chain and the freelist well formed. *)
Theorem operations_never_fail fuel fuel' nd ops k w o :
  guards_bounded fuel nd ops fresh ->
  history fuel nd ops fresh !! k = Some w ->
  exists w', step fuel' o nd w = Ok (tt, w') /\ well_formed w'.
Proof.
  intros Hb0 Hk0.
  destruct (run_inv _ _ _ _ _ Hb0 Hk0) as (Hwf & Hc & _).
  destruct (step_wf_count fuel' nd o w Hwf Hc) as (w' & Hstep & Hwf' & _).
  by exists w'.
Qed.

Lemma operations_never_fail_witness :
  let w := mkWorld [mkHold 2 0 (Some 1%nat); mkHold 0 1 None]
             (mkHandler 1 0 (Some 1%nat) (Some 0%nat) None 2)
             [mkGuard (Some 0%nat)] in
  exists w', step 0 (CopyGuard 0) false w = Ok (tt, w') /\ well_formed w'.
Proof.
  intros w.
  apply (operations_never_fail 1 0 false [TakeGuard; Advance] 2%nat w (CopyGuard 0)).
  - bounded_by_running 3.
  - by vm_compute.
Defined.

(** ** Interleavings of atomic accesses: counting holders *)

Lemma bind_ok {A B} (m : M A) (f : A -> M B) nd w b w' :
  bind m f nd w = Ok (b, w') ->
  exists a w1, m nd w = Ok (a, w1) /\ f a nd w1 = Ok (b, w').
Proof.
  unfold bind. destruct (m nd w) as [[a w1]|]; [|done]. intros H. by exists a, w1.
Qed.

Lemma nfailed_cons t ts p : nfailed (t :: ts) p = (fail_weight t p + nfailed ts p)%nat.
Proof.
  unfold nfailed, fail_weight. rewrite filter_cons. by destruct (decide (t = TFailed p)).
Qed.

Lemma nfailed_app ts1 ts2 p : nfailed (ts1 ++ ts2) p = (nfailed ts1 p + nfailed ts2 p)%nat.
Proof. unfold nfailed. by rewrite filter_app, length_app. Qed.

Lemma nfailed_insert ts t x y p :
  ts !! t = Some x ->
  (nfailed (<[t := y]> ts) p + fail_weight x p = nfailed ts p + fail_weight y p)%nat.
Proof.
  revert t. induction ts as [|z ts IH]; intros t Ht; [done|].
  destruct t as [|t]; simpl in *.
  - injection Ht as ->. rewrite !nfailed_cons. lia.
  - rewrite !nfailed_cons. specialize (IH t Ht). lia.
Qed.

Lemma nfailed_pos ts t p : ts !! t = Some (TFailed p) -> (0 < nfailed ts p)%nat.
Proof.
  intros Ht. apply list_elem_of_split_length in Ht as (ts1 & ts2 & -> & _).
  rewrite nfailed_app, nfailed_cons. unfold fail_weight.
  rewrite decide_True by done. lia.
Qed.



Lemma nfailing_cons t ts : nfailing (t :: ts) = (failing_weight t + nfailing ts)%nat.
Proof.
  unfold nfailing, failing_weight. rewrite filter_cons. by destruct (decide (failing t)).
Qed.

Lemma nfailing_app ts1 ts2 : nfailing (ts1 ++ ts2) = (nfailing ts1 + nfailing ts2)%nat.
Proof. unfold nfailing. by rewrite filter_app, length_app. Qed.

Lemma nfailing_insert ts t x y :
  ts !! t = Some x ->
  (nfailing (<[t := y]> ts) + failing_weight x = nfailing ts + failing_weight y)%nat.
Proof.
  revert t. induction ts as [|z ts IH]; intros t Ht; [done|].
  destruct t as [|t]; simpl in *.
  - injection Ht as ->. rewrite !nfailing_cons. lia.
  - rewrite !nfailing_cons. specialize (IH t Ht). lia.
Qed.

Lemma nfailed_failing ts p : (nfailed ts p <= nfailing ts)%nat.
Proof.
  induction ts as [|t ts IH]; [done|].
  rewrite nfailed_cons, nfailing_cons. unfold fail_weight, failing_weight.
  destruct (decide (t = TFailed p)) as [->|E].
  - simpl. lia.
  - destruct (decide (failing t)); lia.
Qed.



Lemma nlive_cons x gs : nlive (x :: gs) = (live_weight x + nlive gs)%nat.
Proof.
  unfold nlive, live_weight. rewrite filter_cons. by destruct (decide (_hold x <> None)).
Qed.

Lemma nlive_app gs1 gs2 : nlive (gs1 ++ gs2) = (nlive gs1 + nlive gs2)%nat.
Proof. unfold nlive. by rewrite filter_app, length_app. Qed.

Lemma nlive_insert gs g x y :
  gs !! g = Some x ->
  (nlive (<[g := y]> gs) + live_weight x = nlive gs + live_weight y)%nat.
Proof.
  revert g. induction gs as [|z gs IH]; intros g Hg; [done|].
  destruct g as [|g]; simpl in *.
  - injection Hg as ->. rewrite !nlive_cons. lia.
  - rewrite !nlive_cons. specialize (IH g Hg). lia.
Qed.

Lemma holders_inflight s p : (holders s p <= inflight s)%nat.
Proof.
  unfold holders, inflight. pose proof (pins_live (shared s) p).
  pose proof (nfailed_failing (takers s) p). unfold nfailing in *. lia.
Qed.

(** ** Interleavings of atomic accesses: the chain *)

Lemma cwf_ext w w' c l d fl :
  _last (handler w') = _last (handler w) ->
  _first (handler w') = _first (handler w) ->
  _free (handler w') = _free (handler w) ->
  length (heap w') = length (heap w) ->
  (forall p, hold_next <$> heap w' !! p = hold_next <$> heap w !! p) ->
  (forall p, p ∉ d -> valid (word w' p) = valid (word w p)) ->
  cwf w c l d fl -> cwf w' c l d fl.
Proof.
  intros E1 E2 E3 E4 E5 E6 [H1 H2 H3 H4 H5 H6 H7 H8].
  assert (Hd : forall p, p ∈ (c ++ [l]) ++ fl -> p ∉ d).
  { intros p Hp Hpd. pose proof H4 as H4'.
    apply NoDup_app in H4' as (_ & Hdis & Hnd).
    apply elem_of_app in Hp as [Hp|Hp].
    - apply (Hdis p Hp). apply elem_of_app. by left.
    - apply NoDup_app in Hnd as (_ & Hdis' & _). by apply (Hdis' p). }
  split.
  - by rewrite E1.
  - rewrite E2. eapply chain_next_ext; [|exact H2]. intros p _. apply E5.
  - rewrite E3. eapply chain_next_ext; [|exact H3]. intros p _. apply E5.
  - done.
  - intros p Hp. apply H5. by rewrite <- E4.
  - intros n Hn. destruct (H6 n Hn) as (r & Hr & Hnone).
    pose proof (E5 n) as E. rewrite Hr in E. simpl in E.
    destruct (heap w' !! n) as [r'|]; [|done]. injection E as E.
    exists r'. split; [done|]. by rewrite E.
  - intros p Hp. rewrite E6; [by apply H7|]. apply Hd, elem_of_app. by left.
  - intros p Hp. rewrite E6; [by apply H8|]. apply Hd, elem_of_app. by right.
Qed.

Lemma cwf_shape w w' c l d fl : same_shape w w' -> cwf w c l d fl -> cwf w' c l d fl.
Proof.
  intros [S1 S2 S3 S4 S5]. apply cwf_ext; try (by rewrite S1); try done.
Qed.

Lemma ctags_ext w w' c l :
  handler w' = handler w -> (forall p, tag w' p = tag w p) ->
  ctags w c l -> ctags w' c l.
Proof.
  intros E1 E2 [H1 H2 H3 H4]. split; unfold generation, first_used_generation in *.
  - eapply StronglySorted_impl_in; [|exact H1]. intros x y _ _. unfold older. by rewrite !E2.
  - by rewrite E2, E1.
  - by rewrite E2, E1.
  - by rewrite E1.
Qed.

Lemma pc_inv_ext w w' pc c l d :
  handler w' = handler w -> (forall p, tag w' p = tag w p) ->
  (forall p, valid (word w' p) = valid (word w p)) ->
  pc_inv w pc c l d -> pc_inv w' pc c l d.
Proof.
  intros E1 E2 E3. unfold pc_inv, generation. rewrite E1.
  destruct pc; try done; by rewrite E2, E3.
Qed.

Lemma cwf_nodup_live w c l d fl : cwf w c l d fl -> NoDup (c ++ [l]).
Proof. intros H. pose proof (cwf_nodup _ _ _ _ _ H) as Hn. by apply NoDup_app in Hn as (? & _). Qed.

Lemma cwf_in_heap w c l d fl p :
  cwf w c l d fl -> p ∈ (c ++ [l]) ++ d ++ fl -> (p < length (heap w))%nat.
Proof.
  intros H [Hp|[Hp|Hp]%elem_of_app]%elem_of_app.
  - eapply chain_lt; [by apply (cwf_live _ _ _ _ _ H)|done].
  - destruct (cwf_detached _ _ _ _ _ H p Hp) as (r & Hr & _). by eapply lookup_lt_Some.
  - eapply chain_lt; [by apply (cwf_free _ _ _ _ _ H)|done].
Qed.

Lemma cwf_last_record w c l d fl :
  cwf w c l d fl ->
  chain (heap w) (_first (handler w)) c (Some l) /\
  exists r, heap w !! l = Some r /\ hold_next r = None.
Proof.
  intros Hwf. pose proof (cwf_live _ _ _ _ _ Hwf) as H.
  apply chain_app in H as (m & H1 & H2). pose proof H2 as [-> (r & Hr & Hn)].
  simpl in Hn. split; [done|]. by exists r.
Qed.

Lemma cwf_first w c l d fl : cwf w c l d fl -> _first (handler w) = Some (hd l c).
Proof.
  intros Hwf. pose proof (cwf_live _ _ _ _ _ Hwf) as H.
  destruct c; simpl in *; by destruct H as [-> _].
Qed.

(** ** Interleavings of atomic accesses: the words *)

Lemma holders_out_of_heap s p :
  ccount s -> (length (heap (shared s)) <= p)%nat -> holders s p = 0%nat.
Proof.
  intros Hc Hp. unfold holders.
  assert (pins (shared s) p = 0%nat) as ->.
  { destruct (pins (shared s) p) eqn:E; [done|].
    assert (0 < npins (guards (shared s)) p)%nat as Hpos by (unfold pins in E; lia).
    unfold npins in Hpos.
    destruct (filter (fun x => _hold x = Some p) (guards (shared s))) as [|x xs] eqn:Ef;
      [simpl in Hpos; lia|].
    assert (x ∈ filter (fun x => _hold x = Some p) (guards (shared s))) as Hx
      by (rewrite Ef; by left).
    apply list_elem_of_filter in Hx as [Hx1 Hx2].
    apply list_elem_of_lookup in Hx2 as [g Hg]. destruct x as [h]. simpl in Hx1. subst h.
    destruct (cc_pin _ Hc g p Hg). lia. }
  destruct (nfailed (takers s) p) eqn:E; [done|].
  unfold nfailed in E.
  destruct (filter (fun t => t = TFailed p) (takers s)) as [|x xs] eqn:Ef; [done|].
  assert (x ∈ filter (fun t => t = TFailed p) (takers s)) as Hx by (rewrite Ef; by left).
  apply list_elem_of_filter in Hx as [-> Hx2].
  apply list_elem_of_lookup in Hx2 as [t Ht].
  pose proof (cc_failed _ Hc t p Ht). lia.
Qed.

Lemma invalid_unpinned s p r :
  ccount s -> heap (shared s) !! p = Some r -> valid (hold_refCount r) = false ->
  pins (shared s) p = 0%nat.
Proof.
  intros Hc Hr Hv. destruct (pins (shared s) p) eqn:E; [done|].
  assert (0 < npins (guards (shared s)) p)%nat as Hpos by (unfold pins in E; lia).
  unfold npins in Hpos.
  destruct (filter (fun x => _hold x = Some p) (guards (shared s))) as [|x xs] eqn:Ef;
    [simpl in Hpos; lia|].
  assert (x ∈ filter (fun x => _hold x = Some p) (guards (shared s))) as Hx
    by (rewrite Ef; by left).
  apply list_elem_of_filter in Hx as [Hx1 Hx2].
  apply list_elem_of_lookup in Hx2 as [g Hg]. destruct x as [h]. simpl in Hx1. subst h.
  destruct (cc_pin _ Hc g p Hg) as [_ Hv']. unfold word in Hv'. rewrite Hr in Hv'. congruence.
Qed.

Lemma ccount_word_bound s p r :
  ccount s -> heap (shared s) !! p = Some r -> 0 <= hold_refCount r < 2 ^ 32.
Proof.
  intros Hc Hr. pose proof (cc_word _ Hc p r Hr) as E.
  pose proof (holders_inflight s p). pose proof (cc_bound _ Hc).
  destruct (valid (hold_refCount r)); lia.
Qed.

(** One record changes, behind the readers' backs or not: the counts stay
    right when its new word is right. *)
Lemma ccount_update s p r r' h' gs ts pc' :
  ccount s ->
  heap (shared s) !! p = Some r ->
  let s' := mkC (mkWorld (<[p := r']> (heap (shared s))) h' gs) ts pc' in
  hold_refCount r' =
    2 * Z.of_nat (holders s' p) + (if valid (hold_refCount r') then 0 else 1) ->
  (forall q, q <> p -> holders s' q = holders s q) ->
  (forall g q, gs !! g = Some (mkGuard (Some q)) ->
     (q < length (heap (shared s)))%nat /\
     (q = p -> valid (hold_refCount r') = true) /\
     (q <> p -> valid (word (shared s) q) = true)) ->
  (forall t o, ts !! t = Some (TLoaded o) ->
     exists q, o = Some q /\ (q < length (heap (shared s)))%nat) ->
  (forall t q, ts !! t = Some (TFailed q) -> (q < length (heap (shared s)))%nat) ->
  Z.of_nat (inflight s') < 2 ^ 31 ->
  ccount s'.
Proof.
  intros Hc Hr s' Hw Hq Hg Hl Hf Hb.
  assert (p < length (heap (shared s)))%nat as Hlt by (by eapply lookup_lt_Some).
  split; simpl.
  - intros q rq Hrq. destruct (decide (p = q)) as [<-|Hne].
    + rewrite list_lookup_insert_eq in Hrq by done. by injection Hrq as <-.
    + rewrite list_lookup_insert_ne in Hrq by done. rewrite Hq by done.
      by apply (cc_word _ Hc).
  - intros g q Hgq. destruct (Hg g q Hgq) as (H1 & H2 & H3).
    rewrite length_insert. split; [done|]. unfold word. simpl.
    destruct (decide (p = q)) as [<-|Hne].
    + rewrite list_lookup_insert_eq by done. by apply H2.
    + rewrite list_lookup_insert_ne by done. by apply H3.
  - intros t o Ht. rewrite length_insert. by eapply Hl.
  - intros t q Ht. rewrite length_insert. by eapply Hf.
  - done.
Qed.

(** ** Interleavings of atomic accesses: the steps of the readers *)

Lemma cstruct_reword w c l d fl pc p r z gs :
  heap w !! p = Some r ->
  valid z = valid (hold_refCount r) ->
  cwf w c l d fl /\ ctags w c l /\ pc_inv w pc c l d ->
  let w' := mkWorld (<[p := set_word z r]> (heap w)) (handler w) gs in
  cwf w' c l d fl /\ ctags w' c l /\ pc_inv w' pc c l d.
Proof.
  intros Hr Hz (H1 & H2 & H3) w'.
  pose proof (same_shape_set_word w p r z Hr Hz) as [S1 S2 S3 S4 S5].
  assert (Hs : same_shape w w') by (by split).
  split; [by eapply cwf_shape|].
  split; [by eapply ctags_ext|by eapply pc_inv_ext].
Qed.

Lemma cinv_call nd s c l d fl :
  cinv_at s c l d fl ->
  exists s', cstep CCall nd s = Ok s' /\ cinv_at s' c l d fl /\ pending s' = pending s.
Proof.
  intros (H1 & H2 & H3 & H4). eexists. split; [done|]. split; [|done].
  split; [done|]. split; [done|]. split; [done|].
  destruct H4 as [C1 C2 C3 C4 C5].
  assert (Hts : forall t x, (takers s ++ [TStart]) !! t = Some x ->
            x = TStart \/ takers s !! t = Some x).
  { intros t x Ht. apply lookup_app_Some in Ht as [Ht|[_ Ht]]; [by right|].
    left. destruct (t - length (takers s))%nat; [by injection Ht|done]. }
  split; simpl; unfold holders, inflight in *; simpl.
  - intros p r Hr. rewrite nfailed_app. simpl. rewrite Nat.add_0_r. by apply C1.
  - done.
  - intros t o Ht. apply Hts in Ht as [?|Ht]; [done|by eapply C3].
  - intros t p Ht. apply Hts in Ht as [?|Ht]; [done|by eapply C4].
  - fold (nfailing (takers s ++ [TStart])). rewrite nfailing_app. simpl.
    rewrite Nat.add_0_r. done.
Qed.

(** A reader's state changes and the shared world does not. *)
Lemma ccount_taker w ts pc t x y :
  ccount (mkC w ts pc) ->
  ts !! t = Some x ->
  (forall p, fail_weight x p = 0%nat) -> (forall p, fail_weight y p = 0%nat) ->
  (forall o, y = TLoaded o -> exists p, o = Some p /\ (p < length (heap w))%nat) ->
  ccount (mkC w (<[t := y]> ts) pc).
Proof.
  intros [C1 C2 C3 C4 C5] Ht Hx Hy Hl.
  assert (Hfx : failing_weight x = 0%nat).
  { unfold failing_weight. destruct x as [| |q|]; simpl; try done.
    specialize (Hx q). unfold fail_weight in Hx. by rewrite decide_True in Hx. }
  assert (Hfy : failing_weight y = 0%nat).
  { unfold failing_weight. destruct y as [| |q|]; simpl; try done.
    specialize (Hy q). unfold fail_weight in Hy. by rewrite decide_True in Hy. }
  assert (Hts : forall t' z, <[t := y]> ts !! t' = Some z -> z = y \/ ts !! t' = Some z).
  { intros t' z Hz. destruct (decide (t = t')) as [<-|Hne].
    - rewrite list_lookup_insert_eq in Hz by (by eapply lookup_lt_Some). left. by injection Hz.
    - rewrite list_lookup_insert_ne in Hz by done. by right. }
  split; simpl in *; unfold holders, inflight in *; simpl in *.
  - intros p r Hr. pose proof (nfailed_insert ts t x y p Ht) as E.
    rewrite Hx, Hy in E. replace (nfailed (<[t:=y]> ts) p) with (nfailed ts p) by lia.
    by apply C1.
  - done.
  - intros t' o Ht'. apply Hts in Ht' as [<-|Ht']; [by apply Hl|by eapply C3].
  - intros t' p Ht'. apply Hts in Ht' as [<-|Ht']; [|by eapply C4].
    specialize (Hy p). unfold fail_weight in Hy. by rewrite decide_True in Hy.
  - pose proof (nfailing_insert ts t x y Ht) as E. unfold nfailing in E. lia.
Qed.

Lemma cinv_reader nd s t c l d fl :
  cinv_at s c l d fl ->
  exists s',
    cstep (CReader t) nd s = Ok s' /\
    (Z.of_nat (inflight s') < 2 ^ 31 -> cinv_at s' c l d fl) /\
    pending s' = pending s.
Proof.
  destruct s as [w ts pc]. intros (H1 & H2 & H3 & H4). simpl in H1, H2, H3.
  unfold cstep. simpl.
  destruct (ts !! t) as [x|] eqn:Ht; [|by eexists].
  destruct x as [|o|p|].
  - (* load *)
    eexists. split; [done|]. split; [|done]. intros _.
    split; [done|]. split; [done|]. split; [done|]. simpl.
    apply (ccount_taker w ts pc t TStart); try done.
    intros o [= <-]. rewrite (cwf_last _ _ _ _ _ H1). exists l. split; [done|].
    eapply cwf_in_heap; [done|]. apply elem_of_app. left. apply elem_of_app. right. by left.
  - (* fetch_add *)
    destruct (cc_loaded _ H4 t o Ht) as (p & -> & Hp). simpl in Hp.
    apply lookup_lt_is_Some in Hp as [r Hr].
    unfold reader_step. simpl. unfold bind at 1. simpl.
    unfold bind at 1. rewrite (fetch_add_ok nd w p r Hr).
    pose proof (cc_word _ H4 p r Hr) as Hw. simpl in Hw.
    set (r' := set_word (wrap32 (hold_refCount r + 2)) r).
    assert (Hv' : valid (hold_refCount r') = valid (hold_refCount r)) by apply valid_add2.
    assert (Hfl : forall z, fail_weight (TLoaded (Some p)) z = 0%nat).
    { intros z. unfold fail_weight. by rewrite decide_False. }
    destruct (valid (hold_refCount r)) eqn:Hv.
    + (* the pin stands *)
      unfold set_heap. simpl.
      eexists. split; [done|]. split; [|done]. intros Hb.
      destruct (cstruct_reword w c l d fl pc p r (wrap32 (hold_refCount r + 2))
                  (guards w ++ [mkGuard (Some p)]) Hr) as (G1 & G2 & G3);
        [by rewrite valid_add2|done|].
      split; [done|]. split; [done|]. split; [done|].
      assert (Hh : forall q, holders (mkC (mkWorld (<[p := r']> (heap w)) (handler w)
                                (guards w ++ [mkGuard (Some p)])) (<[t := TDone]> ts) pc) q =
                   (holders (mkC w ts pc) q + pin_weight (mkGuard (Some p)) q)%nat).
      { intros q. unfold holders, pins. simpl. rewrite npins_snoc.
        pose proof (nfailed_insert ts t _ TDone q Ht) as E. rewrite Hfl in E.
        unfold fail_weight in E at 1. rewrite decide_False in E by done. lia. }
      apply (ccount_update (mkC w ts pc) p r r'); try done.
      * rewrite Hh, pin_weight_same. rewrite Hv'. simpl.
        pose proof (holders_inflight
          (mkC (mkWorld (<[p := r']> (heap w)) (handler w)
                  (guards w ++ [mkGuard (Some p)])) (<[t := TDone]> ts) pc) p) as Hle.
        rewrite Hh, pin_weight_same in Hle.
        unfold wrap32. rewrite Z.mod_small; lia.
      * intros q Hq. rewrite Hh, pin_weight_other by done. lia.
      * intros g q Hg. apply lookup_app_Some in Hg as [Hg|[_ Hg]].
        -- destruct (cc_pin _ H4 g q Hg) as [A B]. split; [done|]. split; [|done].
           intros _. by rewrite Hv'.
        -- simpl in Hg. destruct (g - length (guards w))%nat; [|done].
           injection Hg as <-. split; [by eapply lookup_lt_Some|].
           split; [by rewrite Hv'|done].
      * intros t' o Ht'. destruct (decide (t = t')) as [<-|Hne].
        -- by rewrite list_lookup_insert_eq in Ht' by (by eapply lookup_lt_Some).
        -- rewrite list_lookup_insert_ne in Ht' by done. by eapply (cc_loaded _ H4).
      * intros t' q Ht'. destruct (decide (t = t')) as [<-|Hne].
        -- by rewrite list_lookup_insert_eq in Ht' by (by eapply lookup_lt_Some).
        -- rewrite list_lookup_insert_ne in Ht' by done. by eapply (cc_failed _ H4).
    + (* the attempt failed *)
      unfold set_heap. simpl.
      eexists. split; [done|]. split; [|done]. intros Hb.
      destruct (cstruct_reword w c l d fl pc p r (wrap32 (hold_refCount r + 2))
                  (guards w) Hr) as (G1 & G2 & G3);
        [by rewrite valid_add2|done|].
      split; [done|]. split; [done|]. split; [done|].
      assert (Hh : forall q, holders (mkC (mkWorld (<[p := r']> (heap w)) (handler w)
                                (guards w)) (<[t := TFailed p]> ts) pc) q =
                   (holders (mkC w ts pc) q + fail_weight (TFailed p) q)%nat).
      { intros q. unfold holders, pins. simpl.
        pose proof (nfailed_insert ts t _ (TFailed p) q Ht) as E. rewrite Hfl in E. lia. }
      assert (Hsame : fail_weight (TFailed p) p = 1%nat)
        by (unfold fail_weight; by rewrite decide_True).
      apply (ccount_update (mkC w ts pc) p r r'); try done.
      * rewrite Hh, Hsame. rewrite Hv'. simpl.
        pose proof (holders_inflight
          (mkC (mkWorld (<[p := r']> (heap w)) (handler w) (guards w))
             (<[t := TFailed p]> ts) pc) p) as Hle.
        rewrite Hh, Hsame in Hle.
        unfold wrap32. rewrite Z.mod_small; lia.
      * intros q Hq. rewrite Hh. unfold fail_weight.
        rewrite decide_False by congruence. lia.
      * intros g q Hg. destruct (cc_pin _ H4 g q Hg) as [A B]. split; [done|].
        split; [|done]. intros ->. unfold word in B. simpl in B. rewrite Hr in B. congruence.
      * intros t' o Ht'. destruct (decide (t = t')) as [<-|Hne].
        -- by rewrite list_lookup_insert_eq in Ht' by (by eapply lookup_lt_Some).
        -- rewrite list_lookup_insert_ne in Ht' by done. by eapply (cc_loaded _ H4).
      * intros t' q Ht'. destruct (decide (t = t')) as [<-|Hne].
        -- rewrite list_lookup_insert_eq in Ht' by (by eapply lookup_lt_Some).
           injection Ht' as <-. by eapply lookup_lt_Some.
        -- rewrite list_lookup_insert_ne in Ht' by done. by eapply (cc_failed _ H4).
  - (* release *)
    pose proof (cc_failed _ H4 t p Ht) as Hp. simpl in Hp.
    apply lookup_lt_is_Some in Hp as [r Hr].
    unfold reader_step. unfold bind at 1. rewrite (release_ok nd w p r Hr).
    pose proof (cc_word _ H4 p r Hr) as Hw. simpl in Hw.
    set (r' := set_word (wrap32 (hold_refCount r - 2)) r).
    assert (Hv' : valid (hold_refCount r') = valid (hold_refCount r)) by apply valid_sub2.
    unfold set_heap. simpl.
      eexists. split; [done|]. split; [|done]. intros Hb.
    destruct (cstruct_reword w c l d fl pc p r (wrap32 (hold_refCount r - 2))
                (guards w) Hr) as (G1 & G2 & G3);
      [by rewrite valid_sub2|done|].
    split; [done|]. split; [done|]. split; [done|].
    assert (Hh : forall q, (holders (mkC (mkWorld (<[p := r']> (heap w)) (handler w)
                              (guards w)) (<[t := TStart]> ts) pc) q +
                            fail_weight (TFailed p) q =
                            holders (mkC w ts pc) q)%nat).
    { intros q. unfold holders, pins. simpl.
      pose proof (nfailed_insert ts t _ TStart q Ht) as E.
      unfold fail_weight in E at 2. rewrite decide_False in E by done. lia. }
    assert (Hsame : fail_weight (TFailed p) p = 1%nat)
      by (unfold fail_weight; by rewrite decide_True).
    pose proof (ccount_word_bound _ p r H4 Hr) as Hrange.
    apply (ccount_update (mkC w ts pc) p r r'); try done.
    + pose proof (Hh p) as E. rewrite Hsame in E. rewrite Hv'. simpl.
      unfold wrap32. rewrite Z.mod_small; destruct (valid (hold_refCount r)); lia.
    + intros q Hq. pose proof (Hh q) as E. unfold fail_weight in E.
      rewrite decide_False in E by congruence. simpl in *. lia.
    + intros g q Hg. destruct (cc_pin _ H4 g q Hg) as [A B]. split; [done|].
      split; [|done]. intros ->. unfold word in B. simpl in B. rewrite Hr in B.
      by rewrite Hv'.
    + intros t' o Ht'. destruct (decide (t = t')) as [<-|Hne].
      * by rewrite list_lookup_insert_eq in Ht' by (by eapply lookup_lt_Some).
      * rewrite list_lookup_insert_ne in Ht' by done. by eapply (cc_loaded _ H4).
    + intros t' q Ht'. destruct (decide (t = t')) as [<-|Hne].
      * by rewrite list_lookup_insert_eq in Ht' by (by eapply lookup_lt_Some).
      * rewrite list_lookup_insert_ne in Ht' by done. by eapply (cc_failed _ H4).
  - (* done *)
    eexists. split; [done|]. split; [|done]. intros _.
    by rewrite list_insert_id.
Qed.

Lemma cinv_drop nd s g c l d fl :
  cinv_at s c l d fl ->
  exists s',
    cstep (CDrop g) nd s = Ok s' /\ cinv_at s' c l d fl /\ pending s' = pending s.
Proof.
  destruct s as [w ts pc]. intros (H1 & H2 & H3 & H4). simpl in H1, H2, H3.
  unfold cstep. simpl.
  destruct (decide (g < length (guards w))%nat) as [Hlt|Hge];
    [|rewrite when_guard_out by done; by eexists].
  rewrite when_guard_in by done. unfold Guard_dtor.
  apply lookup_lt_is_Some in Hlt as [[[p|]] Hg];
    [|rewrite (Guard_cleanup_empty _ _ _ Hg); by eexists].
  destruct (cc_pin _ H4 g p Hg) as [Hp Hvp]. simpl in Hp, Hvp.
  apply lookup_lt_is_Some in Hp as [r Hr].
  rewrite (Guard_cleanup_pin nd w g p r Hg Hr).
  pose proof (cc_word _ H4 p r Hr) as Hw. simpl in Hw.
  unfold word in Hvp. rewrite Hr in Hvp.
  set (r' := set_word (wrap32 (hold_refCount r - 2)) r).
  assert (Hv' : valid (hold_refCount r') = valid (hold_refCount r)) by apply valid_sub2.
  eexists. split; [done|]. split; [|done].
  destruct (cstruct_reword w c l d fl pc p r (wrap32 (hold_refCount r - 2))
              (<[g := mkGuard None]> (guards w)) Hr) as (G1 & G2 & G3);
    [by rewrite valid_sub2|done|].
  split; [done|]. split; [done|]. split; [done|].
  assert (Hh : forall q, (holders (mkC (mkWorld (<[p := r']> (heap w)) (handler w)
                            (<[g := mkGuard None]> (guards w))) ts pc) q +
                          pin_weight (mkGuard (Some p)) q =
                          holders (mkC w ts pc) q)%nat).
  { intros q. unfold holders, pins. simpl.
    pose proof (npins_insert (guards w) g _ (mkGuard None) q Hg) as E.
    rewrite pin_weight_empty in E. lia. }
  pose proof (ccount_word_bound _ p r H4 Hr) as Hrange.
  apply (ccount_update (mkC w ts pc) p r r'); try done.
  - pose proof (Hh p) as E. rewrite pin_weight_same in E. rewrite Hv', Hvp in *. simpl.
    unfold wrap32. rewrite Z.mod_small; lia.
  - intros q Hq. pose proof (Hh q) as E. rewrite pin_weight_other in E by done.
    simpl in *. lia.
  - intros g' q Hg'. destruct (decide (g = g')) as [<-|Hne].
    + by rewrite list_lookup_insert_eq in Hg' by (by eapply lookup_lt_Some).
    + rewrite list_lookup_insert_ne in Hg' by done.
      destruct (cc_pin _ H4 g' q Hg') as [A B]. split; [done|]. split; [|done].
      intros _. by rewrite Hv'.
  - by apply (cc_loaded _ H4).
  - by apply (cc_failed _ H4).
  - pose proof (cc_bound _ H4) as Hb. unfold inflight in *. simpl in *.
    pose proof (nlive_insert (guards w) g _ (mkGuard None) Hg) as E.
    unfold nlive, live_guards in *. simpl in *. unfold live_weight in E. simpl in E.
    lia.
Qed.

(** ** Interleavings of atomic accesses: the steps of the writer *)

Lemma ccount_same s s' :
  heap (shared s') = heap (shared s) -> guards (shared s') = guards (shared s) ->
  takers s' = takers s -> ccount s -> ccount s'.
Proof.
  intros E1 E2 E3 [C1 C2 C3 C4 C5].
  split; unfold holders, inflight, pins, live_guards, word in *; rewrite ?E1, ?E2, ?E3; done.
Qed.

Lemma ccount_writer_update s p r r' h' pc' :
  ccount s ->
  heap (shared s) !! p = Some r ->
  hold_refCount r' =
    2 * Z.of_nat (holders s p) + (if valid (hold_refCount r') then 0 else 1) ->
  (valid (hold_refCount r') = false -> pins (shared s) p = 0%nat) ->
  ccount (mkC (mkWorld (<[p := r']> (heap (shared s))) h' (guards (shared s)))
            (takers s) pc').
Proof.
  intros Hc Hr Hw Hv.
  apply (ccount_update s p r r'); try done.
  - intros g q Hg. destruct (cc_pin _ Hc g q Hg) as [A B]. split; [done|]. split; [|done].
    intros ->. destruct (valid (hold_refCount r')); [done|].
    pose proof (npins_pos _ _ _ Hg) as Hpos. unfold pins in Hv. rewrite Hv in Hpos by done. lia.
  - by apply (cc_loaded _ Hc).
  - by apply (cc_failed _ Hc).
  - by apply (cc_bound _ Hc).
Qed.

Lemma ccount_alloc s r' h' pc' :
  ccount s ->
  hold_refCount r' = 0 \/ hold_refCount r' = 1 ->
  ccount (mkC (mkWorld (heap (shared s) ++ [r']) h' (guards (shared s))) (takers s) pc').
Proof.
  intros Hc Hw. pose proof Hc as [C1 C2 C3 C4 C5].
  split; simpl; unfold holders, pins in *; simpl.
  - intros p r Hr. apply lookup_app_Some in Hr as [Hr|[Hge Hr]]; [by apply C1|].
    destruct (p - length (heap (shared s)))%nat; [|done]. injection Hr as <-.
    pose proof (holders_out_of_heap s p Hc Hge) as E. unfold holders, pins in E. rewrite E.
    by destruct Hw as [-> | ->].
  - intros g q Hg. destruct (C2 g q Hg) as [A B]. rewrite length_app. split; [lia|].
    unfold word in *. simpl. by rewrite lookup_app_l.
  - intros t o Ht. destruct (C3 t o Ht) as (q & -> & Hq). exists q. split; [done|].
    rewrite length_app. lia.
  - intros t q Ht. pose proof (C4 t q Ht). rewrite length_app. lia.
  - done.
Qed.

Lemma hd_snoc (c : list nat) l n : hd n (c ++ [l]) = hd l c.
Proof. by destruct c. Qed.

Lemma cinv_w_idle nd w ts c l d fl :
  cinv_at (mkC w ts WIdle) c l d fl ->
  generation w + 1 < 2 ^ 64 ->
  exists pc',
    writer_step WIdle nd w = Ok (pc', w) /\
    cinv_at (mkC w ts pc') c l d fl /\
    pending (mkC w ts pc') = generation w + 1.
Proof.
  intros (H1 & H2 & H3 & H4) Hgen. simpl in *.
  destruct (cwf_last_record _ _ _ _ _ H1) as (_ & r & Hr & _).
  pose proof (ct_nonneg _ _ _ H2) as Hpos.
  assert (Hngen : wrap64 (_generation (handler w) + 1) = generation w + 1).
  { unfold wrap64, generation in *. apply Z.mod_small. lia. }
  unfold writer_step, getNextGeneration, getCurrentGeneration, load_last.
  unfold bind at 1. unfold bind at 1. unfold bind at 1. simpl.
  unfold bind at 1. unfold bind at 1. simpl. rewrite (cwf_last _ _ _ _ _ H1). simpl.
  unfold bind at 1. simpl. unfold bind at 1. rewrite (getRefCount_ok nd w l r Hr).
  unfold ret. rewrite Hngen.
  eexists. split; [done|].
  destruct (hold_refCount r / 2 =? 0); (split; [|done]);
    (split; [done|]; split; [done|]; split; [done|]);
    by apply (ccount_same (mkC w ts WIdle)).
Qed.

Lemma cinv_w_morph nd w ts ngen last c l d fl :
  cinv_at (mkC w ts (WMorph ngen last)) c l d fl ->
  exists w',
    writer_step (WMorph ngen last) nd w = Ok (WSweep, w') /\
    (last = l /\ tag w' l = tag w l + 1 /\ forall q, q <> l -> tag w' q = tag w q) /\
    cinv_at (mkC w' ts WSweep) c l d fl /\
    generation w' = generation w + 1 /\
    guards w' = guards w.
Proof.
  intros (H1 & H2 & H3 & H4). simpl in *. destruct H3 as (-> & -> & ->).
  destruct (cwf_last_record _ _ _ _ _ H1) as (_ & r & Hr & _).
  assert (l < length (heap w))%nat as Hlt by (by eapply lookup_lt_Some).
  pose proof (cwf_nodup_live _ _ _ _ _ H1) as Hnd.
  unfold writer_step, set_generation, store_generation, bind, get_handler, put_handler,
    get_hold, put_hold, ret. simpl. rewrite Hr. simpl.
  eexists. split; [done|].
  set (w' := mkWorld _ _ _).
  assert (Htl : tag w' l = generation w + 1).
  { unfold tag, w'; simpl. by rewrite list_lookup_insert_eq. }
  assert (Hto : forall p, p <> l -> tag w' p = tag w p).
  { intros p Hp. unfold tag, w'; simpl. by rewrite list_lookup_insert_ne. }
  assert (Hword : forall p, word w' p = word w p).
  { intros p. unfold word, w'; simpl. destruct (decide (l = p)) as [<-|Hne].
    - rewrite list_lookup_insert_eq by done. by rewrite Hr.
    - by rewrite list_lookup_insert_ne. }
  split; [by rewrite Htl, (ct_last _ _ _ H2)|].
  split; [|done]. unfold cinv_at. cbn [shared writer_pc].
  split; [|split; [|split]].
  - apply (cwf_ext w); try done.
    + by unfold w'; simpl; rewrite length_insert.
    + intros p. unfold w'; simpl. destruct (decide (l = p)) as [<-|Hne].
      * rewrite list_lookup_insert_eq by done. by rewrite Hr.
      * by rewrite list_lookup_insert_ne.
    + intros p _. by rewrite Hword.
  - destruct H2 as [T1 T2 T3 T4]. split.
    + apply StronglySorted_app in T1 as (Hx & Hc & _).
      apply NoDup_app in Hnd as (_ & Hdis & _).
      apply StronglySorted_app. split; [|split].
      * intros x y Hx1 ->%list_elem_of_singleton. unfold older.
        rewrite Htl, Hto.
        -- specialize (Hx x l Hx1 ltac:(by left)). unfold older in Hx. lia.
        -- intros ->. apply (Hdis l Hx1). by left.
      * eapply StronglySorted_impl_in; [|exact Hc]. intros x y Hx1 Hy1. unfold older.
        rewrite !Hto; [done| |].
        -- intros ->. apply (Hdis l Hy1). by left.
        -- intros ->. apply (Hdis l Hx1). by left.
      * repeat constructor.
    + by rewrite Htl.
    + change (first_used_generation w') with (first_used_generation w).
      destruct (decide (hd l c = l)) as [E|Hne]; [|by rewrite Hto].
      rewrite E in *. rewrite Htl. lia.
    + unfold generation in *. simpl. lia.
  - done.
  - apply (ccount_writer_update (mkC w ts (WMorph (generation w + 1) l)) l r); try done.
    + simpl. by apply (cc_word _ H4 l r).
    + simpl. intros Hv. by eapply (invalid_unpinned (mkC w ts (WMorph (generation w + 1) l))).
Qed.

Lemma cinv_w_link nd w ts ngen last c l d fl :
  cinv_at (mkC w ts (WLink ngen last)) c l d fl ->
  exists w' n fl',
    writer_step (WLink ngen last) nd w = Ok (WSetValid ngen last n, w') /\
    (forall q, q ∈ c ++ [l] -> tag w' q = tag w q) /\
    cinv_at (mkC w' ts (WSetValid ngen last n)) c l [n] fl' /\
    generation w' = generation w /\
    guards w' = guards w.
Proof.
  intros (H1 & H2 & H3 & H4). simpl in *. destruct H3 as (-> & -> & ->).
  pose proof (cwf_free _ _ _ _ _ H1) as Hfree.
  pose proof (cwf_nodup _ _ _ _ _ H1) as Hnd. simpl in Hnd.
  assert (Hlive : forall p, p ∈ c ++ [l] -> (p < length (heap w))%nat).
  { intros p Hp. eapply cwf_in_heap; [done|]. apply elem_of_app. by left. }
  destruct fl as [|f fl].
  - (* a new record *)
    simpl in Hfree.
    unfold writer_step, load_free, new_GenerationHold, inc_numHolds, store_generation,
      store_next, bind, get_handler, put_handler, get_hold, put_hold, ret. simpl.
    rewrite Hfree. simpl.
    rewrite lookup_app_r by done. rewrite Nat.sub_diag. simpl.
    rewrite list_lookup_insert_eq by (rewrite length_app; simpl; lia). simpl.
    rewrite list_insert_insert_eq.
    rewrite insert_app_r_alt by done. rewrite Nat.sub_diag. simpl.
    set (n := length (heap w)).
    eexists _, n, []. split; [done|].
    set (w' := mkWorld _ _ _).
    assert (Hold : forall p, (p < n)%nat -> heap w' !! p = heap w !! p).
    { intros p Hp. unfold w'; simpl. by rewrite lookup_app_l. }
    split; [intros q Hq; unfold tag; by rewrite Hold by (by apply Hlive)|].
    split; [|done].
    assert (Hn : heap w' !! n = Some (mkHold 1 (generation w + 1) None)).
    { unfold w'; simpl. by rewrite lookup_app_r, Nat.sub_diag by done. }
    unfold cinv_at. cbn [shared writer_pc].
    split; [|split; [|split]].
    + destruct H1 as [W1 W2 W3 W4 W5 W6 W7 W8]. split.
      * done.
      * eapply chain_ext; [|exact W2]. intros p Hp. by apply Hold, Hlive.
      * simpl. by rewrite Hfree.
      * rewrite app_nil_r in *. apply NoDup_app. split; [done|].
        split; [|apply NoDup_singleton].
        intros p Hp ->%list_elem_of_singleton. specialize (Hlive _ Hp). unfold n in *. lia.
      * intros p Hp. unfold w' in Hp; simpl in Hp. rewrite length_app in Hp. simpl in Hp.
        destruct (decide (p = n)) as [->|Hne].
        -- apply elem_of_app. right. by left.
        -- apply elem_of_app. left.
           pose proof (W5 p ltac:(unfold n in *; lia)) as Hin. by rewrite app_nil_r in Hin.
      * intros q ->%list_elem_of_singleton. by eexists.
      * intros p Hp. unfold word. rewrite Hold by (by apply Hlive). by apply W7.
      * by intros p ?%elem_of_nil.
    + destruct H2 as [T1 T2 T3 T4].
      assert (Hto : forall p, p ∈ c ++ [l] -> tag w' p = tag w p).
      { intros p Hp. unfold tag. by rewrite Hold by (by apply Hlive). }
      split.
      * eapply StronglySorted_impl_in; [|exact T1]. intros x y Hx Hy. unfold older.
        by rewrite !Hto.
      * rewrite Hto; [done|]. apply elem_of_app. right. by left.
      * rewrite Hto by apply hd_in. done.
      * done.
    + simpl. split; [done|]. split; [done|]. split; [done|].
      unfold tag, word. rewrite Hn. done.
    + by apply (ccount_alloc (mkC w ts (WLink (generation w + 1) l))); [|right].
  - (* a record of the freelist *)
    simpl in Hfree. destruct Hfree as [Hf (rf & Hrf & Hfree)].
    assert (f < length (heap w))%nat as Hflt by (by eapply lookup_lt_Some).
    apply NoDup_app in Hnd as (Hndc & Hdis & Hndf).
    apply NoDup_cons in Hndf as [Hf_notin Hndf].
    unfold writer_step, load_free, load_next, store_free, store_generation,
      store_next, bind, get_handler, put_handler, get_hold, put_hold, ret. simpl.
    rewrite Hf. simpl. rewrite Hrf. simpl. rewrite Hrf. simpl.
    rewrite list_lookup_insert_eq by done. simpl.
    rewrite list_insert_insert_eq.
    eexists _, f, fl. split; [done|].
    set (w' := mkWorld _ _ _).
    assert (Hold : forall p, p <> f -> heap w' !! p = heap w !! p).
    { intros p Hp. unfold w'; simpl. by rewrite list_lookup_insert_ne. }
    assert (Hn : heap w' !! f = Some (mkHold (hold_refCount rf) (generation w + 1) None)).
    { unfold w'; simpl. by rewrite list_lookup_insert_eq. }
    assert (Hlf : forall p, p ∈ c ++ [l] -> p <> f).
    { intros p Hp ->. apply (Hdis f Hp). by left. }
    split; [intros q Hq; unfold tag; by rewrite Hold by (by apply Hlf)|].
    split; [|done].
    unfold cinv_at. cbn [shared writer_pc].
    split; [|split; [|split]].
    + destruct H1 as [W1 W2 W3 W4 W5 W6 W7 W8]. split.
      * done.
      * eapply chain_ext; [|exact W2]. intros p Hp. by apply Hold, Hlf.
      * simpl. eapply chain_ext; [|exact Hfree]. intros p Hp. apply Hold.
        by intros ->.
      * simpl. apply NoDup_app. split; [done|]. split; [|by apply NoDup_cons].
        intros p Hp. by apply Hdis.
      * intros p Hp. unfold w' in Hp; simpl in Hp. rewrite length_insert in Hp.
        by apply W5.
      * intros q ->%list_elem_of_singleton. by eexists.
      * intros p Hp. unfold word. rewrite Hold by (by apply Hlf). by apply W7.
      * intros p Hp. unfold word. rewrite Hold by (by intros ->). apply W8. by right.
    + destruct H2 as [T1 T2 T3 T4].
      assert (Hto : forall p, p ∈ c ++ [l] -> tag w' p = tag w p).
      { intros p Hp. unfold tag. by rewrite Hold by (by apply Hlf). }
      split.
      * eapply StronglySorted_impl_in; [|exact T1]. intros x y Hx Hy. unfold older.
        by rewrite !Hto.
      * rewrite Hto; [done|]. apply elem_of_app. right. by left.
      * rewrite Hto by apply hd_in. done.
      * done.
    + simpl. split; [done|]. split; [done|]. split; [done|].
      unfold tag, word. rewrite Hn. simpl. split; [done|].
      pose proof (cwf_invalid _ _ _ _ _ H1 f ltac:(by left)) as Hv.
      unfold word in Hv. by rewrite Hrf in Hv.
    + apply (ccount_writer_update (mkC w ts (WLink (generation w + 1) l)) f rf); try done.
      * simpl. by apply (cc_word _ H4 f rf).
      * simpl. intros Hv.
        by eapply (invalid_unpinned (mkC w ts (WLink (generation w + 1) l))).
Qed.

Lemma cinv_w_setValid nd w ts ngen last nhold c l d fl :
  cinv_at (mkC w ts (WSetValid ngen last nhold)) c l d fl ->
  exists w',
    writer_step (WSetValid ngen last nhold) nd w = Ok (WPublish ngen last nhold, w') /\
    (forall q, tag w' q = tag w q) /\
    cinv_at (mkC w' ts (WPublish ngen last nhold)) c l d fl /\
    generation w' = generation w /\
    guards w' = guards w.
Proof.
  intros (H1 & H2 & H3 & H4). simpl in *. destruct H3 as (-> & -> & -> & Htag & Hinv).
  destruct (cwf_detached _ _ _ _ _ H1 nhold ltac:(by left)) as (r & Hr & Hnone).
  assert (nhold < length (heap w))%nat as Hlt by (by eapply lookup_lt_Some).
  unfold word in Hinv. rewrite Hr in Hinv.
  pose proof (cc_word _ H4 nhold r Hr) as Hw. simpl in Hw. rewrite Hinv in Hw.
  pose proof (ccount_word_bound _ nhold r H4 Hr) as Hrange. simpl in Hrange.
  assert (Hsub : wrap32 (hold_refCount r - 1) = hold_refCount r - 1).
  { unfold wrap32. apply Z.mod_small. lia. }
  assert (Hval : valid (hold_refCount r - 1) = true).
  { rewrite <- Hsub, valid_sub1. by rewrite Hinv. }
  unfold writer_step, setValid. unfold bind at 1. unfold bind at 1.
  rewrite (load_refCount_ok nd w nhold r Hr).
  unfold bind at 1. unfold assert_. rewrite Hinv. simpl. rewrite orb_true_r.
  unfold bind at 1. rewrite (fetch_sub_ok nd w nhold r Hr).
  unfold bind, ret, set_heap. simpl. rewrite Hsub.
  eexists. split; [done|].
  set (w' := mkWorld _ _ _).
  assert (Htag' : forall p, tag w' p = tag w p).
  { intros p. unfold tag, w'; simpl. destruct (decide (nhold = p)) as [<-|Hne].
    - rewrite list_lookup_insert_eq by done. by rewrite Hr.
    - by rewrite list_lookup_insert_ne. }
  split; [done|]. split; [|done].
  unfold cinv_at. cbn [shared writer_pc].
  split; [|split; [|split]].
  - apply (cwf_ext w); try done.
    + by unfold w'; simpl; rewrite length_insert.
    + intros p. unfold w'; simpl. destruct (decide (nhold = p)) as [<-|Hne].
      * rewrite list_lookup_insert_eq by done. by rewrite Hr.
      * by rewrite list_lookup_insert_ne.
    + intros p Hp. unfold word, w'; simpl. rewrite list_lookup_insert_ne; [done|].
      intros ->. apply Hp. by left.
  - by apply (ctags_ext w).
  - simpl. split; [done|]. split; [done|]. split; [done|]. split; [by rewrite Htag'|].
    unfold word, w'; simpl. by rewrite list_lookup_insert_eq.
  - apply (ccount_writer_update
             (mkC w ts (WSetValid (generation w + 1) l nhold)) nhold r); try done.
    + simpl. rewrite Hval. lia.
    + simpl. by rewrite Hval.
Qed.

Lemma cinv_w_publish nd w ts ngen last nhold c l d fl :
  cinv_at (mkC w ts (WPublish ngen last nhold)) c l d fl ->
  exists w',
    writer_step (WPublish ngen last nhold) nd w = Ok (WSweep, w') /\
    (forall q, tag w' q = tag w q) /\
    cinv_at (mkC w' ts WSweep) (c ++ [l]) nhold [] fl /\
    generation w' = generation w + 1 /\
    guards w' = guards w.
Proof.
  intros (H1 & H2 & H3 & H4). simpl in *. destruct H3 as (-> & -> & -> & Htag & Hval).
  destruct (cwf_detached _ _ _ _ _ H1 nhold ltac:(by left)) as (rn & Hrn & Hnone).
  destruct (cwf_last_record _ _ _ _ _ H1) as (Hc & r & Hr & _).
  assert (l < length (heap w))%nat as Hlt by (by eapply lookup_lt_Some).
  pose proof (cwf_nodup _ _ _ _ _ H1) as Hnd. simpl in Hnd.
  pose proof Hnd as Hnd'.
  apply NoDup_app in Hnd' as (Hndc & Hdis & Hndf).
  apply NoDup_cons in Hndf as [Hn_notin Hndf].
  assert (Hnl : nhold <> l).
  { intros ->. apply (Hdis l); [|by left]. apply elem_of_app. right. by left. }
  assert (Hlc : l ∉ c).
  { intros Hin. apply NoDup_app in Hndc as (_ & Hd & _). apply (Hd l Hin). by left. }
  assert (Hlfl : l ∉ fl).
  { intros Hin. apply (Hdis l); [|by right]. apply elem_of_app. right. by left. }
  unfold writer_step, store_next, set_generation, store_last, bind, get_handler,
    put_handler, get_hold, put_hold, ret. simpl. rewrite Hr. simpl.
  eexists. split; [done|].
  set (w' := mkWorld _ _ _).
  assert (Hold : forall p, p <> l -> heap w' !! p = heap w !! p).
  { intros p Hp. unfold w'; simpl. by rewrite list_lookup_insert_ne. }
  assert (Hl' : heap w' !! l =
                Some (mkHold (hold_refCount r) (hold_generation r) (Some nhold))).
  { unfold w'; simpl. by rewrite list_lookup_insert_eq. }
  assert (Htag' : forall p, tag w' p = tag w p).
  { intros p. unfold tag. destruct (decide (p = l)) as [->|Hne].
    - by rewrite Hl', Hr.
    - by rewrite Hold. }
  split; [done|]. split; [|done].
  assert (Hword : forall p, word w' p = word w p).
  { intros p. unfold word. destruct (decide (p = l)) as [->|Hne].
    - by rewrite Hl', Hr.
    - by rewrite Hold. }
  unfold cinv_at. cbn [shared writer_pc].
  split; [|split; [|split]].
  - destruct H1 as [W1 W2 W3 W4 W5 W6 W7 W8]. split.
    + done.
    + apply chain_app. exists (Some nhold). split.
      * apply chain_app. exists (Some l). split.
        -- eapply chain_ext; [|exact Hc]. intros p Hp. apply Hold.
           by intros ->.
        -- simpl. split; [done|]. eexists. split; [exact Hl'|]. done.
      * simpl. split; [done|]. exists rn. split; [by rewrite Hold|]. by rewrite Hnone.
    + simpl. eapply chain_ext; [|exact W3]. intros p Hp. apply Hold.
      by intros ->.
    + simpl. rewrite <- (assoc_L (++)). done.
    + intros p Hp. unfold w' in Hp; simpl in Hp. rewrite length_insert in Hp.
      simpl. rewrite <- (assoc_L (++)). by apply W5.
    + by intros p ?%elem_of_nil.
    + intros p [Hp| ->%list_elem_of_singleton]%elem_of_app.
      * rewrite Hword. by apply W7.
      * by rewrite Hword.
    + intros p Hp. rewrite Hword. by apply W8.
  - destruct H2 as [T1 T2 T3 T4]. split.
    + apply StronglySorted_app. split; [|split].
      * intros x y Hx ->%list_elem_of_singleton. unfold older. rewrite !Htag', Htag.
        pose proof (sorted_le_last _ _ _ _ T1 Hx). lia.
      * eapply StronglySorted_impl_in; [|exact T1]. intros x y _ _. unfold older.
        by rewrite !Htag'.
      * repeat constructor.
    + rewrite Htag'. done.
    + rewrite hd_snoc, Htag'. done.
    + unfold generation in *. simpl. lia.
  - done.
  - apply (ccount_writer_update
             (mkC w ts (WPublish (generation w + 1) l nhold)) l r); try done.
    + simpl. by apply (cc_word _ H4 l r).
    + simpl. intros Hv.
      by eapply (invalid_unpinned (mkC w ts (WPublish (generation w + 1) l nhold))).
Qed.

Lemma cinv_w_sweep nd w ts c l d fl :
  cinv_at (mkC w ts WSweep) c l d fl ->
  exists pc',
    writer_step WSweep nd w = Ok (pc', w) /\ cinv_at (mkC w ts pc') c l d fl /\
    pending (mkC w ts pc') = generation w.
Proof.
  intros (H1 & H2 & H3 & H4). simpl in *. subst d.
  pose proof (cwf_first _ _ _ _ _ H1) as Hfirst.
  pose proof (cwf_last _ _ _ _ _ H1) as Hlast.
  pose proof (cwf_nodup_live _ _ _ _ _ H1) as Hnd.
  assert (Hcc : forall pc', ccount (mkC w ts pc'))
    by (intros pc'; by apply (ccount_same (mkC w ts WSweep))).
  unfold writer_step, load_first, load_last.
  unfold bind at 1. unfold bind at 1. simpl.
  unfold bind at 1. unfold bind at 1. simpl. rewrite Hfirst, Hlast.
  destruct c as [|p c]; simpl.
  - rewrite bool_decide_eq_true_2 by done. eexists. split; [done|]. split; [|unfold pending; simpl; lia].
    split; [done|]. split; [done|]. split; [done|]. apply Hcc.
  - rewrite bool_decide_eq_false_2.
    2:{ intros [= ->]. simpl in Hnd. apply NoDup_cons in Hnd as [Hn _].
        apply Hn, elem_of_app. right. by left. }
    assert (p < length (heap w))%nat as Hlt.
    { eapply cwf_in_heap; [done|]. apply elem_of_app. left. by left. }
    apply lookup_lt_is_Some in Hlt as [r Hr].
    pose proof (cwf_valid _ _ _ _ _ H1 p ltac:(by left)) as Hv.
    unfold word in Hv. rewrite Hr in Hv.
    unfold bind at 1. simpl. unfold bind at 1. rewrite (load_refCount_ok nd w p r Hr).
    unfold bind at 1. unfold assert_. rewrite Hv, orb_true_r.
    destruct (hold_refCount r =? 0) eqn:E; simpl.
    + apply Z.eqb_eq in E. rewrite E. eexists. split; [done|]. split; [|unfold pending; simpl; lia].
      split; [done|]. split; [done|]. split; [done|]. apply Hcc.
    + eexists. split; [done|]. split; [|unfold pending; simpl; lia]. split; [done|]. split; [done|]. split; [done|]. apply Hcc.
Qed.

Lemma cinv_w_cas nd w ts toFree refs c l d fl :
  cinv_at (mkC w ts (WCas toFree refs)) c l d fl ->
  exists pc' w' c' fl',
    writer_step (WCas toFree refs) nd w = Ok (pc', w') /\
    (forall q, tag w' q = tag w q) /\
    cinv_at (mkC w' ts pc') c' l d fl' /\
    pending (mkC w' ts pc') = generation w /\
    guards w' = guards w.
Proof.
  intros (H1 & H2 & H3 & H4). simpl in *. destruct H3 as (-> & -> & Hhead).
  destruct c as [|p c]; [done|]. simpl in Hhead. injection Hhead as ->.
  pose proof (cwf_live _ _ _ _ _ H1) as Hlive. simpl in Hlive.
  destruct Hlive as [Hfirst (r & Hr & Hrest)].
  assert (toFree < length (heap w))%nat as Hlt by (by eapply lookup_lt_Some).
  pose proof (cwf_nodup _ _ _ _ _ H1) as Hnd. simpl in Hnd.
  apply NoDup_cons in Hnd as [Hp_notin Hnd].
  assert (Hcc : forall pc', ccount (mkC w ts pc'))
    by (intros pc'; by apply (ccount_same (mkC w ts (WCas toFree 0)))).
  unfold writer_step. unfold bind at 1.
  unfold compare_exchange_strong. unfold bind at 1. rewrite (get_hold_ok nd w toFree r Hr).
  destruct (hold_refCount r =? 0) eqn:E.
  - (* the record is retired *)
    apply Z.eqb_eq in E.
    assert (Hnext : hold_next r <> None).
    { destruct (c ++ [l]) as [|q s] eqn:Ec; [by destruct c|].
      simpl in Hrest. destruct Hrest as [-> _]. done. }
    unfold load_next, store_first, load_free, store_next, store_free, bind, get_handler,
      put_handler, get_hold, put_hold, ret, assert_. simpl.
    rewrite list_lookup_insert_eq by done. simpl.
    rewrite bool_decide_eq_true_2 by done. rewrite orb_true_r. simpl.
    rewrite list_lookup_insert_eq by done. simpl.
    rewrite list_insert_insert_eq.
    eexists _, _, c, (toFree :: fl). split; [done|].
    set (w' := mkWorld _ _ _).
    assert (Hold : forall q, q <> toFree -> heap w' !! q = heap w !! q).
    { intros q Hq. unfold w'; simpl. by rewrite list_lookup_insert_ne. }
    assert (Hp' : heap w' !! toFree =
                  Some (mkHold 1 (hold_generation r) (_free (handler w)))).
    { unfold w'; simpl. by rewrite list_lookup_insert_eq. }
    assert (Htag' : forall q, tag w' q = tag w q).
    { intros q. unfold tag. destruct (decide (q = toFree)) as [->|Hne].
      - by rewrite Hp', Hr.
      - by rewrite Hold. }
    split; [done|].
    split; [|split; [unfold pending, generation; simpl; lia|done]].
    assert (Hin : forall q, q ∈ (c ++ [l]) ++ fl -> q <> toFree).
    { intros q Hq ->. done. }
    unfold cinv_at. cbn [shared writer_pc].
    split; [|split; [|split]].
    + destruct H1 as [W1 W2 W3 W4 W5 W6 W7 W8]. split.
      * done.
      * simpl. eapply chain_ext; [|exact Hrest]. intros q Hq. apply Hold, Hin.
        apply elem_of_app. by left.
      * simpl. split; [done|]. eexists. split; [exact Hp'|]. simpl.
        eapply chain_ext; [|exact W3]. intros q Hq. apply Hold, Hin.
        apply elem_of_app. by right.
      * simpl. apply NoDup_app in Hnd as (A & B & C).
        apply NoDup_app. split; [done|]. split.
        -- intros q Hq [->|Hq']%elem_of_cons; [|by apply (B q)].
           apply Hp_notin. apply elem_of_app. by left.
        -- apply NoDup_cons. split; [|done]. intros Hq. apply Hp_notin.
           apply elem_of_app. by right.
      * intros q Hq. unfold w' in Hq; simpl in Hq. rewrite length_insert in Hq.
        specialize (W5 q Hq). simpl in *.
        apply elem_of_cons in W5 as [->|W5].
        -- apply elem_of_app. right. by left.
        -- apply elem_of_app in W5 as [W5|W5]; apply elem_of_app; [by left|right].
           by right.
      * by intros q ?%elem_of_nil.
      * intros q Hq. unfold word. rewrite Hold.
        -- apply W7. by right.
        -- apply Hin, elem_of_app. by left.
      * intros q [->|Hq]%elem_of_cons.
        -- unfold word. by rewrite Hp'.
        -- unfold word. rewrite Hold; [by apply W8|]. apply Hin, elem_of_app. by right.
    + destruct H2 as [T1 T2 T3 T4]. simpl in T1, T3.
      apply StronglySorted_cons in T1 as [Hall T1]. split.
      * eapply StronglySorted_impl_in; [|exact T1]. intros x y _ _. unfold older.
        by rewrite !Htag'.
      * by rewrite Htag'.
      * change (first_used_generation w') with (first_used_generation w).
        rewrite Htag'. rewrite Forall_forall in Hall.
        specialize (Hall (hd l c) (hd_in c l)). unfold older in Hall. lia.
      * done.
    + done.
    + pose proof (cc_word _ H4 toFree r Hr) as Hw. simpl in Hw. rewrite E in Hw.
      simpl in Hw.
      assert (Hh : holders (mkC w ts (WCas toFree 0)) toFree = 0%nat) by lia.
      apply (ccount_writer_update (mkC w ts (WCas toFree 0)) toFree r); try done.
      * simpl. rewrite Hh. done.
      * simpl. intros _. unfold holders in Hh. simpl in Hh. lia.
  - (* a reader has come in between *)
    simpl. unfold ret. eexists _, _, (toFree :: c), fl. split; [done|]. split; [done|].
    split; [|split; [unfold pending, generation; simpl; lia|done]].
    split; [done|]. split; [done|]. split; [done|]. apply Hcc.
Qed.

Lemma cinv_w_store nd w ts c l d fl :
  cinv_at (mkC w ts WStore) c l d fl ->
  exists w',
    writer_step WStore nd w = Ok (WIdle, w') /\
    (forall q, tag w' q = tag w q) /\
    cinv_at (mkC w' ts WIdle) c l d fl /\
    generation w' = generation w /\
    guards w' = guards w.
Proof.
  intros (H1 & H2 & H3 & H4). simpl in *. subst d.
  pose proof (cwf_first _ _ _ _ _ H1) as Hfirst.
  assert (hd l c < length (heap w))%nat as Hlt.
  { eapply cwf_in_heap; [done|]. apply elem_of_app. left. apply hd_in. }
  apply lookup_lt_is_Some in Hlt as [r Hr].
  unfold writer_step, load_first. unfold bind at 1. unfold bind at 1. simpl.
  rewrite Hfirst. unfold bind at 1. simpl.
  unfold bind at 1. rewrite (load_generation_ok nd w _ r Hr).
  unfold store_firstUsedGeneration, bind, get_handler, put_handler, ret. simpl.
  eexists. split; [done|]. split; [done|]. split; [|done].
  set (w' := mkWorld _ _ _).
  unfold cinv_at. cbn [shared writer_pc].
  split; [|split; [|split]].
  - by apply (cwf_ext w).
  - destruct H2 as [T1 T2 T3 T4]. split; try done.
    change (tag w' (hd l c)) with (tag w (hd l c)).
    change (first_used_generation w') with (hold_generation r).
    unfold tag. rewrite Hr. done.
  - done.
  - by apply (ccount_same (mkC w ts WStore)).
Qed.


(** Every step of the writer keeps the invariant. *)
Lemma cinv_writer nd s :
  cinv s ->
  pending s + Z.of_nat (begins CWriter s) < 2 ^ 64 ->
  exists s',
    cstep CWriter nd s = Ok s' /\ cinv s' /\
    pending s' <= pending s + Z.of_nat (begins CWriter s) /\ inflight s' = inflight s /\
    forall g p, guards (shared s) !! g = Some (mkGuard (Some p)) -> tag_step s s' p.
Proof.
  destruct s as [w ts pc]. intros (c & l & d & fl & Hinv) Hgen.
  unfold cstep. cbn [shared takers writer_pc].
  unfold pending in Hgen. cbn [shared writer_pc] in Hgen.
  unfold tag_step. cbn [shared writer_pc].
  destruct pc as [|ngen last|ngen last|ngen last nhold|ngen last nhold| |toFree refs|];
    cbn [begins writer_pc Z.of_nat] in *.
  - destruct (cinv_w_idle nd w ts c l d fl Hinv ltac:(lia)) as (pc' & -> & H & Hp).
    eexists. split; [done|]. split; [by exists c, l, d, fl|]. split; [|split; [done|]].
    + rewrite Hp. unfold pending. simpl. lia.
    + intros g p _. by left.
  - destruct (cinv_w_morph nd w ts ngen last c l d fl Hinv)
      as (w' & -> & (-> & Ht1 & Ht2) & H & Hg & Hgs).
    eexists. split; [done|]. split; [by exists c, l, d, fl|].
    unfold pending, inflight, live_guards. simpl. rewrite Hg, Hgs.
    split; [lia|]. split; [done|].
    intros g p _. destruct (decide (p = l)) as [->|Hne]; [right; by exists ngen|left].
    by apply Ht2.
  - destruct (cinv_w_link nd w ts ngen last c l d fl Hinv)
      as (w' & n & fl' & -> & Ht & H & Hg & Hgs).
    eexists. split; [done|]. split; [by exists c, l, [n], fl'|].
    unfold pending, inflight, live_guards. simpl. rewrite Hg, Hgs.
    split; [lia|]. split; [done|].
    intros g p Hgp. left. apply Ht.
    destruct Hinv as (H1 & _ & H3 & H4). simpl in *. destruct H3 as (-> & _).
    destruct (cc_pin _ H4 g p Hgp) as [Hlt Hv]. simpl in *.
    pose proof (cwf_cover _ _ _ _ _ H1 p Hlt) as Hin. simpl in Hin.
    apply elem_of_app in Hin as [Hin|Hin]; [done|].
    by rewrite (cwf_invalid _ _ _ _ _ H1 p Hin) in Hv.
  - destruct (cinv_w_setValid nd w ts ngen last nhold c l d fl Hinv)
      as (w' & -> & Ht & H & Hg & Hgs).
    eexists. split; [done|]. split; [by exists c, l, d, fl|].
    unfold pending, inflight, live_guards. simpl. rewrite Hg, Hgs.
    split; [lia|]. split; [done|]. intros g p _. by left.
  - destruct (cinv_w_publish nd w ts ngen last nhold c l d fl Hinv)
      as (w' & -> & Ht & H & Hg & Hgs).
    eexists. split; [done|]. split; [by exists (c ++ [l]), nhold, [], fl|].
    unfold pending, inflight, live_guards. simpl. rewrite Hg, Hgs.
    split; [lia|]. split; [done|]. intros g p _. by left.
  - destruct (cinv_w_sweep nd w ts c l d fl Hinv) as (pc' & -> & H & Hp).
    eexists. split; [done|]. split; [by exists c, l, d, fl|]. split; [|split; [done|]].
    + rewrite Hp. unfold pending. simpl. lia.
    + intros g p _. by left.
  - destruct (cinv_w_cas nd w ts toFree refs c l d fl Hinv)
      as (pc' & w' & c' & fl' & -> & Ht & H & Hp & Hgs).
    eexists. split; [done|]. split; [by exists c', l, d, fl'|]. split; [|split].
    + rewrite Hp. unfold pending. simpl. lia.
    + unfold inflight, live_guards. simpl. by rewrite Hgs.
    + intros g p _. by left.
  - destruct (cinv_w_store nd w ts c l d fl Hinv) as (w' & -> & Ht & H & Hg & Hgs).
    eexists. split; [done|]. split; [by exists c, l, d, fl|].
    unfold pending, inflight, live_guards. simpl. rewrite Hg, Hgs.
    split; [lia|]. split; [done|]. intros g p _. by left.
Qed.

Lemma sp_reader_step t : shape_preserving (reader_step t).
Proof. destruct t; unfold reader_step; shape; apply sp_release. Qed.

(** Every step keeps the invariant, as long as fewer than 2^31 guards are
    alive or half taken after it. *)
Lemma cstep_inv nd o s :
  cinv s ->
  pending s + Z.of_nat (begins o s) < 2 ^ 64 ->
  exists s',
    cstep o nd s = Ok s' /\
    (Z.of_nat (inflight s') < 2 ^ 31 -> cinv s') /\
    pending s' <= pending s + Z.of_nat (begins o s) /\
    forall g p, guards (shared s) !! g = Some (mkGuard (Some p)) -> tag_step s s' p.
Proof.
  intros Hinv Hgen. destruct o as [|t|g|].
  - destruct Hinv as (c & l & d & fl & Hinv).
    destruct (cinv_call nd s c l d fl Hinv) as (s' & Hs & H & Hp).
    exists s'. split; [done|]. split; [intros _; by exists c, l, d, fl|].
    split; [simpl; lia|]. intros g p _. left. by injection Hs as <-.
  - destruct Hinv as (c & l & d & fl & Hinv).
    destruct (cinv_reader nd s t c l d fl Hinv) as (s' & Hs & H & Hp).
    exists s'. split; [done|]. split; [|split; [simpl; lia|]].
    + intros Hb. exists c, l, d, fl. by apply H.
    + intros g p _. left. unfold cstep in Hs.
      destruct (takers s !! t) as [x|]; [|by injection Hs as <-].
      destruct (reader_step x nd (shared s)) as [[x' w']|] eqn:E; [|done].
      injection Hs as <-. simpl. by apply (shape_tag _ _ (sp_reader_step x nd _ _ _ E)).
  - destruct Hinv as (c & l & d & fl & Hinv).
    destruct (cinv_drop nd s g c l d fl Hinv) as (s' & Hs & H & Hp).
    exists s'. split; [done|]. split; [intros _; by exists c, l, d, fl|].
    split; [simpl; lia|]. intros g' p _. left. unfold cstep in Hs.
    destruct (when_guard g (Guard_dtor g) nd (shared s)) as [[[] w']|] eqn:E; [|done].
    injection Hs as <-. simpl.
    apply (shape_tag _ _ (sp_step 0 (DropGuard g) ltac:(done) nd _ _ _ E)).
  - destruct (cinv_writer nd s Hinv Hgen) as (s' & Hs & H & Hp & _ & Ht).
    exists s'. split; [done|]. split; [done|]. split; [done|done].
Qed.

(** ** No premature reclamation, over interleavings of atomic accesses *)

Lemma chistory_head nd ops s : chistory nd ops s !! 0%nat = Some s.
Proof. by destruct ops. Qed.

Lemma chistory_tail nd o ops s s1 k :
  cstep o nd s = Ok s1 ->
  chistory nd (o :: ops) s !! S k = chistory nd ops s1 !! k.
Proof. intros H. simpl. by rewrite H. Qed.

Lemma cfresh_inv : cinv cfresh.
Proof.
  exists [], 0%nat, [], []. split; [|split; [|split]].
  - split; simpl.
    + done.
    + split; [done|]. eexists. split; [done|]. done.
    + done.
    + apply NoDup_singleton.
    + intros p Hp. assert (p = 0%nat) as -> by lia. by left.
    + by intros n ?%elem_of_nil.
    + by intros p ->%list_elem_of_singleton.
    + by intros p ?%elem_of_nil.
  - split; simpl; [repeat constructor|done..].
  - done.
  - split; simpl.
    + intros [|p] r Hr; [|done]. by injection Hr as <-.
    + by intros [|g] p.
    + by intros [|t] o.
    + by intros [|t] p.
    + done.
Qed.

(** In a state that satisfies the invariant, the watermark is at or below
    the tag of every pinned record. *)
Lemma cinv_pinned s g p :
  cinv s ->
  guards (shared s) !! g = Some (mkGuard (Some p)) ->
  first_used_generation (shared s) <= tag (shared s) p.
Proof.
  intros (c & l & d & fl & H1 & H2 & H3 & H4) Hg.
  destruct (cc_pin _ H4 g p Hg) as [Hlt Hv].
  pose proof (cwf_cover _ _ _ _ _ H1 p Hlt) as Hin.
  pose proof (ct_fug _ _ _ H2) as Hfug.
  apply elem_of_app in Hin as [Hin|Hin].
  - pose proof (sorted_head_le _ _ _ _ (ct_sorted _ _ _ H2) Hin). lia.
  - apply elem_of_app in Hin as [Hin|Hin].
    + assert (Hhd : tag (shared s) (hd l c) <= generation (shared s)).
      { rewrite <- (ct_last _ _ _ H2).
        apply (sorted_le_last _ c l); [by apply (ct_sorted _ _ _ H2)|apply hd_in]. }
      destruct (writer_pc s) as [|ngen last|ngen last|ngen last nhold|ngen last nhold|
                                 |toFree refs|]; simpl in H3.
      * subst d. by apply elem_of_nil in Hin.
      * destruct H3 as (-> & _). by apply elem_of_nil in Hin.
      * destruct H3 as (-> & _). by apply elem_of_nil in Hin.
      * destruct H3 as (-> & _ & -> & Ht & _).
        apply list_elem_of_singleton in Hin as ->. lia.
      * destruct H3 as (-> & _ & -> & Ht & _).
        apply list_elem_of_singleton in Hin as ->. lia.
      * subst d. by apply elem_of_nil in Hin.
      * destruct H3 as (-> & _). by apply elem_of_nil in Hin.
      * subst d. by apply elem_of_nil in Hin.
    + rewrite (cwf_invalid _ _ _ _ _ H1 p Hin) in Hv. done.
Qed.

Lemma chistory_inv nd ops : forall s,
  cinv s ->
  pending s + Z.of_nat (writer_begins nd ops s) < 2 ^ 64 ->
  cbounded nd ops s ->
  length (chistory nd ops s) = S (length ops) /\
  forall k sk, chistory nd ops s !! k = Some sk ->
    cinv sk /\
    forall sk' g p, chistory nd ops s !! S k = Some sk' ->
      guards (shared sk) !! g = Some (mkGuard (Some p)) -> tag_step sk sk' p.
Proof.
  induction ops as [|o ops IH]; intros s Hinv Hgen Hb.
  - split; [done|]. intros [|k] sk Hk; [|done]. injection Hk as <-. by split.
  - cbn [writer_begins] in Hgen.
    destruct (cstep_inv nd o s Hinv ltac:(lia)) as (s1 & Hstep & Hinv1 & Hp & Ht).
    rewrite Hstep in Hgen.
    assert (Hb1 : cbounded nd ops s1).
    { intros k sk Hk. apply (Hb (S k)). by rewrite (chistory_tail _ _ _ _ _ _ Hstep). }
    specialize (Hinv1 (Hb1 0%nat s1 (chistory_head _ _ _))).
    destruct (IH s1 Hinv1 ltac:(lia) Hb1) as [Hlen Hall]. split.
    + simpl. rewrite Hstep. simpl. by rewrite Hlen.
    + intros [|k] sk Hk.
      * rewrite chistory_head in Hk. injection Hk as <-. split; [done|].
        intros sk' g p Hk' Hg.
        rewrite (chistory_tail _ _ _ _ _ _ Hstep), chistory_head in Hk'.
        injection Hk' as <-. by eapply Ht.
      * rewrite (chistory_tail _ _ _ _ _ _ Hstep) in Hk.
        destruct (Hall k sk Hk) as [Hi Hs]. split; [done|].
        intros sk' g p Hk' Hg.
        rewrite (chistory_tail _ _ _ _ _ _ Hstep) in Hk'. by eapply Hs.
Qed.

(** The writer gets to its morph from the test of line 186 only. *)
Lemma writer_step_morph nd pc w w' ngen p :
  writer_step pc nd w = Ok (WMorph ngen p, w') -> pc = WIdle.
Proof.
  destruct pc; [done|..]; intros H; exfalso; unfold writer_step in H;
    repeat first
      [ apply bind_ok in H as (? & ? & _ & H)
      | match type of H with
        | (if ?b then _ else _) _ _ = _ => destruct b
        | (match ?x with _ => _ end) _ _ = _ => destruct x
        end ];
    cbv [ret] in H; discriminate H.
Qed.

Lemma writer_step_idle nd w l r :
  _last (handler w) = Some l -> heap w !! l = Some r ->
  writer_step WIdle nd w =
  Ok (if hold_refCount r / 2 =? 0
      then WMorph (wrap64 (_generation (handler w) + 1)) l
      else WLink (wrap64 (_generation (handler w) + 1)) l, w).
Proof.
  intros Hl Hr.
  unfold writer_step, getNextGeneration, getCurrentGeneration, load_last.
  unfold bind at 1. unfold bind at 1. unfold bind at 1. simpl.
  unfold bind at 1. unfold bind at 1. simpl. rewrite Hl. simpl.
  unfold bind at 1. simpl. unfold bind at 1. by rewrite (getRefCount_ok nd w l r Hr).
Qed.

(** No step takes the writer to the morph of a record that a guard pins:
    the test of line 186 finds a reader. *)
Lemma cstep_morph_entry nd o s s' g p ngen :
  cinv s ->
  cstep o nd s = Ok s' ->
  guards (shared s) !! g = Some (mkGuard (Some p)) ->
  writer_pc s' = WMorph ngen p ->
  writer_pc s = WMorph ngen p /\ tag (shared s') p = tag (shared s) p.
Proof.
  intros (c & l & d & fl & H1 & H2 & H3 & H4) Hs Hg Hpc.
  destruct s as [w ts pc]. unfold cstep in Hs. cbn [shared takers writer_pc] in *.
  destruct o as [|t|g'|].
  - injection Hs as <-. by split.
  - destruct (ts !! t) as [x|]; [|injection Hs as <-; by split].
    destruct (reader_step x nd w) as [[x' w']|] eqn:E; [|done].
    injection Hs as <-. split; [done|]. simpl.
    by apply (shape_tag _ _ (sp_reader_step x nd _ _ _ E)).
  - destruct (when_guard g' (Guard_dtor g') nd w) as [[[] w']|] eqn:E; [|done].
    injection Hs as <-. split; [done|]. simpl.
    apply (shape_tag _ _ (sp_step 0 (DropGuard g') ltac:(done) nd _ _ _ E)).
  - destruct (writer_step pc nd w) as [[pc' w']|] eqn:E; [|done].
    injection Hs as <-. simpl in Hpc. subst pc'.
    pose proof (writer_step_morph _ _ _ _ _ _ E) as ->. exfalso.
    destruct (cwf_last_record _ _ _ _ _ H1) as (_ & r & Hr & _).
    rewrite (writer_step_idle nd w l r (cwf_last _ _ _ _ _ H1) Hr) in E.
    destruct (hold_refCount r / 2 =? 0) eqn:T; [|done].
    injection E as _ <- _. apply Z.eqb_eq in T.
    pose proof (cc_word _ H4 l r Hr) as Hw.
    destruct (cc_pin _ H4 g l Hg) as [_ Hv].
    pose proof (npins_pos _ _ _ Hg) as Hpos.
    unfold word in Hv. simpl in *. rewrite Hr in Hv. rewrite Hv in Hw.
    unfold holders, pins in Hw. simpl in Hw. Z.div_mod_to_equations. lia.
Qed.

Lemma tag_step_trans s s1 sj p :
  tag_step s s1 p ->
  (forall ngen, writer_pc s1 = WMorph ngen p ->
                writer_pc s = WMorph ngen p /\ tag (shared s1) p = tag (shared s) p) ->
  tag_step s1 sj p ->
  tag_step s sj p.
Proof.
  intros T1 E1 [T|(ngen & Hpc & T)].
  - destruct T1 as [T1|(n & Hn & T1)]; [left; lia|right; exists n; split; [done|lia]].
  - destruct (E1 ngen Hpc) as [Hpc' Ht]. right. exists ngen. split; [done|lia].
Qed.

Lemma chistory_tag_from_start nd ops g p : forall s j sj,
  cinv s ->
  pending s + Z.of_nat (writer_begins nd ops s) < 2 ^ 64 ->
  cbounded nd ops s ->
  chistory nd ops s !! j = Some sj ->
  (forall k sk, (k <= j)%nat -> chistory nd ops s !! k = Some sk ->
                guards (shared sk) !! g = Some (mkGuard (Some p))) ->
  tag_step s sj p.
Proof.
  induction ops as [|o ops IH]; intros s j sj Hinv Hgen Hb Hj Hpin.
  - destruct j; [|done]. injection Hj as <-. by left.
  - destruct j as [|j].
    { rewrite chistory_head in Hj. injection Hj as <-. by left. }
    cbn [writer_begins] in Hgen.
    destruct (cstep_inv nd o s Hinv ltac:(lia)) as (s1 & Hstep & Hinv1 & Hp & Ht).
    rewrite Hstep in Hgen.
    assert (Hb1 : cbounded nd ops s1).
    { intros k sk Hk. apply (Hb (S k)). by rewrite (chistory_tail _ _ _ _ _ _ Hstep). }
    specialize (Hinv1 (Hb1 0%nat s1 (chistory_head _ _ _))).
    rewrite (chistory_tail _ _ _ _ _ _ Hstep) in Hj.
    assert (Hg0 : guards (shared s) !! g = Some (mkGuard (Some p))).
    { apply (Hpin 0%nat); [lia|apply chistory_head]. }
    apply (tag_step_trans s s1 sj p).
    + by eapply Ht.
    + intros ngen Hpc. by apply (cstep_morph_entry nd o s s1 g p ngen).
    + apply (IH s1 j sj Hinv1 ltac:(lia) Hb1 Hj).
      intros k sk Hk Hsk. apply (Hpin (S k)); [lia|].
      by rewrite (chistory_tail _ _ _ _ _ _ Hstep).
Qed.

Lemma chistory_tag_kept nd ops g p : forall s i j si sj,
  cinv s ->
  pending s + Z.of_nat (writer_begins nd ops s) < 2 ^ 64 ->
  cbounded nd ops s ->
  (i <= j)%nat ->
  chistory nd ops s !! i = Some si ->
  chistory nd ops s !! j = Some sj ->
  (forall k sk, (i <= k <= j)%nat -> chistory nd ops s !! k = Some sk ->
                guards (shared sk) !! g = Some (mkGuard (Some p))) ->
  tag_step si sj p.
Proof.
  induction ops as [|o ops IH]; intros s i j si sj Hinv Hgen Hb Hij Hi Hj Hpin.
  - destruct i, j; try done. injection Hi as <-. injection Hj as <-. by left.
  - destruct i as [|i].
    + rewrite chistory_head in Hi. injection Hi as <-.
      apply (chistory_tag_from_start nd (o :: ops) g p s j sj Hinv Hgen Hb Hj).
      intros k sk Hk Hsk. apply (Hpin k); [lia|done].
    + destruct j as [|j]; [lia|].
      cbn [writer_begins] in Hgen.
      destruct (cstep_inv nd o s Hinv ltac:(lia)) as (s1 & Hstep & Hinv1 & Hp & _).
      rewrite Hstep in Hgen.
      assert (Hb1 : cbounded nd ops s1).
      { intros k sk Hk. apply (Hb (S k)). by rewrite (chistory_tail _ _ _ _ _ _ Hstep). }
      specialize (Hinv1 (Hb1 0%nat s1 (chistory_head _ _ _))).
      rewrite (chistory_tail _ _ _ _ _ _ Hstep) in Hi.
      rewrite (chistory_tail _ _ _ _ _ _ Hstep) in Hj.
      apply (IH s1 i j si sj Hinv1 ltac:(lia) Hb1 ltac:(lia) Hi Hj).
      intros k sk Hk Hsk. apply (Hpin (S k)); [lia|].
      by rewrite (chistory_tail _ _ _ _ _ _ Hstep).
Qed.


(** Checks [cbounded] on an interleaving of [n] steps by running it. *)
Tactic Notation "cbounded_by_running" integer(n) :=
  let k := fresh "k" in
  let sk := fresh "sk" in
  let H := fresh "H" in
  intros k sk;
  do n (destruct k as [|k];
        [intros H; vm_compute in H; injection H as <-; vm_compute; reflexivity|]);
  intros H; vm_compute in H; discriminate H.


(** *** The claim as stated fails in three ways *)

(** A reader comes between the writer's test of the count and the morph:
    the guard is taken on record 0 while it has generation 0, the writer
    then morphs the record to generation 1 and moves the watermark to 1. *)
Lemma morph_under_new_guard :
  ~ pinned_generation_kept false
      [CCall; CReader 0; CWriter; CReader 0; CWriter; CWriter; CWriter].
Proof.
  intros H.
  pose proof (H 4%nat 7%nat 0%nat 0%nat _ _ ltac:(lia) eq_refl eq_refl) as H'.
  assert (Hfalse : 1 <= 0); [|lia].
  apply H'. intros k sk Hk.
  assert (k = 4 \/ k = 5 \/ k = 6 \/ k = 7)%nat as [->|[->|[->| ->]]] by lia;
    intros Hsk; vm_compute in Hsk; by injection Hsk as <-.
Qed.

Lemma chistory_skip nd ops1 : forall ops2 s s1 i,
  chistory nd ops1 s !! length ops1 = Some s1 ->
  chistory nd (ops1 ++ ops2) s !! (length ops1 + i)%nat = chistory nd ops2 s1 !! i.
Proof.
  induction ops1 as [|o ops1 IH]; intros ops2 s s1 i Hs.
  - simpl in *. by injection Hs as <-.
  - simpl in Hs. simpl. destruct (cstep o nd s) as [s'|e]; [|done].
    by apply IH.
Qed.

Lemma chistory_three nd o1 o2 o3 ops s s1 s2 s3 i :
  cstep o1 nd s = Ok s1 -> cstep o2 nd s1 = Ok s2 -> cstep o3 nd s2 = Ok s3 ->
  chistory nd (o1 :: o2 :: o3 :: ops) s !! (3 + i)%nat = chistory nd ops s3 !! i.
Proof. intros H1 H2 H3. simpl. by rewrite H1, H2, H3. Qed.

Lemma chistory_four nd o1 o2 o3 o4 ops s s1 s2 s3 s4 i :
  cstep o1 nd s = Ok s1 -> cstep o2 nd s1 = Ok s2 -> cstep o3 nd s2 = Ok s3 ->
  cstep o4 nd s3 = Ok s4 ->
  chistory nd (o1 :: o2 :: o3 :: o4 :: ops) s !! (4 + i)%nat = chistory nd ops s4 !! i.
Proof. intros H1 H2 H3 H4. simpl. by rewrite H1, H2, H3, H4. Qed.

(** One more call of [takeGuard], step by step. *)
Lemma ctaken_call nd k :
  cstep CCall nd (ctaken k) = Ok (mkC (taken k) (repeat TDone k ++ [TStart]) WIdle).
Proof. done. Qed.

Lemma ctaken_load nd k :
  cstep (CReader k) nd (mkC (taken k) (repeat TDone k ++ [TStart]) WIdle) =
  Ok (mkC (taken k) (repeat TDone k ++ [TLoaded (Some 0%nat)]) WIdle).
Proof.
  unfold cstep. cbn [shared takers writer_pc].
  rewrite lookup_app_r by (by rewrite repeat_length).
  rewrite repeat_length, Nat.sub_diag. simpl.
  rewrite insert_app_r_alt by (by rewrite repeat_length).
  by rewrite repeat_length, Nat.sub_diag.
Qed.

Lemma ctaken_add nd k :
  cstep (CReader k) nd (mkC (taken k) (repeat TDone k ++ [TLoaded (Some 0%nat)]) WIdle) =
  Ok (ctaken (S k)).
Proof.
  unfold cstep. cbn [shared takers writer_pc].
  rewrite lookup_app_r by (by rewrite repeat_length).
  rewrite repeat_length, Nat.sub_diag. simpl.
  assert (Hv : valid (wrap32 (2 * Z.of_nat k)) = true).
  { rewrite valid_wrap32. apply valid_spec. rewrite Z.mul_comm. apply Z.mod_mul. lia. }
  unfold bind, fetch_add, bind, get_hold, put_hold, ret, alloc_guard. simpl.
  rewrite Hv. unfold ctaken, taken. simpl. do 2 f_equal.
  - do 2 f_equal.
    + f_equal. unfold wrap32. rewrite Zplus_mod_idemp_l. f_equal. lia.
    + symmetry. apply repeat_cons.
  - rewrite insert_app_r_alt by (by rewrite repeat_length).
    rewrite repeat_length, Nat.sub_diag. simpl. symmetry. apply (repeat_cons k TDone).
Qed.

Lemma chistory_takes nd n rest : forall k i,
  chistory nd (takes k n ++ rest) (ctaken k) !! (3 * n + i)%nat =
  chistory nd rest (ctaken (k + n)) !! i.
Proof.
  induction n as [|n IH]; intros k i.
  - simpl. by rewrite Nat.add_0_r.
  - replace (3 * S n + i)%nat with (3 + (3 * n + i))%nat by lia.
    change (takes k (S n) ++ rest)
      with (CCall :: CReader k :: CReader k :: (takes (S k) n ++ rest)).
    rewrite (chistory_three nd _ _ _ _ _ _ _ _ _
               (ctaken_call nd k) (ctaken_load nd k) (ctaken_add nd k)).
    rewrite IH. do 3 f_equal. lia.
Qed.

(** With 2^31 + 1 guards on record 0 its word reads 2, as if there were one
    guard.  The writer links a record for generation 1, a reader drops its
    guard, the word reads 0, the writer advances again and retires record
    0, on which 2^31 guards still hold a pin: the watermark is 2, the tag
    of the pinned record is 0. *)
Lemma count_tail_run gs ts :
  chistory false (repeat CWriter 6 ++ [CDrop 0] ++ repeat CWriter 6)
    (mkC (mkWorld [mkHold 2 0 None] (handler fresh)
            (mkGuard (Some 0%nat) :: mkGuard (Some 0%nat) :: gs)) ts WIdle) !! 13%nat =
  Some (mkC (mkWorld [mkHold 1 0 None; mkHold 0 2 None]
               (mkHandler 2 2 (Some 1%nat) (Some 1%nat) (Some 0%nat) 2)
               (mkGuard None :: mkGuard (Some 0%nat) :: gs)) ts WIdle).
Proof. vm_compute. reflexivity. Qed.

Lemma wrapped_count_retires_pinned n :
  wrap32 (2 * Z.of_nat (S (S n))) = 2 ->
  ~ pinned_generation_kept false
      (takes 0 (S (S n)) ++ repeat CWriter 6 ++ [CDrop 0] ++ repeat CWriter 6).
Proof.
  intros Hw H.
  set (N := S (S n)) in *.
  assert (Hj : chistory false
                 (takes 0 N ++ repeat CWriter 6 ++ [CDrop 0] ++ repeat CWriter 6)
                 cfresh !! (3 * N + 13)%nat =
               Some (mkC (mkWorld [mkHold 1 0 None; mkHold 0 2 None]
                            (mkHandler 2 2 (Some 1%nat) (Some 1%nat) (Some 0%nat) 2)
                            (mkGuard None :: mkGuard (Some 0%nat) ::
                               repeat (mkGuard (Some 0%nat)) n))
                       (repeat TDone N) WIdle)).
  { change cfresh with (ctaken 0). rewrite chistory_takes. simpl Nat.add.
    unfold ctaken, taken. rewrite Hw. unfold N at 1. simpl repeat at 1.
    apply count_tail_run. }
  specialize (H (3 * N + 13)%nat (3 * N + 13)%nat 1%nat 0%nat _ _ ltac:(lia) Hj Hj).
  assert (Hfalse : 2 <= 0); [|lia].
  apply H. intros k sk Hk Hsk.
  assert (k = 3 * N + 13)%nat as -> by lia. rewrite Hj in Hsk. by injection Hsk as <-.
Qed.

(** One call of [incGeneration] with no guard around, step by step. *)
Lemma cadvanced_steps nd k i ops :
  chistory nd (CWriter :: CWriter :: CWriter :: CWriter :: ops) (cadvanced k) !! (4 + i)%nat =
  chistory nd ops (cadvanced (k + 1)) !! i.
Proof.
  assert (H1 : cstep CWriter nd (cadvanced k) =
               Ok (mkC (advanced k) [] (WMorph (wrap64 (wrap64 k + 1)) 0%nat))) by done.
  assert (H2 : cstep CWriter nd (mkC (advanced k) [] (WMorph (wrap64 (wrap64 k + 1)) 0%nat)) =
               Ok (mkC (mkWorld [mkHold 0 (wrap64 (wrap64 k + 1)) None]
                          (mkHandler (wrap64 (wrap64 k + 1)) (wrap64 k)
                             (Some 0%nat) (Some 0%nat) None 1) []) [] WSweep)) by done.
  assert (H3 : cstep CWriter nd
                 (mkC (mkWorld [mkHold 0 (wrap64 (wrap64 k + 1)) None]
                         (mkHandler (wrap64 (wrap64 k + 1)) (wrap64 k)
                            (Some 0%nat) (Some 0%nat) None 1) []) [] WSweep) =
               Ok (mkC (mkWorld [mkHold 0 (wrap64 (wrap64 k + 1)) None]
                          (mkHandler (wrap64 (wrap64 k + 1)) (wrap64 k)
                             (Some 0%nat) (Some 0%nat) None 1) []) [] WStore)) by done.
  assert (H4 : cstep CWriter nd
                 (mkC (mkWorld [mkHold 0 (wrap64 (wrap64 k + 1)) None]
                         (mkHandler (wrap64 (wrap64 k + 1)) (wrap64 k)
                            (Some 0%nat) (Some 0%nat) None 1) []) [] WStore) =
               Ok (cadvanced (k + 1))).
  { unfold cadvanced, advanced, wrap64. rewrite Zplus_mod_idemp_l. done. }
  apply (chistory_four nd _ _ _ _ _ _ _ _ _ _ _ H1 H2 H3 H4).
Qed.

Lemma chistory_writer_calls nd n rest : forall k i,
  chistory nd (writer_calls n ++ rest) (cadvanced k) !! (4 * n + i)%nat =
  chistory nd rest (cadvanced (k + Z.of_nat n)) !! i.
Proof.
  induction n as [|n IH]; intros k i.
  - simpl. by rewrite Z.add_0_r.
  - replace (4 * S n + i)%nat with (4 + (4 * n + i))%nat by lia.
    change (writer_calls (S n) ++ rest)
      with (CWriter :: CWriter :: CWriter :: CWriter :: (writer_calls n ++ rest)).
    rewrite cadvanced_steps, IH. do 3 f_equal. lia.
Qed.

(** After 2^64 - 1 calls of [incGeneration] the generation is 2^64 - 1.  A
    guard pins its record, the next call links a record for generation 0,
    the counter having wrapped, and a second guard pins that one: the
    watermark is 2^64 - 1, the tag of its record is 0. *)
Lemma wrapped_generation_tail :
  chistory false
    ([CCall; CReader 0; CReader 0] ++ repeat CWriter 6 ++ [CCall; CReader 1; CReader 1])
    (cadvanced (2 ^ 64 - 1)) !! 12%nat =
  Some (mkC (mkWorld [mkHold 2 (2 ^ 64 - 1) (Some 1%nat); mkHold 2 0 None]
               (mkHandler 0 (2 ^ 64 - 1) (Some 1%nat) (Some 0%nat) None 2)
               [mkGuard (Some 0%nat); mkGuard (Some 1%nat)]) [TDone; TDone] WIdle).
Proof. vm_compute. reflexivity. Qed.

Lemma wrapped_generation_passes_pinned :
  ~ pinned_generation_kept false
      (writer_calls (Z.to_nat (2 ^ 64 - 1)) ++
       [CCall; CReader 0; CReader 0] ++ repeat CWriter 6 ++ [CCall; CReader 1; CReader 1]).
Proof.
  intros H.
  set (n := Z.to_nat (2 ^ 64 - 1)) in *.
  assert (Hj : chistory false
                 (writer_calls n ++ [CCall; CReader 0; CReader 0] ++ repeat CWriter 6 ++
                  [CCall; CReader 1; CReader 1]) cfresh !! (4 * n + 12)%nat =
               Some (mkC (mkWorld [mkHold 2 (2 ^ 64 - 1) (Some 1%nat); mkHold 2 0 None]
                            (mkHandler 0 (2 ^ 64 - 1) (Some 1%nat) (Some 0%nat) None 2)
                            [mkGuard (Some 0%nat); mkGuard (Some 1%nat)])
                       [TDone; TDone] WIdle)).
  { change cfresh with (cadvanced 0). rewrite chistory_writer_calls.
    unfold n. rewrite Z2Nat.id by lia. rewrite Z.add_0_l.
    apply wrapped_generation_tail. }
  specialize (H (4 * n + 12)%nat (4 * n + 12)%nat 1%nat 1%nat _ _ ltac:(lia) Hj Hj).
  assert (Hfalse : 2 ^ 64 - 1 <= 0); [|lia].
  apply H. intros k sk Hk Hsk.
  assert (k = 4 * n + 12)%nat as -> by lia. rewrite Hj in Hsk. by injection Hsk as <-.
Qed.


(** ** The steps add up to the calls *)

Lemma writer_run_app nd n m : forall pc w,
  writer_run (n + m) pc nd w =
  match writer_run n pc nd w with
  | Ok (pc', w') => writer_run m pc' nd w'
  | Err e => Err e
  end.
Proof.
  induction n as [|n IH]; intros pc w; [done|].
  simpl. unfold bind. destruct (writer_step pc nd w) as [[pc' w']|]; [|done]. apply IH.
Qed.

Lemma writer_run_step nd n pc pc' w w' :
  writer_step pc nd w = Ok (pc', w') ->
  writer_run (S n) pc nd w = writer_run n pc' nd w'.
Proof. intros H. simpl. unfold bind. by rewrite H. Qed.

(** The loop of [updateFirstUsedGeneration], turn by turn. *)
Lemma sweep_steps nd fuel : forall w w',
  sweep fuel nd w = Ok (tt, w') ->
  exists n, (0 < n)%nat /\ writer_run n WSweep nd w = Ok (WStore, w').
Proof.
  induction fuel as [|fuel IH]; intros w w' H; [done|].
  simpl in H.
  apply bind_ok in H as (first & w1 & E1 & H).
  apply bind_ok in H as (last & w2 & E2 & H).
  assert (Hhead : forall k : writer -> M writer,
            (pc <- writer_step WSweep;; k pc) nd w =
            (if bool_decide (first = last) then k WStore
             else p <- deref first;;
                  refs <- load_refCount p;;
                  assert_ (valid refs);;
                  if negb (refs =? 0) then k WStore else k (WCas p refs)) nd w2).
  { intros k. unfold writer_step. unfold bind at 1. unfold bind at 1. rewrite E1.
    unfold bind at 1. rewrite E2.
    destruct (bool_decide (first = last)); [done|].
    unfold bind. destruct (deref first nd w2) as [[p w3]|]; [|done].
    destruct (load_refCount p nd w3) as [[refs w4]|]; [|done].
    destruct (assert_ (valid refs) nd w4) as [[[] w5]|]; [|done].
    by destruct (negb (refs =? 0)). }
  destruct (bool_decide (first = last)) eqn:Efl.
  - injection H as <-. exists 1%nat. split; [lia|].
    change (writer_run 1 WSweep) with (pc <- writer_step WSweep;; ret pc).
    rewrite (Hhead ret). done.
  - apply bind_ok in H as (p & w3 & E3 & H).
    apply bind_ok in H as (ok & w4 & E4 & H).
    unfold setInvalid in E4.
    apply bind_ok in E4 as (refs & w5 & E5 & E4).
    apply bind_ok in E4 as ([] & w6 & E6 & E4).
    destruct (negb (refs =? 0)) eqn:Ez.
    + injection E4 as <- <-. simpl in H. injection H as <-.
      exists 1%nat. split; [lia|].
      change (writer_run 1 WSweep) with (pc <- writer_step WSweep;; ret pc).
      rewrite (Hhead ret). unfold bind at 1. rewrite E3.
      unfold bind at 1. rewrite E5. unfold bind at 1. rewrite E6. by rewrite Ez.
    + destruct ok; simpl in H.
      * apply bind_ok in H as (next & w7 & E7 & H).
        apply bind_ok in H as ([] & w8 & E8 & H).
        apply bind_ok in H as ([] & w9 & E9 & H).
        apply bind_ok in H as (free & w10 & E10 & H).
        apply bind_ok in H as ([] & w11 & E11 & H).
        apply bind_ok in H as ([] & w12 & E12 & H).
        destruct (IH _ _ H) as (n & Hn & Hrun).
        exists (S (S n)). split; [lia|].
        change (writer_run (S (S n)) WSweep)
          with (pc <- writer_step WSweep;; writer_run (S n) pc).
        rewrite (Hhead (writer_run (S n))). unfold bind at 1. rewrite E3.
        unfold bind at 1. rewrite E5. unfold bind at 1. rewrite E6. rewrite Ez.
        rewrite (writer_run_step nd n (WCas p refs) WSweep w6 w12); [done|].
        unfold writer_step. unfold bind at 1. rewrite E4. simpl.
        unfold bind at 1. rewrite E7. unfold bind at 1. rewrite E8.
        unfold bind at 1. rewrite E9. unfold bind at 1. rewrite E10.
        unfold bind at 1. rewrite E11. unfold bind at 1. by rewrite E12.
      * injection H as <-. exists 2%nat. split; [lia|].
        change (writer_run 2 WSweep)
          with (pc <- writer_step WSweep;; writer_run 1 pc).
        rewrite (Hhead (writer_run 1)). unfold bind at 1. rewrite E3.
        unfold bind at 1. rewrite E5. unfold bind at 1. rewrite E6. rewrite Ez.
        rewrite (writer_run_step nd 0 (WCas p refs) WStore w6 w4); [done|].
        unfold writer_step. unfold bind at 1. by rewrite E4.
Qed.

Lemma update_steps nd w w' :
  updateFirstUsedGeneration nd w = Ok (tt, w') ->
  exists n, (1 < n)%nat /\ writer_run n WSweep nd w = Ok (WIdle, w').
Proof.
  intros H. unfold updateFirstUsedGeneration in H.
  apply bind_ok in H as ([] & w1 & E1 & H).
  destruct (sweep_steps _ _ _ _ E1) as (n & Hn & Hrun).
  apply bind_ok in H as (first & w2 & E2 & H).
  apply bind_ok in H as (p & w3 & E3 & H).
  apply bind_ok in H as (g & w4 & E4 & H).
  exists (n + 1)%nat. split; [lia|].
  rewrite writer_run_app, Hrun.
  rewrite (writer_run_step nd 0 WStore WIdle w1 w'); [done|].
  unfold writer_step. unfold bind at 1. rewrite E2. unfold bind at 1. rewrite E3.
  unfold bind at 1. rewrite E4. unfold bind at 1.
  destruct (store_firstUsedGeneration g nd w4) as [[[] w5]|]; [|done].
  by injection H as <-.
Qed.

(** X15.  The steps into which the interleavings cut [incGeneration] add
    up to the call: whenever [incGeneration] returns, the same world is
    reached by at least four steps of the writer taken one after the other
    from outside a call, at the end of which the writer is outside a call
    again. *)
Theorem writer_steps_make_incGeneration nd w w' :
  incGeneration nd w = Ok (tt, w') ->
  exists n, (4 <= n)%nat /\ writer_run n WIdle nd w = Ok (WIdle, w').
Proof.
  intros H. unfold incGeneration in H.
  apply bind_ok in H as (ngen & w1 & E1 & H).
  apply bind_ok in H as (olast & w2 & E2 & H).
  apply bind_ok in H as (last & w3 & E3 & H).
  apply bind_ok in H as (refs & w4 & E4 & H).
  assert (Hidle : writer_step WIdle nd w =
                  Ok (if refs =? 0 then WMorph ngen last else WLink ngen last, w4)).
  { unfold writer_step. unfold bind at 1. rewrite E1. unfold bind at 1. rewrite E2.
    unfold bind at 1. rewrite E3. unfold bind at 1. by rewrite E4. }
  destruct (refs =? 0).
  - apply bind_ok in H as ([] & w5 & E5 & H).
    apply bind_ok in H as ([] & w6 & E6 & H).
    destruct (update_steps _ _ _ H) as (n & Hn & Hrun).
    exists (S (S n)). split; [lia|].
    rewrite (writer_run_step nd _ _ _ _ _ Hidle).
    rewrite (writer_run_step nd n (WMorph ngen last) WSweep w4 w6); [done|].
    unfold writer_step. unfold bind at 1. rewrite E5. unfold bind at 1. by rewrite E6.
  - apply bind_ok in H as (free & w5 & E5 & H).
    apply bind_ok in H as (nhold & w6 & E6 & H).
    apply bind_ok in H as ([] & w7 & E7 & H).
    apply bind_ok in H as ([] & w8 & E8 & H).
    apply bind_ok in H as ([] & w9 & E9 & H).
    apply bind_ok in H as ([] & w10 & E10 & H).
    apply bind_ok in H as ([] & w11 & E11 & H).
    apply bind_ok in H as ([] & w12 & E12 & H).
    destruct (update_steps _ _ _ H) as (n & Hn & Hrun).
    exists (S (S (S (S n)))). split; [lia|].
    rewrite (writer_run_step nd _ _ _ _ _ Hidle).
    rewrite (writer_run_step nd _ (WLink ngen last) (WSetValid ngen last nhold) w4 w8).
    2:{ unfold writer_step. unfold bind at 1. rewrite E5. unfold bind at 1. rewrite E6.
        unfold bind at 1. rewrite E7. unfold bind at 1. by rewrite E8. }
    rewrite (writer_run_step nd _ (WSetValid ngen last nhold) (WPublish ngen last nhold)
               w8 w9).
    2:{ unfold writer_step. unfold bind at 1. by rewrite E9. }
    rewrite (writer_run_step nd n (WPublish ngen last nhold) WSweep w9 w12); [done|].
    unfold writer_step. unfold bind at 1. rewrite E10. unfold bind at 1. rewrite E11.
    unfold bind at 1. by rewrite E12.
Qed.

Lemma writer_steps_make_incGeneration_witness :
  exists n, (4 <= n)%nat /\
    writer_run n WIdle false
      (mkWorld [mkHold 2 0 None] (mkHandler 0 0 (Some 0%nat) (Some 0%nat) None 1)
         [mkGuard (Some 0%nat)]) =
    Ok (WIdle,
        mkWorld [mkHold 2 0 (Some 1%nat); mkHold 0 1 None]
          (mkHandler 1 0 (Some 1%nat) (Some 0%nat) None 2) [mkGuard (Some 0%nat)]).
Proof.
  apply (writer_steps_make_incGeneration false). reflexivity.
Defined.

(** X16.  The steps into which the interleavings cut [takeGuard] add up to
    the call: when the last record holds a valid 32-bit word, a reader's
    load of [_last] and its [fetch_add], taken one after the other, return
    the world that [takeGuard] returns, with the guard in the slot that
    [takeGuard] returns. *)
Theorem reader_steps_make_takeGuard fuel nd w l r :
  _last (handler w) = Some l ->
  heap w !! l = Some r ->
  is_uint32 (hold_refCount r) ->
  valid (hold_refCount r) = true ->
  exists w',
    takeGuard fuel nd w = Ok (length (guards w), w') /\
    (t <- reader_step TStart;; reader_step t) nd w = Ok (TDone, w') /\
    guards w' !! length (guards w) = Some (mkGuard (Some l)).
Proof.
  intros Hl Hr Hu Hv. eexists. split; [by apply (takeGuard_ok fuel nd w l r)|].
  split.
  - unfold reader_step. unfold bind at 1. unfold load_last. unfold bind at 1. simpl.
    rewrite Hl. unfold bind at 1. simpl. unfold bind at 1.
    rewrite (fetch_add_ok nd w l r Hr), Hv. done.
  - simpl. by rewrite lookup_app_r, Nat.sub_diag by done.
Qed.

Lemma reader_steps_make_takeGuard_witness :
  exists w',
    takeGuard 0 false fresh = Ok (0%nat, w') /\
    (t <- reader_step TStart;; reader_step t) false fresh = Ok (TDone, w').
Proof.
  destruct (reader_steps_make_takeGuard 0 false fresh 0%nat (mkHold 0 0 None))
    as (w' & H1 & H2 & _); try reflexivity.
  - by vm_compute.
  - by exists w'.
Defined.
